(** * Frosted-glass strip renderer (src/App.jsx): model and properties

    The component is JavaScript.  Numbers are IEEE-754 binary64 values and
    are modelled by Rocq's primitive floats, which are the same format with
    the same round-to-nearest-even arithmetic; strings are [string]; plain
    objects used as dictionaries ([params], the gradient cache) are [gmap]s
    keyed by property name; the [Uint8ClampedArray] behind [ImageData] is a
    list of channel values. *)

From Stdlib Require Import ZArith Lia Bool String Ascii List.
From Stdlib Require Import DecimalString HexadecimalString.
From Stdlib Require Import Floats.
From stdpp Require Import gmap strings list.

Set Warnings "-inexact-float".
Local Open Scope Z_scope.

(** ** The fragment of the JavaScript runtime the component relies on *)

Module JS.

(** Values that can sit in a field of [params]: the initial object holds
    numbers and strings, [e.target.value] is always a string, and reading a
    property that is absent gives [undefined]. *)
Inductive jsval : Type :=
| VUndef
| VNum (x : float)
| VStr (s : string).

(** Abrupt completion.  Reading a property of [null] raises a [TypeError].
    The canvas raises a [TypeError] for an argument that is no finite
    number, and the [DOMException]s named [IndexSizeError] and
    [SyntaxError]. *)
Inductive exn : Type :=
| TypeError
| IndexSizeError
| SyntaxError.

Inductive outcome (A : Type) : Type :=
| Ret (a : A)
| Throw (e : exn).
Arguments Ret {A} a.
Arguments Throw {A} e.

Definition bind {A B : Type} (m : outcome A) (k : A -> outcome B) : outcome B :=
  match m with
  | Ret a => k a
  | Throw e => Throw e
  end.

(** Integers as Numbers; exact for |z| < 2^53. *)
Definition of_Z (z : Z) : float :=
  if z <? 0 then PrimFloat.opp (of_uint63 (Uint63.of_Z (- z)))
  else of_uint63 (Uint63.of_Z z).

(** [Math.max] and [Math.min] of two arguments: NaN is contagious and
    [-0] is smaller than [+0]. *)
Definition Math_max (a b : float) : float :=
  if is_nan a || is_nan b then nan
  else if PrimFloat.ltb a b then b
  else if PrimFloat.ltb b a then a
  else if get_sign a then b else a.

Definition Math_min (a b : float) : float :=
  if is_nan a || is_nan b then nan
  else if PrimFloat.ltb a b then a
  else if PrimFloat.ltb b a then b
  else if get_sign a then a else b.

(** [Math.floor]: a finite [x = (-1)^s * m * 2^e] with [e >= 0] is already
    an integer; otherwise the integer part of [m * 2^e] is [m >> -e], below
    2^53 and hence exact as a float.  NaN, infinities and zeros are
    returned unchanged. *)
Definition Math_floor (x : float) : float :=
  match Prim2SF x with
  | S754_finite s m e =>
      if 0 <=? e then x
      else
        let q := Z.shiftr (Zpos m) (- e) in
        if Zpos m =? Z.shiftl q (- e) then x
        else if s then of_Z (- (q + 1)) else of_Z q
  | _ => x
  end.

(** *** Number::toString (radix 10) *)

Definition digits_of_pos (p : positive) : string :=
  DecimalString.NilEmpty.string_of_uint (Pos.to_uint p).

Definition Z_toString (z : Z) : string :=
  match z with
  | Z0 => "0"
  | Zpos p => digits_of_pos p
  | Zneg p => "-" +:+ digits_of_pos p
  end.

Fixpoint zeros (n : nat) : string :=
  match n with
  | O => ""
  | S n' => "0" +:+ zeros n'
  end.

(** Multiples of [10^t] inside the rounding interval of a positive double.
    The interval is [[L/den, H/den]], the double itself is [X/den], and the
    end points belong to it when [incl] holds (even significand).  The
    result is the multiplier [s] closest to the double, if there is one. *)
Definition closest_multiple (L X H den : Z) (incl : bool) (t : Z) : option Z :=
  let scale := if 0 <=? t then 1 else 10 ^ (- t) in
  let P := if 0 <=? t then den * 10 ^ t else den in
  let L' := L * scale in
  let X' := X * scale in
  let H' := H * scale in
  let in_range s :=
    if incl then (L' <=? s * P) && (s * P <=? H')
    else (L' <? s * P) && (s * P <? H') in
  let s1 := X' / P in
  let s2 := s1 + 1 in
  let pick1 := (0 <? s1) && in_range s1 in
  let pick2 := in_range s2 in
  if pick1 && pick2 then
    (* both fit: the nearer one, the even one on a tie *)
    let d1 := X' - s1 * P in
    let d2 := s2 * P - X' in
    if d1 <? d2 then Some s1
    else if d2 <? d1 then Some s2
    else if Z.even s1 then Some s1 else Some s2
  else if pick1 then Some s1
  else if pick2 then Some s2
  else None.

(** Search the largest [t], hence the fewest digits; when the fuel is spent
    the nearest multiple of the last [10^t] is taken. *)
Fixpoint shortest_digits (fuel : nat) (L X H den : Z) (incl : bool) (t : Z) : Z * Z :=
  match closest_multiple L X H den incl t with
  | Some s => (s, t)
  | None =>
      match fuel with
      | O => let scale := if 0 <=? t then 1 else 10 ^ (- t) in
             let P := if 0 <=? t then den * 10 ^ t else den in
             ((2 * X * scale + P) / (2 * P), t)
      | S fuel' => shortest_digits fuel' L X H den incl (t - 1)
      end
  end.

(** The decimal digits [s] and the exponent [n] of the specification of
    Number::toString for the positive finite double [m * 2^e]: the value
    printed is [0.s * 10^n]. *)
Definition decimal_of_double (m : positive) (e : Z) : string * Z :=
  let lower_gap := if (Zpos m =? 2 ^ 52) && (-1074 <? e) then 1 else 2 in
  let den := if 2 <=? e then 1 else 2 ^ (2 - e) in
  let unit := if 2 <=? e then 2 ^ (e - 2) else 1 in
  let X := 4 * Zpos m * unit in
  let L := (4 * Zpos m - lower_gap) * unit in
  let H := (4 * Zpos m + 2) * unit in
  let t0 := (Z.log2 H - Z.log2 den + 1) * 30103 / 100000 + 1 in
  let '(s, t) := shortest_digits 25 L X H den (Z.even (Zpos m)) t0 in
  let ds := Z_toString s in
  (ds, Z.of_nat (String.length ds) + t).

Definition format_decimal (ds : string) (n : Z) : string :=
  let k := Z.of_nat (String.length ds) in
  if (k <=? n) && (n <=? 21) then ds +:+ zeros (Z.to_nat (n - k))
  else if (0 <? n) && (n <=? 21) then
    substring 0 (Z.to_nat n) ds +:+ "." +:+
    substring (Z.to_nat n) (Z.to_nat (k - n)) ds
  else if (-6 <? n) && (n <=? 0) then
    "0." +:+ zeros (Z.to_nat (- n)) +:+ ds
  else
    let ex := (if 0 <=? n - 1 then "+" else "-") +:+ Z_toString (Z.abs (n - 1)) in
    if k =? 1 then ds +:+ "e" +:+ ex
    else substring 0 1 ds +:+ "." +:+ substring 1 (Z.to_nat (k - 1)) ds
         +:+ "e" +:+ ex.

Definition Number_toString (x : float) : string :=
  match Prim2SF x with
  | S754_nan => "NaN"
  | S754_zero _ => "0"
  | S754_infinity s => if s then "-Infinity" else "Infinity"
  | S754_finite s m e =>
      let '(ds, n) := decimal_of_double m e in
      (if s then "-" else "") +:+ format_decimal ds n
  end.

(** *** Conversions *)

(** ToBoolean: [undefined], [NaN], both zeros and the empty string are
    falsy. *)
Definition ToBoolean (v : jsval) : bool :=
  match v with
  | VUndef => false
  | VNum x => negb (is_nan x || is_zero x)
  | VStr s => negb (String.eqb s "")
  end.

(** ToString, as performed by a template literal and by [RegExp.exec]. *)
Definition ToString (v : jsval) : string :=
  match v with
  | VUndef => "undefined"
  | VNum x => Number_toString x
  | VStr s => s
  end.

(** Integer-to-string in radix 16 ([n.toString(16)] on an integer),
    lower-case digits. *)
Definition Z_toString16 (z : Z) : string :=
  match z with
  | Z0 => "0"
  | Zpos p => HexadecimalString.NilEmpty.string_of_uint (Pos.to_hex_uint p)
  | Zneg p => "-" +:+ HexadecimalString.NilEmpty.string_of_uint (Pos.to_hex_uint p)
  end.

(** *** Strings *)

Fixpoint drop_chars (n : nat) (s : string) : string :=
  match n, s with
  | S n', String _ s' => drop_chars n' s'
  | _, _ => s
  end.

(** [s.replace(pat, rep)] with a string pattern: the first occurrence only.
    (No replacement in the modelled code contains a dollar sign.) *)
Fixpoint String_replace (s pat rep : string) : string :=
  if String.prefix pat s then rep +:+ drop_chars (String.length pat) s
  else match s with
       | EmptyString => EmptyString
       | String c s' => String c (String_replace s' pat rep)
       end.

Definition lower_ascii (c : ascii) : ascii :=
  let n := nat_of_ascii c in
  if (65 <=? n)%nat && (n <=? 90)%nat then ascii_of_nat (n + 32) else c.

Fixpoint toLowerCase (s : string) : string :=
  match s with
  | EmptyString => EmptyString
  | String c s' => String (lower_ascii c) (toLowerCase s')
  end.

(** *** Uint8ClampedArray element conversion (ToUint8Clamp)

    NaN becomes 0, the value is clamped to [0, 255] and rounded to the
    nearest integer, ties to even. *)
Definition ToUint8Clamp (x : float) : Z :=
  match Prim2SF x with
  | S754_nan => 0
  | S754_zero _ => 0
  | S754_infinity s => if s then 0 else 255
  | S754_finite s m e =>
      if s then 0
      else if 0 <=? e then Z.min 255 (Z.shiftl (Zpos m) e)
      else
        let q := Z.shiftr (Zpos m) (- e) in
        let r := Zpos m - Z.shiftl q (- e) in
        let half := Z.shiftl 1 (- e - 1) in
        let rounded :=
          if r <? half then q
          else if half <? r then q + 1
          else if Z.even q then q else q + 1 in
        Z.min 255 rounded
  end.

(** Reading an element of a typed array as a Number: an index past the end
    reads [undefined], which arithmetic turns into NaN. *)
Definition read_element (data : list Z) (i : nat) : float :=
  match data !! i with
  | Some z => of_Z z
  | None => nan
  end.

(** *** What the host provides

    Three operations belong to the browser and are left abstract; every
    result below holds for any implementation of them that has the two
    properties of the colour parser listed here.  [StringToNumber]
    is the numeric reading of a string (ToNumber on strings), used whenever
    a slider value, which is a string, meets arithmetic.  [drawBlurred] is
    the effect on the raster of [ctx.drawImage(canvas, 0, 0)] under the
    filter [blur(radius px)].  [parsesAsColor] tells whether the CSS parser
    of the canvas accepts a string as a colour; of CSS only two facts are
    used: [rgba(r,g,b, 0.5)] with three integers from 0 to 255 is a colour,
    and [rgba(NaN,NaN,NaN, 0.5)] is none, as [NaN] is no number of CSS. *)
Class Host : Type := {
  StringToNumber : string -> float;
  drawBlurred : float -> list Z -> list Z;
  parsesAsColor : string -> bool;
  parsesAsColor_rgba : forall rv gv bv : Z,
    0 <= rv <= 255 -> 0 <= gv <= 255 -> 0 <= bv <= 255 ->
    parsesAsColor ("rgba(" +:+ Z_toString rv +:+ "," +:+ Z_toString gv +:+ ","
                   +:+ Z_toString bv +:+ ", 0.5)") = true;
  parsesAsColor_NaN : parsesAsColor "rgba(NaN,NaN,NaN, 0.5)" = false
}.

(** ToNumber: [undefined] is NaN and a string is read by the host. *)
Definition ToNumber `{Host} (v : jsval) : float :=
  match v with
  | VUndef => nan
  | VNum x => x
  | VStr s => StringToNumber s
  end.

End JS.

Declare Scope js_scope.
Notation "'let*' x ':=' m 'in' k" := (JS.bind m (fun x => k))
  (at level 10, x pattern, m at level 100, k at level 200) : js_scope.

(** ** The component *)

Module App.
Import JS.
Local Open Scope js_scope.
Local Open Scope float_scope.

(** *** generateRandomPastelColor (lines 4-17) *)

(** [toHex] (lines 11-14) is only ever given integer Numbers, modelled as
    [Z]: the digits of [n.toString(16)], with a 0 in front of a single one. *)
Definition toHex (n : Z) : string :=
  let hex := Z_toString16 n in
  if (String.length hex =? 1)%nat then "0" +:+ hex else hex.

(** The string built on line 16 from three channels: the conversion from
    channels back to a hex colour. *)
Definition rgbToHex (r g b : Z) : string :=
  "#" +:+ toHex r +:+ toHex g +:+ toHex b.

(** The integer held by an integer-valued Number. *)
Definition integer_of (x : float) : Z :=
  match Prim2SF x with
  | S754_finite s m e =>
      let a := if (0 <=? e)%Z then Z.shiftl (Zpos m) e else Z.shiftr (Zpos m) (- e) in
      if s then (- a)%Z else a
  | _ => 0%Z
  end.

(** [u1], [u2], [u3] are the three results of [Math.random()]. *)
Definition generateRandomPastelColor (u1 u2 u3 : float) : string :=
  let r := Math_floor (u1 * 102) + 128 in
  let g := Math_floor (u2 * 102) + 128 in
  let b := Math_floor (u3 * 102) + 128 in
  rgbToHex (integer_of r) (integer_of g) (integer_of b).

(** *** params (lines 20-33) and property access *)

Definition prop (p : gmap string jsval) (name : string) : jsval :=
  default VUndef (p !! name).

Definition initialParams (startColor midColor endColor : string) : gmap string jsval :=
  list_to_map
    [ ("strips"%string, VNum 10);
      ("startColor"%string, VStr startColor);
      ("midColor"%string, VStr midColor);
      ("endColor"%string, VStr endColor);
      ("noiseScale"%string, VNum 0.02);
      ("verticalBias"%string, VNum 0.7);
      ("text"%string, VStr "");
      ("fontSize"%string, VNum 48);
      ("textColor"%string, VStr "#ffffff");
      ("waveAmplitude"%string, VNum 30);
      ("waveFrequency"%string, VNum 2);
      ("waveOffset"%string, VNum 0.5) ].

(** *** handleParamChange (lines 39-51)

    The browser's animation-frame queue holds the scheduled callbacks, each
    under the handle [requestAnimationFrame] returned for it; a callback of
    this component is determined by the [(name, value)] it closes over.
    [nextHandle] is the handle the browser hands out next. *)
Record component : Type := {
  params : gmap string jsval;
  animationFrameRef : option nat;
  frameQueue : list (nat * (string * string));
  nextHandle : nat
}.

Definition cancelAnimationFrame (h : nat) (q : list (nat * (string * string)))
  : list (nat * (string * string)) :=
  List.filter (fun e => negb (Nat.eqb (fst e) h)) q.

(** The updater passed to [setParams]: [{...prev, [name]: value}]. *)
Definition setParam (name value : string) (prev : gmap string jsval)
  : gmap string jsval :=
  <[name := VStr value]> prev.

(** [if (animationFrameRef.current) cancelAnimationFrame(...)]: the
    reference holds [null] or a handle, and a handle is truthy unless it
    is 0. *)
Definition cancelPending (ref : option nat) (q : list (nat * (string * string)))
  : list (nat * (string * string)) :=
  match ref with
  | Some h => if Nat.eqb h 0 then q else cancelAnimationFrame h q
  | None => q
  end.

Definition handleParamChange (name value : string) (st : component) : component :=
  let q := cancelPending (animationFrameRef st) (frameQueue st) in
  {| params := params st;
     animationFrameRef := Some (nextHandle st);
     frameQueue := q ++ [(nextHandle st, (name, value))];
     nextHandle := S (nextHandle st) |}.

(** One display frame: every callback still queued runs, in order. *)
Definition runFrame (st : component) : component :=
  {| params := fold_left (fun p e => setParam (fst (snd e)) (snd (snd e)) p)
                         (frameQueue st) (params st);
     animationFrameRef := animationFrameRef st;
     frameQueue := [];
     nextHandle := nextHandle st |}.

(** The clean-up returned by the effect (lines 181-185). *)
Definition effectCleanup (st : component) : component :=
  {| params := params st;
     animationFrameRef := animationFrameRef st;
     frameQueue := cancelPending (animationFrameRef st) (frameQueue st);
     nextHandle := nextHandle st |}.

(** *** lerp (lines 54-56) *)

Definition lerp (start end_ t : float) : float :=
  start * (1 - t) + end_ * t.

(** *** hexToRgb (lines 59-66) *)

Record rgb : Type := { r : Z; g : Z; b : Z }.

(** One character of the class [[a-f\d]] under the [i] flag, with its
    value in base 16. *)
Definition hex_digit (c : ascii) : option Z :=
  let n := Z.of_nat (nat_of_ascii c) in
  if ((48 <=? n) && (n <=? 57))%Z then Some (n - 48)%Z
  else if ((97 <=? n) && (n <=? 102))%Z then Some (n - 87)%Z
  else if ((65 <=? n) && (n <=? 70))%Z then Some (n - 55)%Z
  else None.

(** A capture group [([a-f\d]{2})] followed by [parseInt(group, 16)]. *)
Definition hex_pair (c1 c2 : ascii) : option Z :=
  match hex_digit c1, hex_digit c2 with
  | Some d1, Some d2 => Some (16 * d1 + d2)%Z
  | _, _ => None
  end.

(** The optional leading [#] of the pattern. *)
Definition strip_hash (hex : string) : string :=
  match hex with
  | String "#" rest => rest
  | _ => hex
  end.

(** The anchored pattern: an optional [#], then exactly three groups, then
    the end of the string.  [None] is the [null] of a failed match. *)
Definition hexToRgb (hex : string) : option rgb :=
  match strip_hash hex with
  | String c1 (String c2 (String c3 (String c4 (String c5 (String c6 EmptyString))))) =>
      match hex_pair c1 c2, hex_pair c3 c4, hex_pair c5 c6 with
      | Some r, Some g, Some b => Some {| r := r; g := g; b := b |}
      | _, _, _ => None
      end
  | _ => None
  end.

(** *** mapToColor (lines 69-89) *)

(** [c.r] and the like: reading a property of [null] throws. *)
Definition channel (c : option rgb) (sel : rgb -> Z) : outcome float :=
  match c with
  | Some x => Ret (of_Z (sel x))
  | None => Throw TypeError
  end.

(** [Math.floor(lerp(from.ch, to.ch, t))] *)
Definition interpolate (from to : option rgb) (sel : rgb -> Z) (t : float)
  : outcome float :=
  let* x := channel from sel in
  let* y := channel to sel in
  Ret (Math_floor (lerp x y t)).

Definition rgbTemplate (rv gv bv : float) : string :=
  "rgb(" +:+ Number_toString rv +:+ "," +:+ Number_toString gv +:+ ","
  +:+ Number_toString bv +:+ ")".

Definition mapToColor (value : float) (startColor midColor endColor : string)
  : outcome string :=
  let start := hexToRgb startColor in
  let mid := hexToRgb midColor in
  let end_ := hexToRgb endColor in
  if value <=? 0.5 then
    let t := value * 2 in
    let* rv := interpolate start mid r t in
    let* gv := interpolate start mid g t in
    let* bv := interpolate start mid b t in
    Ret (rgbTemplate rv gv bv)
  else
    let t := (value - 0.5) * 2 in
    let* rv := interpolate mid end_ r t in
    let* gv := interpolate mid end_ g t in
    let* bv := interpolate mid end_ b t in
    Ret (rgbTemplate rv gv bv).

(** *** getGradientColor (lines 91-106)

    The cache is the plain object behind [gradientCacheRef.current].  Every
    key holds a hyphen, so no lookup reaches a property inherited from
    [Object.prototype], and the object is a finite map from keys to the
    strings stored. *)

Section Rendering.
Context `{Host}.

Definition cacheKey (p : gmap string jsval) (y stripPosition : float) : string :=
  Number_toString y +:+ "-" +:+ Number_toString stripPosition +:+ "-"
  +:+ ToString (prop p "startColor") +:+ "-"
  +:+ ToString (prop p "midColor") +:+ "-"
  +:+ ToString (prop p "endColor") +:+ "-"
  +:+ ToString (prop p "verticalBias").

(** The test [if (cache[key])]: an absent key reads [undefined], and a
    stored string is truthy unless it is empty. *)
Definition cachedColor (cache : gmap string string) (key : string) : option string :=
  match cache !! key with
  | Some v => if String.eqb v "" then None else Some v
  | None => None
  end.

Definition getGradientColor (p : gmap string jsval) (y stripPosition : float)
    (cache : gmap string string) : outcome (string * gmap string string) :=
  let key := cacheKey p y stripPosition in
  match cachedColor cache key with
  | Some v => Ret (v, cache)
  | None =>
      let baseValue := y in
      let biasedValue := lerp baseValue stripPosition (ToNumber (prop p "verticalBias")) in
      let value := Math_max 0 (Math_min 1 biasedValue) in
      let* color := mapToColor value (ToString (prop p "startColor"))
                      (ToString (prop p "midColor")) (ToString (prop p "endColor")) in
      let rgbaColor := String_replace (String_replace color "rgb" "rgba") ")" ", 0.5)" in
      Ret (rgbaColor, <[key := rgbaColor]> cache)
  end.

(** *** The render effect (lines 108-186) *)

(** Lines 112-114. *)
Definition clearGradientCache (p : gmap string jsval) (cache : gmap string string)
  : gmap string string :=
  if ToBoolean (prop p "startColor") || ToBoolean (prop p "midColor")
     || ToBoolean (prop p "endColor") || ToBoolean (prop p "verticalBias")
  then ∅ else cache.

(** Line 130; [i] is the loop counter and [strips] the number read from
    [params.strips]. *)
Definition stripPosition (i strips : float) : float := i / (strips - 1).

(** [gradient.addColorStop(offset, color)], line 156.  The canvas throws
    a [TypeError] for an offset that is no finite number, an
    [IndexSizeError] for an offset below 0 or above 1, and a [SyntaxError]
    for a string that does not parse as a CSS colour; otherwise the stop
    is added. *)
Definition addColorStop (offset : float) (color : string) : outcome unit :=
  if is_nan offset || is_infinity offset then Throw TypeError
  else if (offset <? 0) || (1 <? offset) then Throw IndexSizeError
  else if parsesAsColor color then Ret tt
  else Throw SyntaxError.

(** The stop loop, lines 154-157: [for (let y = 0; y <= 1; y += 0.2)].
    The stops added to the gradient are collected in order; an exception
    of the lookup or of [addColorStop] ends the loop.  [None] means that
    the fuel ran out before the loop ended. *)
Fixpoint colorStops (fuel : nat) (p : gmap string jsval) (sp y : float)
    (cache : gmap string string) (stops : list (float * string))
  : option (outcome (list (float * string) * gmap string string)) :=
  match fuel with
  | O => None
  | S fuel' =>
      if y <=? 1 then
        match getGradientColor p y sp cache with
        | Ret (color, cache') =>
            match addColorStop y color with
            | Ret _ =>
                colorStops fuel' p sp (y + 0.2) cache' (stops ++ [(y, color)])
            | Throw e => Some (Throw e)
            end
        | Throw e => Some (Throw e)
        end
      else Some (Ret (stops, cache))
  end.

(** What a strip contributes: its position, the end points of its
    gradient line and its colour stops.  The wavy outline (lines 133-148)
    reads neither the cache nor the colours and is left out; the canvas
    ignores a point of a path that is not finite, so that it raises no
    exception. *)
Record strip : Type := {
  position : float;
  gradientFrom : float;
  gradientTo : float;
  gradientStops : list (float * string)
}.

(** The strip loop, lines 129-161: [for (let i = 0; i < params.strips; i++)].
    The fuel bounds the turns of this loop and of each stop loop in it.  An
    exception of the stop loop ends the strip loop, and with it the
    effect. *)
Fixpoint drawStrips (fuel : nat) (p : gmap string jsval) (stripHeight : float)
    (i : Z) (cache : gmap string string) (drawn : list strip)
  : option (outcome (list strip * gmap string string)) :=
  match fuel with
  | O => None
  | S fuel' =>
      let strips := ToNumber (prop p "strips") in
      if of_Z i <? strips then
        let sp := stripPosition (of_Z i) strips in
        let yOffset := of_Z i * stripHeight in
        match colorStops fuel p sp 0 cache [] with
        | None => None
        | Some (Throw e) => Some (Throw e)
        | Some (Ret (stops, cache')) =>
            drawStrips fuel' p stripHeight (i + 1) cache'
              (drawn ++ [ {| position := sp;
                             gradientFrom := yOffset;
                             gradientTo := yOffset + stripHeight;
                             gradientStops := stops |} ])
        end
      else Some (Ret (drawn, cache))
  end.

(** Lines 108-161, as far as the gradients go: the cache test, then the
    strips.  [canvasHeight] is [canvas.height], a non-negative integer;
    with it and a strip count of the slider the end points given to
    [createLinearGradient] are finite, which is all that method asks of
    them. *)
Definition renderStrips (fuel : nat) (p : gmap string jsval) (canvasHeight : float)
    (cache : gmap string string)
  : option (outcome (list strip * gmap string string)) :=
  let cache0 := clearGradientCache p cache in
  let stripHeight := canvasHeight / ToNumber (prop p "strips") in
  drawStrips fuel p stripHeight 0 cache0 [].

(** *** Noise (lines 163-179)

    [random k] is the result of the [k]-th call of [Math.random()];
    the loop threads the number of calls made so far. *)

Definition noiseSample (noiseScale : float) (u : float) : float :=
  (u - 0.5) * noiseScale * 3.

(** [data[i] = Math.max(0, Math.min(255, data[i] + noise))]; a store past
    the end of a typed array is ignored. *)
Definition perturb (data : list Z) (i : nat) (noise : float) : list Z :=
  <[i := ToUint8Clamp (Math_max 0 (Math_min 255 (read_element data i + noise)))]> data.

Fixpoint noiseLoop (fuel : nat) (noiseScale : float) (random : nat -> float)
    (i calls : nat) (data : list Z) : list Z * nat :=
  match fuel with
  | O => (data, calls)
  | S fuel' =>
      if (i <? length data)%nat then
        let noise := noiseSample noiseScale (random calls) in
        let data1 := perturb data i noise in
        let data2 := perturb data1 (i + 1) noise in
        let data3 := perturb data2 (i + 2) noise in
        noiseLoop fuel' noiseScale random (i + 16) (S calls) data3
      else (data, calls)
  end.

(** The pixel loop over [imageData.data]; the index grows at each turn, so
    [length data] turns are more than enough. *)
Definition addNoise (noiseScale : float) (random : nat -> float) (data : list Z)
  : list Z * nat :=
  noiseLoop (length data) noiseScale random 0 0 data.

(** The whole stage: the raster is what [getImageData] returned, the result
    is the raster after the blurred redraw. *)
Definition postProcess (p : gmap string jsval) (random : nat -> float)
    (raster : list Z) : list Z :=
  let noiseScale := ToNumber (prop p "noiseScale") in
  if 0 <? noiseScale then
    let imageData := fst (addNoise noiseScale random raster) in
    drawBlurred (noiseScale * 0.2) imageData
  else raster.

End Rendering.

End App.

(** ** Vocabulary of the statements *)

Import JS App.
Local Open Scope js_scope.

(** At most the callback scheduled last is still queued, and handles are
    not 0: this is what the cancel-and-reschedule of [handleParamChange]
    maintains. *)
Definition pending_ok (st : component) : Prop :=
  nextHandle st <> 0%nat
  /\ forall e, In e (frameQueue st) ->
       animationFrameRef st = Some (fst e) /\ fst e <> 0%nat.

(** The component as it is mounted: the initial parameters, no frame
    requested yet. *)
Definition initialComponent (startColor midColor endColor : string) : component :=
  {| params := initialParams startColor midColor endColor;
     animationFrameRef := None;
     frameQueue := [];
     nextHandle := 1 |}.

(** Whether a character occurs in a string. *)
Fixpoint has_char (c : ascii) (s : string) : bool :=
  match s with
  | EmptyString => false
  | String a s' => Ascii.eqb a c || has_char c s'
  end.

(** The characters a group of the pattern accepts. *)
Definition hex_chars : list ascii :=
  list_ascii_of_string "0123456789abcdefABCDEF".

(** The strings the pattern of [hexToRgb] is meant to accept, in the words
    of the specification: six hexadecimal digits after an optional [#]. *)
Definition matches_hex6 (s : string) : Prop :=
  exists c1 c2 c3 c4 c5 c6,
    (s = string_of_list_ascii [c1; c2; c3; c4; c5; c6]
     \/ s = String "#" (string_of_list_ascii [c1; c2; c3; c4; c5; c6]))
    /\ Forall (fun c => In c hex_chars) [c1; c2; c3; c4; c5; c6].

(** The lower-case digit of a value below sixteen. *)
Definition hex_char (d : Z) : ascii :=
  if (d <? 10)%Z then ascii_of_nat (Z.to_nat (d + 48))
  else ascii_of_nat (Z.to_nat (d + 87)).

(** The CSS colour [mapToColor] writes for a triple of channels. *)
Definition rgbString (c : rgb) : string :=
  "rgb(" +:+ Z_toString (r c) +:+ "," +:+ Z_toString (g c) +:+ ","
  +:+ Z_toString (b c) +:+ ")".

(** The string a gradient stop receives for three floored channels. *)
Definition rgbaTemplate (rv gv bv : float) : string :=
  "rgba(" +:+ Number_toString rv +:+ "," +:+ Number_toString gv +:+ ","
  +:+ Number_toString bv +:+ ", 0.5)".

(** The integer written by a string of decimal digits. *)
Fixpoint digits_value (s : string) (acc : Z) : option Z :=
  match s with
  | EmptyString => Some acc
  | String c s' =>
      let n := Z.of_nat (nat_of_ascii c) in
      if (48 <=? n) && (n <=? 57) then digits_value s' (10 * acc + (n - 48))
      else None
  end.

(** What is left of a string after a given beginning. *)
Fixpoint strip_prefix (pre s : string) : option string :=
  match pre, s with
  | EmptyString, _ => Some s
  | String a pre', String c s' =>
      if Ascii.eqb a c then strip_prefix pre' s' else None
  | String _ _, EmptyString => None
  end.

(** The decimal texts of the integers from 0 to 255. *)
Definition byteTexts : list string :=
  map (fun n => Z_toString (Z.of_nat n)) (seq 0 256).

(** The strings [rgba(r,g,b, 0.5)] with three integers from 0 to 255. *)
Definition byteRgba (s : string) : bool :=
  match strip_prefix "rgba(" s with
  | Some s1 =>
      existsb (fun rt =>
        match strip_prefix (rt +:+ ",") s1 with
        | Some s2 =>
            existsb (fun gt =>
              match strip_prefix (gt +:+ ",") s2 with
              | Some s3 => existsb (fun bt => String.eqb s3 (bt +:+ ", 0.5)")) byteTexts
              | None => false
              end) byteTexts
        | None => false
        end) byteTexts
  | None => false
  end.

(** A host for running examples: [StringToNumber] reads the strings of
    decimal digits that denote integers below 2^53 (anything else is NaN
    here), the blurred redraw leaves the raster as it is, and the only
    colours of the canvas are the strings [rgba(r,g,b, 0.5)] with three
    integers from 0 to 255. *)
Definition integerHost : Host.
Proof.
  refine {| StringToNumber := fun s =>
              match s with
              | EmptyString => nan
              | _ => match digits_value s 0 with
                     | Some z => of_Z z
                     | None => nan
                     end
              end;
            drawBlurred := fun _ raster => raster;
            parsesAsColor := byteRgba;
            parsesAsColor_rgba := _;
            parsesAsColor_NaN := eq_refl |}.
  assert (Hpre : forall pre rest, strip_prefix pre (pre +:+ rest) = Some rest).
  { induction pre as [|a pre IH]; intros rest; [now destruct rest|].
    simpl. now rewrite Ascii.eqb_refl. }
  assert (Hin : forall z, 0 <= z <= 255 -> In (Z_toString z) byteTexts).
  { intros z Hz. apply in_map_iff. exists (Z.to_nat z).
    split; [now rewrite Z2Nat.id by lia|]. apply in_seq. lia. }
  assert (Hassoc : forall a b c : string, (a +:+ b) +:+ c = a +:+ (b +:+ c)).
  { induction a as [|x a IH]; intros b c; [reflexivity|].
    change (String x ((a +:+ b) +:+ c) = String x (a +:+ (b +:+ c))).
    now rewrite IH. }
  intros rv gv bv Hr Hg Hb. unfold byteRgba.
  rewrite (Hpre "rgba(" _)%string.
  apply existsb_exists. exists (Z_toString rv). split; [now apply Hin|].
  rewrite <- (Hassoc (Z_toString rv) ","%string), Hpre.
  apply existsb_exists. exists (Z_toString gv). split; [now apply Hin|].
  rewrite <- (Hassoc (Z_toString gv) ","%string), Hpre.
  apply existsb_exists. exists (Z_toString bv). split; [now apply Hin|].
  apply String.eqb_refl.
Defined.

Section Vocabulary.
Local Open Scope float_scope.
Context `{Host}.

(** The value stored for a channel that held [z]. *)
Definition perturbed (z : Z) (noise : float) : Z :=
  ToUint8Clamp (Math_max 0 (Math_min 255 (of_Z z + noise))).

(** The initial parameters with the three colours gray. *)
Definition grayParams : gmap string jsval :=
  initialParams "#808080" "#808080" "#808080".

(** The parameters after the strips slider, whose minimum is 1, has been
    dragged to its lowest position. *)
Definition singleStripParams : gmap string jsval :=
  params (runFrame (handleParamChange "strips" "1"
                      (initialComponent "#808080" "#808080" "#808080"))).

(** What a miss computes for a query: the clamped, biased position. *)
Definition biasedPosition (p : gmap string jsval) (y sp : float) : float :=
  Math_max 0 (Math_min 1 (lerp y sp (ToNumber (prop p "verticalBias")))).

(** The colour of a query under the parameters [p], computed afresh. *)
Definition freshColor (p : gmap string jsval) (y sp : float) : outcome string :=
  let* color := mapToColor (biasedPosition p y sp) (ToString (prop p "startColor"))
                  (ToString (prop p "midColor")) (ToString (prop p "endColor")) in
  Ret (String_replace (String_replace color "rgb" "rgba") ")" ", 0.5)").

(** Entries of the cache that were computed under the parameters [p]. *)
Definition computed_under (p : gmap string jsval) (cache : gmap string string) : Prop :=
  forall key v, cachedColor cache key = Some v ->
    exists y sp, key = cacheKey p y sp /\ freshColor p y sp = Ret v.

(** A gradient stop whose colour was computed under [p] for its key. *)
Definition stop_computed_under (p : gmap string jsval) (sp : float)
    (stop : float * string) : Prop :=
  exists y' sp', cacheKey p y' sp' = cacheKey p (fst stop) sp
                 /\ freshColor p y' sp' = Ret (snd stop).

(** A strip all of whose stops are such. *)
Definition strip_computed_under (p : gmap string jsval) (s : strip) : Prop :=
  Forall (stop_computed_under p (position s)) (gradientStops s).

(** Sampling the cache at given positions, in order, and adding each
    sample to the gradient as a stop. *)
Fixpoint sampleAt (p : gmap string jsval) (sp : float) (ys : list float)
    (cache : gmap string string)
  : outcome (list (float * string) * gmap string string) :=
  match ys with
  | [] => Ret ([], cache)
  | y :: ys' =>
      let* (color, cache1) := getGradientColor p y sp cache in
      let* _ := addColorStop y color in
      let* (stops, cache2) := sampleAt p sp ys' cache1 in
      Ret ((y, color) :: stops, cache2)
  end.

(** The positions the loop visits: adding 0.2 to 0.4 gives the double next
    above 0.6, printed 0.6000000000000001; the sixth position is exactly 1. *)
Definition stopPositions : list float :=
  [0; 0.2; 0.4; 0.6000000000000001; 0.8; 1].

(** The offsets of the stops a run of the loop added. *)
Definition stopOffsets
    (run : option (outcome (list (float * string) * gmap string string)))
  : option (list float) :=
  match run with
  | Some (Ret (stops, _)) => Some (map fst stops)
  | _ => None
  end.

End Vocabulary.

(** ** The control panel (lines 188-340) *)

(** The kind of an input, with the attributes the markup gives it. *)
Inductive inputType : Type :=
| Range (min max : string) (step : option string)
| Color
| Text.

(** The inputs in document order, each with its [name]; every one of them
    has [handleParamChange] as its [onChange]. *)
Definition controls : list (string * inputType) :=
  [ ("strips"%string, Range "1" "50" None);
    ("noiseScale"%string, Range "0" "20" (Some "0.1"%string));
    ("verticalBias"%string, Range "0" "1" (Some "0.1"%string));
    ("startColor"%string, Color);
    ("midColor"%string, Color);
    ("endColor"%string, Color);
    ("text"%string, Text);
    ("fontSize"%string, Range "12" "200" None);
    ("textColor"%string, Color);
    ("waveAmplitude"%string, Range "0" "100" None);
    ("waveFrequency"%string, Range "0.1" "10" (Some "0.1"%string));
    ("waveOffset"%string, Range "0" "2" (Some "0.1"%string)) ].

(** ** Vocabulary of the further properties *)

(** What can happen to the component: a control fires [onChange] with
    [(name, value)], the browser runs a display frame, or the effect is
    cleaned up. *)
Inductive action : Type :=
| Change (name value : string)
| Frame
| Cleanup.

Definition step (st : component) (a : action) : component :=
  match a with
  | Change name value => handleParamChange name value st
  | Frame => runFrame st
  | Cleanup => effectCleanup st
  end.

Definition run (acts : list action) (st : component) : component :=
  fold_left step acts st.

(** A change event that one of the controls can fire: the name is the name
    of a control, and a colour picker hands over a value [hexToRgb]
    accepts (the browser keeps the value of a colour input a [#] and six
    hexadecimal digits). *)
Definition fired_by_control (a : action) : Prop :=
  match a with
  | Change name value =>
      exists kind, In (name, kind) controls
                   /\ (kind = Color -> is_Some (hexToRgb value))
  | _ => True
  end.

(** The three colour fields hold strings that [hexToRgb] accepts. *)
Definition colors_parse (p : gmap string jsval) : Prop :=
  forall name, In name ["startColor"; "midColor"; "endColor"]%string ->
    exists v, p !! name = Some (VStr v) /\ is_Some (hexToRgb v).

(** What the events keep true of a component: its queue holds only what a
    control fired, its fields are those of the controls, and its colours
    parse. *)
Definition panel_invariant (st : component) : Prop :=
  pending_ok st
  /\ (forall e, In e (frameQueue st) ->
        fired_by_control (Change (fst (snd e)) (snd (snd e))))
  /\ dom (params st) =@{gset string} list_to_set (map fst controls)
  /\ colors_parse (params st).

(** A short session: the strips slider is dragged to 3, a frame runs, the
    start colour is picked, a frame runs. *)
Definition sampleSession : list action :=
  [ Change "strips" "3"; Frame; Change "startColor" "#ff0000"; Frame ].

(** The component as [useState] creates it (lines 20-33): [random k] is
    the result of the [k]-th call of [Math.random()], three for each of
    the three colours, in the order of the fields. *)
Definition mountedComponent (random : nat -> float) : component :=
  initialComponent
    (generateRandomPastelColor (random 0%nat) (random 1%nat) (random 2%nat))
    (generateRandomPastelColor (random 3%nat) (random 4%nat) (random 5%nat))
    (generateRandomPastelColor (random 6%nat) (random 7%nat) (random 8%nat)).

(** [Math.random()] returns a Number [u] with [0 <= u < 1]. *)
Definition in_unit_interval (u : float) : Prop :=
  PrimFloat.leb 0 u = true /\ PrimFloat.ltb u 1 = true.

(** The record of [SpecFloat]'s rounding after [k] right shifts of [m]:
    the quotient, and a round bit that is only set when the remainder is
    at least one half. *)
Definition shifted (m k : Z) (mrs : shr_record) : Prop :=
  shr_m mrs = (m / 2 ^ k)%Z
  /\ (shr_r mrs = true -> (2 ^ k <= 2 * (m mod 2 ^ k))%Z).

(** The queries of one strip, and of [k] strips from strip [i] on, in the
    order in which a render with [n] strips makes them (lines 129-130 and
    154-155): each is an offset and a strip position. *)
Definition stripQueries (n i : Z) : list (float * float) :=
  map (fun y => (y, stripPosition (of_Z i) (of_Z n))) stopPositions.

Fixpoint queriesFrom (n i : Z) (k : nat) : list (float * float) :=
  match k with
  | O => []
  | S k' => stripQueries n i ++ queriesFrom n (i + 1) k'
  end.

Definition renderQueries (n : Z) : list (float * float) :=
  queriesFrom n 0 (Z.to_nat n).

(** The cache key of a query. *)
Definition queryKey (p : gmap string jsval) (q : float * float) : string :=
  cacheKey p (fst q) (snd q).

(** Whether the strings of a list are pairwise different. *)
Fixpoint distinct (l : list string) : bool :=
  match l with
  | [] => true
  | x :: l' => negb (existsb (String.eqb x) l') && distinct l'
  end.

(** Bounds on a float in units of [2^-g].  A float whose magnitude is at
    most [N / 2^g]; the zeros are such. *)
Definition mag_le (g : Z) (x : spec_float) (N : Z) : Prop :=
  match x with
  | S754_zero _ => True
  | S754_finite _ m e => e <= - g /\ Zpos m <= N * 2 ^ (- g - e)
  | _ => False
  end.

(** A zero, or a positive float of at most [N / 2^g]. *)
Definition nonneg_le (g : Z) (x : spec_float) (N : Z) : Prop :=
  match x with
  | S754_zero _ => True
  | S754_finite false m e => e <= - g /\ Zpos m <= N * 2 ^ (- g - e)
  | _ => False
  end.

(** A positive float between [N1 / 2^g] and [N2 / 2^g]. *)
Definition pos_between (g : Z) (x : spec_float) (N1 N2 : Z) : Prop :=
  match x with
  | S754_finite false m e =>
      e <= - g /\ N1 * 2 ^ (- g - e) <= Zpos m <= N2 * 2 ^ (- g - e)
  | _ => False
  end.

(** The colour a gradient stop receives for three byte channels. *)
Definition rgbaString (c : rgb) : string :=
  "rgba(" +:+ Z_toString (r c) +:+ "," +:+ Z_toString (g c) +:+ ","
  +:+ Z_toString (b c) +:+ ", 0.5)".

(** The integer part of a finite Number [(-1)^s * m * 2^e]: the largest
    integer that is not above it. *)
Definition floor_of (x : float) : option Z :=
  match Prim2SF x with
  | S754_zero _ => Some 0
  | S754_finite s m e =>
      Some (if 0 <=? e then cond_Zopp s (Zpos m) * 2 ^ e
            else cond_Zopp s (Zpos m) / 2 ^ (- e))
  | _ => None
  end.

(** Names of the properties of [Object.prototype], which a lookup in a
    plain object falls back to. *)
Definition objectPrototypeNames : list string :=
  [ "constructor"; "__defineGetter__"; "__defineSetter__"; "hasOwnProperty";
    "__lookupGetter__"; "__lookupSetter__"; "isPrototypeOf";
    "propertyIsEnumerable"; "toString"; "valueOf"; "__proto__";
    "toLocaleString" ]%string.

(** ** Properties *)

(** *** Parameter replacement *)

Lemma pending_ok_initial sc mc ec : pending_ok (initialComponent sc mc ec).
Proof. split; [discriminate|]. intros e []. Qed.

Lemma cancelPending_all st :
  pending_ok st -> cancelPending (animationFrameRef st) (frameQueue st) = [].
Proof.
  intros [_ Hok]. unfold cancelPending.
  destruct (frameQueue st) as [|e0 q0] eqn:Hq.
  { destruct (animationFrameRef st) as [h|]; [|reflexivity].
    destruct (Nat.eqb h 0); reflexivity. }
  destruct (Hok e0 (or_introl eq_refl)) as [Href Hne].
  rewrite Href. rewrite (proj2 (Nat.eqb_neq _ _) Hne).
  unfold cancelAnimationFrame. rewrite <- Hq in *. clear Hq.
  assert (Hall : forall e, In e (frameQueue st) -> fst e = fst e0).
  { intros e He. destruct (Hok e He) as [He' _]. congruence. }
  induction (frameQueue st) as [|e q IH]; [reflexivity|].
  simpl. rewrite (Hall e (or_introl eq_refl)), Nat.eqb_refl. simpl.
  apply IH; intros e' He'.
  - apply Hok. now right.
  - apply Hall. now right.
Qed.

Lemma handleParamChange_queue st name value :
  pending_ok st ->
  frameQueue (handleParamChange name value st) = [(nextHandle st, (name, value))].
Proof.
  intros Hok. unfold handleParamChange. simpl.
  now rewrite (cancelPending_all st Hok).
Qed.

Lemma pending_ok_handleParamChange st name value :
  pending_ok st -> pending_ok (handleParamChange name value st).
Proof.
  intros Hok. split.
  - simpl. discriminate.
  - intros e He. rewrite (handleParamChange_queue _ _ _ Hok) in He.
    destruct He as [<-|[]]. split.
    + reflexivity.
    + exact (proj1 Hok).
Qed.

Lemma pending_ok_runFrame st : pending_ok st -> pending_ok (runFrame st).
Proof. intros [Hn _]. split; [exact Hn|]. intros e []. Qed.

Lemma pending_ok_effectCleanup st : pending_ok st -> pending_ok (effectCleanup st).
Proof.
  intros Hok. split; [exact (proj1 Hok)|].
  intros e. unfold effectCleanup. simpl.
  now rewrite (cancelPending_all st Hok).
Qed.

Lemma params_after_frame st name value :
  pending_ok st ->
  params (runFrame (handleParamChange name value st))
  = setParam name value (params st).
Proof.
  intros Hok.
  change (params (runFrame (handleParamChange name value st)))
    with (fold_left (fun p e => setParam (fst (snd e)) (snd (snd e)) p)
            (frameQueue (handleParamChange name value st))
            (params st)).
  now rewrite (handleParamChange_queue _ _ _ Hok).
Qed.

(** C9: a control event [(name, value)], once its animation frame has run,
    leaves a parameter object that holds [value] in the field [name] and
    agrees with the previous object on every other field. *)
Theorem param_change_touches_named_field_only st name value :
  pending_ok st ->
  params (runFrame (handleParamChange name value st)) !! name = Some (VStr value)
  /\ forall k, k <> name ->
       params (runFrame (handleParamChange name value st)) !! k = params st !! k.
Proof.
  intros Hok. rewrite (params_after_frame _ _ _ Hok). unfold setParam. split.
  - apply lookup_insert_eq.
  - intros k Hk. now apply lookup_insert_ne.
Qed.

Lemma param_change_touches_named_field_only_witness :
  pending_ok (initialComponent "#808080" "#808080" "#808080")
  /\ (params (runFrame (handleParamChange "strips" "1"
                 (initialComponent "#808080" "#808080" "#808080"))) !! "strips"%string
      = Some (VStr "1")
      /\ forall k, k <> "strips"%string ->
           params (runFrame (handleParamChange "strips" "1"
                 (initialComponent "#808080" "#808080" "#808080"))) !! k
           = params (initialComponent "#808080" "#808080" "#808080") !! k).
Proof.
  split.
  - apply pending_ok_initial.
  - apply (param_change_touches_named_field_only
             (initialComponent "#808080" "#808080" "#808080") "strips" "1").
    apply pending_ok_initial.
Defined.

(** Rapid changes are coalesced: of two events in the same frame only the
    second reaches the parameters. *)
Lemma param_change_coalesced st n1 v1 n2 v2 :
  pending_ok st ->
  params (runFrame (handleParamChange n2 v2 (handleParamChange n1 v1 st)))
  = setParam n2 v2 (params st).
Proof.
  intros Hok.
  now rewrite (params_after_frame _ _ _ (pending_ok_handleParamChange _ n1 v1 Hok)).
Qed.

(** *** Characters and strings *)

Ltac ascii_cases c :=
  let b0 := fresh "b" in let b1 := fresh "b" in let b2 := fresh "b" in
  let b3 := fresh "b" in let b4 := fresh "b" in let b5 := fresh "b" in
  let b6 := fresh "b" in let b7 := fresh "b" in
  destruct c as [b0 b1 b2 b3 b4 b5 b6 b7];
  destruct b0, b1, b2, b3, b4, b5, b6, b7.

(** Case analysis on an integer of a bounded range. *)
Lemma below_256_cases (P : Z -> Prop) :
  (forall n : nat, (n < 256)%nat -> P (Z.of_nat n)) ->
  forall a, (0 <= a < 256)%Z -> P a.
Proof.
  intros HP a Ha. rewrite <- (Z2Nat.id a) by lia. apply HP. lia.
Qed.

Tactic Notation "bounded_cases" integer(k) ident(n) ident(Hn) tactic3(tac) :=
  do k (destruct n as [|n]; [tac | ]);
  exfalso; clear - Hn; lia.

Lemma has_char_append c s1 s2 :
  has_char c (s1 +:+ s2) = has_char c s1 || has_char c s2.
Proof.
  induction s1 as [|a s1 IH]; simpl; [reflexivity|].
  now rewrite IH, orb_assoc.
Qed.

Lemma has_char_substring c s : has_char c s = false ->
  forall n m, has_char c (substring n m s) = false.
Proof.
  induction s as [|a s IH]; intros Hs n m.
  - destruct n, m; reflexivity.
  - simpl in Hs. apply orb_false_elim in Hs as [Ha Hs].
    destruct n as [|n]; destruct m as [|m]; simpl;
      try reflexivity; try (now apply IH).
    now rewrite Ha, (IH Hs 0%nat m).
Qed.

Lemma has_char_zeros c n : Ascii.eqb "0" c = false -> has_char c (zeros n) = false.
Proof.
  intros Hc. induction n as [|n IH]; [reflexivity|].
  change (zeros (S n)) with (String "0" (zeros n)).
  cbn [has_char]. now rewrite Hc, IH.
Qed.

(** The first occurrence of a one-character pattern. *)
Lemma String_replace_first_char c s1 s2 rep :
  has_char c s1 = false ->
  String_replace (s1 +:+ String c s2) (String c EmptyString) rep = s1 +:+ rep +:+ s2.
Proof.
  induction s1 as [|a s1 IH]; intros Hs.
  - destruct s2; simpl;
      (destruct (ascii_dec c c) as [_|Hne]; [reflexivity|now destruct Hne]).
  - simpl in Hs. apply orb_false_elim in Hs as [Ha Hs].
    simpl. destruct (ascii_dec c a) as [->|Hne].
    + now rewrite Ascii.eqb_refl in Ha.
    + now rewrite (IH Hs).
Qed.

Lemma toLowerCase_hash rest :
  toLowerCase (String "#" rest) = String "#" (toLowerCase rest).
Proof. reflexivity. Qed.

(** *** Hexadecimal colours *)

Lemma hex_digit_some c d :
  hex_digit c = Some d ->
  (0 <= d < 16)%Z /\ lower_ascii c = hex_char d /\ In c hex_chars.
Proof.
  ascii_cases c; intros Hd; vm_compute in Hd; try discriminate Hd;
    injection Hd as <-; (split; [lia|]); (split; [reflexivity|]);
    vm_compute; tauto.
Qed.

Lemma hex_digit_none c : hex_digit c = None -> ~ In c hex_chars.
Proof.
  ascii_cases c; intros Hd; vm_compute in Hd; try discriminate Hd;
    intros Hin; vm_compute in Hin;
    repeat (destruct Hin as [Hin|Hin]; [discriminate Hin|]); exact Hin.
Qed.

Lemma hex_digit_in c : In c hex_chars -> exists d, hex_digit c = Some d.
Proof.
  intros Hin. destruct (hex_digit c) as [d|] eqn:Hd; [now exists d|].
  now destruct (hex_digit_none c Hd).
Qed.

Lemma hex_pair_some c1 c2 n :
  hex_pair c1 c2 = Some n ->
  exists d1 d2, hex_digit c1 = Some d1 /\ hex_digit c2 = Some d2
                /\ n = (16 * d1 + d2)%Z.
Proof.
  unfold hex_pair. destruct (hex_digit c1) as [d1|]; [|discriminate].
  destruct (hex_digit c2) as [d2|]; [|discriminate].
  intros [= <-]. now exists d1, d2.
Qed.

Lemma hex_pair_range c1 c2 n : hex_pair c1 c2 = Some n -> (0 <= n < 256)%Z.
Proof.
  intros (d1 & d2 & H1 & H2 & ->)%hex_pair_some.
  apply hex_digit_some in H1 as [? _]. apply hex_digit_some in H2 as [? _]. lia.
Qed.

Lemma toHex_digits d1 d2 :
  (0 <= d1 < 16)%Z -> (0 <= d2 < 16)%Z ->
  toHex (16 * d1 + d2) = String (hex_char d1) (String (hex_char d2) EmptyString).
Proof.
  intros H1 H2.
  assert (Hc : forall n1 n2 : nat, (n1 < 16)%nat -> (n2 < 16)%nat ->
             toHex (16 * Z.of_nat n1 + Z.of_nat n2)
             = String (hex_char (Z.of_nat n1)) (String (hex_char (Z.of_nat n2)) EmptyString)).
  { intros n1 n2 Hn1 Hn2.
    bounded_cases 16 n1 Hn1 (bounded_cases 16 n2 Hn2 (vm_compute; reflexivity)). }
  rewrite <- (Z2Nat.id d1), <- (Z2Nat.id d2) by lia. apply Hc; lia.
Qed.

Lemma toHex_hex_pair c1 c2 n :
  hex_pair c1 c2 = Some n ->
  toHex n = String (lower_ascii c1) (String (lower_ascii c2) EmptyString).
Proof.
  intros (d1 & d2 & H1 & H2 & ->)%hex_pair_some.
  apply hex_digit_some in H1 as (? & -> & _).
  apply hex_digit_some in H2 as (? & -> & _).
  now apply toHex_digits.
Qed.

(** What a successful match looks like. *)
Lemma hexToRgb_some hex c :
  hexToRgb hex = Some c ->
  exists c1 c2 c3 c4 c5 c6,
    strip_hash hex = string_of_list_ascii [c1; c2; c3; c4; c5; c6]
    /\ hex_pair c1 c2 = Some (r c) /\ hex_pair c3 c4 = Some (g c)
    /\ hex_pair c5 c6 = Some (b c).
Proof.
  unfold hexToRgb.
  destruct (strip_hash hex) as [|c1 [|c2 [|c3 [|c4 [|c5 [|c6 [|? ?]]]]]]];
    try discriminate.
  destruct (hex_pair c1 c2) as [rv|] eqn:H1; [|discriminate].
  destruct (hex_pair c3 c4) as [gv|] eqn:H2; [|discriminate].
  destruct (hex_pair c5 c6) as [bv|] eqn:H3; [|discriminate].
  intros [= <-]. now exists c1, c2, c3, c4, c5, c6.
Qed.

Lemma hexToRgb_range hex c :
  hexToRgb hex = Some c ->
  (0 <= r c < 256)%Z /\ (0 <= g c < 256)%Z /\ (0 <= b c < 256)%Z.
Proof.
  intros (c1 & c2 & c3 & c4 & c5 & c6 & _ & H1 & H2 & H3)%hexToRgb_some.
  apply hex_pair_range in H1, H2, H3. now repeat split.
Qed.

Lemma strip_hash_cases hex :
  (hex = String "#" (strip_hash hex)) \/
  (strip_hash hex = hex /\ forall rest, hex <> String "#" rest).
Proof.
  destruct hex as [|a rest].
  - right. split; [reflexivity|discriminate].
  - ascii_cases a; try (right; split; [reflexivity|discriminate]).
    left. reflexivity.
Qed.

Lemma hex_digit_not_hash : hex_digit "#" = None.
Proof. reflexivity. Qed.

(** The pattern accepts exactly the strings of the specification. *)
Lemma hexToRgb_matches hex : is_Some (hexToRgb hex) <-> matches_hex6 hex.
Proof.
  split.
  - intros [c Hc]. pose proof Hc as Hc'.
    apply hexToRgb_some in Hc' as (c1 & c2 & c3 & c4 & c5 & c6 & Hs & H1 & H2 & H3).
    apply hex_pair_some in H1 as (? & ? & H11 & H12 & _).
    apply hex_pair_some in H2 as (? & ? & H21 & H22 & _).
    apply hex_pair_some in H3 as (? & ? & H31 & H32 & _).
    exists c1, c2, c3, c4, c5, c6. split.
    + destruct (strip_hash_cases hex) as [Hh|[Hh _]].
      * right. rewrite Hh at 1. now rewrite Hs.
      * left. now rewrite <- Hh.
    + repeat (constructor;
                [match goal with
                 | Hd : hex_digit ?c = Some _ |- In ?c hex_chars =>
                     exact (proj2 (proj2 (hex_digit_some _ _ Hd)))
                 end|]).
      constructor.
  - intros (c1 & c2 & c3 & c4 & c5 & c6 & Hs & Hall).
    repeat match goal with
           | H : Forall _ (_ :: _) |- _ => apply Forall_cons in H as [? H]
           end.
    repeat match goal with
           | H : In _ hex_chars |- _ => apply hex_digit_in in H as [? H]
           end.
    assert (Hbody : strip_hash hex = string_of_list_ascii [c1; c2; c3; c4; c5; c6]).
    { destruct Hs as [->| ->]; [|reflexivity].
      destruct (strip_hash_cases (string_of_list_ascii [c1; c2; c3; c4; c5; c6]))
        as [Hh|[Hh _]]; [|exact Hh].
      simpl in Hh. injection Hh as -> _.
      rewrite hex_digit_not_hash in *. discriminate. }
    unfold hexToRgb. rewrite Hbody. simpl. unfold hex_pair.
    repeat match goal with
           | H : hex_digit _ = Some _ |- _ => rewrite H; clear H
           end.
    eexists. reflexivity.
Qed.

(** C5 (as amended): for a string [h] that [hexToRgb] accepts, writing the
    parsed channels back with [toHex] gives a [#] followed by the six
    digits of [h] in lower case.  This is [h] up to letter case when [h]
    carries the leading [#], and [h] with a [#] put in front, up to letter
    case, when it does not. *)
Theorem hex_roundtrip h c :
  hexToRgb h = Some c ->
  rgbToHex (r c) (g c) (b c) = String "#" (toLowerCase (strip_hash h))
  /\ ((exists rest, h = String "#" rest) ->
      rgbToHex (r c) (g c) (b c) = toLowerCase h)
  /\ ((forall rest, h <> String "#" rest) ->
      rgbToHex (r c) (g c) (b c) = String "#" (toLowerCase h)).
Proof.
  intros Hc.
  assert (Hmain : rgbToHex (r c) (g c) (b c) = String "#" (toLowerCase (strip_hash h))).
  { apply hexToRgb_some in Hc as (c1 & c2 & c3 & c4 & c5 & c6 & -> & H1 & H2 & H3).
    unfold rgbToHex.
    rewrite (toHex_hex_pair _ _ _ H1), (toHex_hex_pair _ _ _ H2),
      (toHex_hex_pair _ _ _ H3).
    reflexivity. }
  split; [exact Hmain|]. split.
  - intros [rest ->]. rewrite Hmain. reflexivity.
  - intros Hno. rewrite Hmain.
    destruct (strip_hash_cases h) as [Hh|[-> _]]; [|reflexivity].
    now destruct (Hno _ Hh).
Qed.

Lemma hex_roundtrip_witness :
  hexToRgb "#A1b2C3" = Some {| r := 161; g := 178; b := 195 |}
  /\ rgbToHex 161 178 195 = toLowerCase "#A1b2C3".
Proof.
  split.
  - reflexivity.
  - apply (hex_roundtrip "#A1b2C3" {| r := 161; g := 178; b := 195 |});
      [reflexivity | exists "A1b2C3"%string; reflexivity].
Defined.

(** A six-digit string without the [#] is accepted, and does not come back
    from the round trip, even up to letter case. *)
Lemma hex_roundtrip_fails_without_hash :
  exists c, hexToRgb "a1b2c3" = Some c
            /\ toLowerCase (rgbToHex (r c) (g c) (b c)) <> toLowerCase "a1b2c3".
Proof.
  exists {| r := 161; g := 178; b := 195 |}. split; [reflexivity|].
  vm_compute. discriminate.
Qed.

(** Whatever is used to write the channels back, it cannot restore both
    spellings, since they parse to the same triple. *)
Lemma hex_roundtrip_impossible (back : rgb -> string) :
  ~ (forall h c, hexToRgb h = Some c -> toLowerCase (back c) = toLowerCase h).
Proof.
  intros Hall.
  pose proof (Hall "a1b2c3"%string _ eq_refl) as H1.
  pose proof (Hall "#a1b2c3"%string _ eq_refl) as H2.
  rewrite H1 in H2. vm_compute in H2. discriminate H2.
Qed.

(** *** Malformed colours *)

Lemma hexToRgb_malformed s : ~ matches_hex6 s -> hexToRgb s = None.
Proof.
  intros Hno. destruct (hexToRgb s) as [c|] eqn:Hc; [|reflexivity].
  destruct Hno. apply hexToRgb_matches. now exists c.
Qed.

(** C7 (as amended): a string that is not six hexadecimal digits after an
    optional [#] makes [hexToRgb] return [null]; [mapToColor] has no guard
    for it and throws a TypeError as soon as the branch it takes reads a
    channel of that colour: the start colour for a value up to 0.5, the
    end colour otherwise, the middle colour always. *)
Theorem malformed_color_throws s :
  ~ matches_hex6 s ->
  hexToRgb s = None
  /\ (forall v m e, PrimFloat.leb v 0.5 = true -> mapToColor v s m e = Throw TypeError)
  /\ (forall v st e, mapToColor v st s e = Throw TypeError)
  /\ (forall v st m, PrimFloat.leb v 0.5 = false -> mapToColor v st m s = Throw TypeError).
Proof.
  intros Hno. pose proof (hexToRgb_malformed s Hno) as Hs.
  split; [exact Hs|]. repeat split.
  - intros v m e Hv. unfold mapToColor. rewrite Hs, Hv. reflexivity.
  - intros v st e. unfold mapToColor. rewrite Hs.
    destruct (PrimFloat.leb v 0.5); unfold interpolate, channel;
      [destruct (hexToRgb st)|]; reflexivity.
  - intros v st m Hv. unfold mapToColor. rewrite Hs, Hv.
    unfold interpolate, channel. destruct (hexToRgb m); reflexivity.
Qed.

Lemma red_is_malformed : ~ matches_hex6 "red".
Proof. intros [c Hc]%hexToRgb_matches. discriminate Hc. Qed.

Lemma malformed_color_throws_witness :
  ~ matches_hex6 "red"
  /\ hexToRgb "red" = None
  /\ mapToColor 0 "red" "#000000" "#000000" = Throw TypeError.
Proof.
  split; [exact red_is_malformed|].
  destruct (malformed_color_throws "red" red_is_malformed) as (H1 & H2 & _).
  split; [exact H1|]. apply H2. reflexivity.
Defined.

(** The mapping function does not turn a malformed colour into a result:
    it throws. *)
Lemma malformed_color_is_not_a_defined_failure :
  ~ (forall s v m e, ~ matches_hex6 s -> exists res, mapToColor v s m e = Ret res).
Proof.
  intros Hall.
  destruct (Hall "red"%string 0%float "#000000"%string "#000000"%string
              red_is_malformed) as [res Hres].
  vm_compute in Hres. discriminate Hres.
Qed.

(** A malformed colour the branch does not read goes unnoticed. *)
Lemma malformed_start_ignored_above_half :
  mapToColor 0.75 "red" "#00ff7f" "#0000ff" = Ret "rgb(0,127,191)"%string.
Proof. vm_compute. reflexivity. Qed.

(** *** The gradient mapper at its three anchors *)

Local Open Scope float_scope.

(** Channel values are integers below 256; on them the arithmetic of
    [lerp] at [t = 0] and [t = 1] is exact, and so is the printing of the
    floored result. *)
Lemma channel_arithmetic a :
  (0 <= a < 256)%Z ->
  of_Z a * 1 = of_Z a /\ of_Z a * 0 = 0 /\ of_Z a + 0 = of_Z a
  /\ 0 + of_Z a = of_Z a
  /\ Number_toString (Math_floor (of_Z a)) = Z_toString a.
Proof.
  revert a. apply below_256_cases. intros n Hn.
  bounded_cases 256 n Hn (vm_compute; repeat split; reflexivity).
Qed.

Lemma lerp_at_zero a c :
  (0 <= a < 256)%Z -> (0 <= c < 256)%Z -> lerp (of_Z a) (of_Z c) 0 = of_Z a.
Proof.
  intros Ha Hc. unfold lerp. change (1 - 0) with 1.
  destruct (channel_arithmetic c Hc) as (_ & -> & _).
  destruct (channel_arithmetic a Ha) as (-> & _ & -> & _). reflexivity.
Qed.

Lemma lerp_at_one a c :
  (0 <= a < 256)%Z -> (0 <= c < 256)%Z -> lerp (of_Z a) (of_Z c) 1 = of_Z c.
Proof.
  intros Ha Hc. unfold lerp. change (1 - 1) with 0.
  destruct (channel_arithmetic a Ha) as (_ & -> & _).
  destruct (channel_arithmetic c Hc) as (-> & _ & _ & -> & _). reflexivity.
Qed.

Lemma rgbTemplate_channels c :
  (0 <= r c < 256)%Z -> (0 <= g c < 256)%Z -> (0 <= b c < 256)%Z ->
  rgbTemplate (Math_floor (of_Z (r c))) (Math_floor (of_Z (g c)))
    (Math_floor (of_Z (b c))) = rgbString c.
Proof.
  intros Hr Hg Hb. unfold rgbTemplate, rgbString.
  destruct (channel_arithmetic _ Hr) as (_ & _ & _ & _ & ->).
  destruct (channel_arithmetic _ Hg) as (_ & _ & _ & _ & ->).
  destruct (channel_arithmetic _ Hb) as (_ & _ & _ & _ & ->).
  reflexivity.
Qed.

(** What each branch computes when the three colours parse: every channel
    is the floor of the interpolation. *)
Lemma mapToColor_branches v startColor midColor endColor s m e :
  hexToRgb startColor = Some s ->
  hexToRgb midColor = Some m ->
  hexToRgb endColor = Some e ->
  mapToColor v startColor midColor endColor
  = Ret (if PrimFloat.leb v 0.5
         then rgbTemplate (Math_floor (lerp (of_Z (r s)) (of_Z (r m)) (v * 2)))
                          (Math_floor (lerp (of_Z (g s)) (of_Z (g m)) (v * 2)))
                          (Math_floor (lerp (of_Z (b s)) (of_Z (b m)) (v * 2)))
         else rgbTemplate (Math_floor (lerp (of_Z (r m)) (of_Z (r e)) ((v - 0.5) * 2)))
                          (Math_floor (lerp (of_Z (g m)) (of_Z (g e)) ((v - 0.5) * 2)))
                          (Math_floor (lerp (of_Z (b m)) (of_Z (b e)) ((v - 0.5) * 2)))).
Proof.
  intros Hs Hm He. unfold mapToColor. rewrite Hs, Hm, He.
  destruct (PrimFloat.leb v 0.5); reflexivity.
Qed.

(** *** Printed numbers hold no closing parenthesis *)

Lemma uint_no_paren d :
  has_char ")" (DecimalString.NilEmpty.string_of_uint d) = false.
Proof. induction d; simpl; auto. Qed.

Lemma Z_toString_no_paren z : has_char ")" (Z_toString z) = false.
Proof.
  destruct z as [|q|q]; [reflexivity| |]; unfold Z_toString, digits_of_pos.
  - apply uint_no_paren.
  - rewrite has_char_append, uint_no_paren. reflexivity.
Qed.

Lemma format_decimal_no_paren ds n :
  has_char ")" ds = false -> has_char ")" (format_decimal ds n) = false.
Proof.
  intros Hds. unfold format_decimal.
  repeat match goal with
         | |- context [if ?c then _ else _] => destruct c
         end;
    rewrite ?has_char_append, ?Z_toString_no_paren, ?Hds,
      ?(has_char_substring _ _ Hds), ?has_char_zeros by reflexivity;
    reflexivity.
Qed.

Lemma Number_toString_no_paren x : has_char ")" (Number_toString x) = false.
Proof.
  unfold Number_toString.
  destruct (Prim2SF x) as [s| s| |s m e]; try (destruct s; reflexivity);
    try reflexivity.
  unfold decimal_of_double.
  destruct (shortest_digits _ _ _ _ _ _ _) as [sd t].
  rewrite has_char_append, format_decimal_no_paren by apply Z_toString_no_paren.
  destruct s; reflexivity.
Qed.

(** *** The gradient cache *)

Lemma append_assoc (s1 s2 s3 : string) : (s1 +:+ s2) +:+ s3 = s1 +:+ (s2 +:+ s3).
Proof.
  induction s1 as [|a s1 IH]; [reflexivity|].
  change (String a ((s1 +:+ s2) +:+ s3) = String a (s1 +:+ (s2 +:+ s3))).
  now f_equal.
Qed.

Lemma append_empty_r (s : string) : s +:+ "" = s.
Proof.
  induction s as [|a s IH]; [reflexivity|].
  change (String a (s +:+ "") = String a s). now f_equal.
Qed.

Lemma replace_rgb_prefix rest :
  String_replace ("rgb(" +:+ rest) "rgb" "rgba" = "rgba(" +:+ rest.
Proof. reflexivity. Qed.

Lemma rgba_of_rgbTemplate rv gv bv :
  String_replace (String_replace (rgbTemplate rv gv bv) "rgb" "rgba") ")" ", 0.5)"
  = rgbaTemplate rv gv bv.
Proof.
  unfold rgbTemplate, rgbaTemplate. rewrite replace_rgb_prefix.
  set (A := Number_toString rv). set (B := Number_toString gv).
  set (C := Number_toString bv).
  replace ("rgba(" +:+ A +:+ "," +:+ B +:+ "," +:+ C +:+ ")")
    with (("rgba(" +:+ A +:+ "," +:+ B +:+ "," +:+ C) +:+ String ")" "")
    by now rewrite !append_assoc.
  rewrite String_replace_first_char.
  - rewrite append_empty_r, !append_assoc. reflexivity.
  - subst A B C.
    rewrite !has_char_append, !Number_toString_no_paren. reflexivity.
Qed.

Lemma rgbaTemplate_nonempty rv gv bv : rgbaTemplate rv gv bv <> ""%string.
Proof. discriminate. Qed.

Lemma mapToColor_ret v sc mc ec color :
  mapToColor v sc mc ec = Ret color -> exists rv gv bv, color = rgbTemplate rv gv bv.
Proof.
  unfold mapToColor, interpolate, channel.
  destruct (PrimFloat.leb v 0.5), (hexToRgb sc), (hexToRgb mc), (hexToRgb ec);
    cbn [bind]; intros [= <-]; eauto.
Qed.

(** *** The clamp to the unit interval *)

Lemma SFcompare_antisym x y :
  SFcompare y x = option_map CompOpp (SFcompare x y).
Proof.
  destruct x as [sx|sx| |sx mx ex], y as [sy|sy| |sy my ey];
    try destruct sx; try destruct sy; try reflexivity;
    cbn [SFcompare option_map];
    rewrite (Z.compare_antisym ex ey);
    destruct (Z.compare ex ey); cbn [CompOpp]; try reflexivity;
    rewrite (Pos.compare_cont_antisym mx my Eq); cbn [CompOpp];
    now rewrite ?CompOpp_involutive.
Qed.

Lemma SFcompare_not_nan x y :
  SFcompare x x <> None -> SFcompare y y <> None -> SFcompare x y <> None.
Proof.
  destruct x as [sx|sx| |sx mx ex], y as [sy|sy| |sy my ey];
    try destruct sx; try destruct sy; cbn [SFcompare]; congruence.
Qed.

Lemma is_nan_false_compare x :
  is_nan x = false -> SFcompare (Prim2SF x) (Prim2SF x) <> None.
Proof.
  unfold is_nan. rewrite FloatAxioms.eqb_spec. unfold SFeqb.
  destruct (SFcompare (Prim2SF x) (Prim2SF x)); [discriminate|].
  intros Hx. discriminate Hx.
Qed.

Lemma ltb_leb x y : PrimFloat.ltb x y = true -> PrimFloat.leb x y = true.
Proof.
  rewrite FloatAxioms.ltb_spec, FloatAxioms.leb_spec. unfold SFltb, SFleb.
  destruct (SFcompare _ _) as [[]|]; congruence.
Qed.

Lemma not_ltb_leb x y :
  is_nan x = false -> is_nan y = false ->
  PrimFloat.ltb x y = false -> PrimFloat.leb y x = true.
Proof.
  intros Hx Hy. rewrite FloatAxioms.ltb_spec, FloatAxioms.leb_spec. unfold SFltb, SFleb.
  rewrite (SFcompare_antisym (Prim2SF x) (Prim2SF y)).
  pose proof (SFcompare_not_nan _ _ (is_nan_false_compare x Hx)
                (is_nan_false_compare y Hy)) as Hc.
  destruct (SFcompare (Prim2SF x) (Prim2SF y)) as [[]|];
    cbn [option_map CompOpp]; congruence.
Qed.

(** [Math.max(0, Math.min(1, x))] lies between 0 and 1 unless [x] is NaN,
    and is NaN when [x] is. *)
Lemma clamp_unit_interval x :
  (is_nan x = false ->
   PrimFloat.leb 0 (Math_max 0 (Math_min 1 x)) = true
   /\ PrimFloat.leb (Math_max 0 (Math_min 1 x)) 1 = true)
  /\ (is_nan x = true -> Math_max 0 (Math_min 1 x) = nan).
Proof.
  split.
  - intros Hx.
    assert (Hmin : is_nan (Math_min 1 x) = false
                   /\ PrimFloat.leb (Math_min 1 x) 1 = true).
    { unfold Math_min. change (is_nan 1) with false. rewrite Hx. cbn [orb].
      destruct (PrimFloat.ltb 1 x) eqn:H1; [split; reflexivity|].
      destruct (PrimFloat.ltb x 1) eqn:H2; [split; [exact Hx|now apply ltb_leb]|].
      change (get_sign 1) with false. cbv iota.
      split; [exact Hx|]. now apply not_ltb_leb. }
    destruct Hmin as [Hn Hle]. unfold Math_max.
    change (is_nan 0) with false. rewrite Hn. cbn [orb].
    destruct (PrimFloat.ltb 0 (Math_min 1 x)) eqn:H1;
      [split; [now apply ltb_leb|exact Hle]|].
    destruct (PrimFloat.ltb (Math_min 1 x) 0); [split; reflexivity|].
    change (get_sign 0) with false. cbv iota. split; reflexivity.
  - intros Hx. unfold Math_max, Math_min. change (is_nan 1) with false.
    rewrite Hx. reflexivity.
Qed.

Section Cache.
Context `{Host}.

Lemma getGradientColor_miss p y sp cache :
  cachedColor cache (cacheKey p y sp) = None ->
  getGradientColor p y sp cache
  = let* v := freshColor p y sp in Ret (v, <[cacheKey p y sp := v]> cache).
Proof.
  intros Hmiss. unfold getGradientColor, freshColor, biasedPosition.
  rewrite Hmiss. destruct (mapToColor _ _ _ _); reflexivity.
Qed.

Lemma getGradientColor_hit p y sp cache v :
  cachedColor cache (cacheKey p y sp) = Some v ->
  getGradientColor p y sp cache = Ret (v, cache).
Proof. intros Hhit. unfold getGradientColor. now rewrite Hhit. Qed.

Lemma freshColor_ret p y sp v :
  freshColor p y sp = Ret v -> exists rv gv bv, v = rgbaTemplate rv gv bv.
Proof.
  unfold freshColor. destruct (mapToColor _ _ _ _) as [color|e] eqn:Hc; [|discriminate].
  apply mapToColor_ret in Hc as (rv & gv & bv & ->).
  cbn [bind]. rewrite rgba_of_rgbTemplate. intros [= <-]. eauto.
Qed.

Lemma freshColor_nonempty p y sp v : freshColor p y sp = Ret v -> v <> ""%string.
Proof. intros (rv & gv & bv & ->)%freshColor_ret. discriminate. Qed.

Lemma cachedColor_empty key : cachedColor ∅ key = None.
Proof. unfold cachedColor. now rewrite lookup_empty. Qed.

Lemma cachedColor_insert cache key key' v :
  v <> ""%string ->
  cachedColor (<[key := v]> cache) key'
  = if decide (key = key') then Some v else cachedColor cache key'.
Proof.
  intros Hv. unfold cachedColor. rewrite lookup_insert.
  destruct (decide (key = key')); [|reflexivity].
  destruct (String.eqb_spec v ""); [contradiction|reflexivity].
Qed.


Lemma computed_under_empty p : computed_under p ∅.
Proof. intros key v Hv. now rewrite cachedColor_empty in Hv. Qed.

(** A query answers with a colour computed under the current parameters
    for its key, and keeps the cache that way. *)
Lemma getGradientColor_computed p y sp cache v cache' :
  computed_under p cache ->
  getGradientColor p y sp cache = Ret (v, cache') ->
  computed_under p cache'
  /\ exists y' sp', cacheKey p y' sp' = cacheKey p y sp /\ freshColor p y' sp' = Ret v.
Proof.
  intros Hinv Hget.
  destruct (cachedColor cache (cacheKey p y sp)) as [w|] eqn:Hc.
  - rewrite (getGradientColor_hit _ _ _ _ _ Hc) in Hget.
    injection Hget as <- <-. split; [exact Hinv|].
    destruct (Hinv _ _ Hc) as (y' & sp' & Hk & Hf). now exists y', sp'.
  - rewrite (getGradientColor_miss _ _ _ _ Hc) in Hget.
    destruct (freshColor p y sp) as [w|e] eqn:Hf; [|discriminate].
    cbn [bind] in Hget. injection Hget as <- <-. split.
    + intros key v Hv.
      rewrite cachedColor_insert in Hv by (eapply freshColor_nonempty; eauto).
      destruct (decide (cacheKey p y sp = key)) as [<-|_].
      * injection Hv as <-. now exists y, sp.
      * now apply Hinv.
    + now exists y, sp.
Qed.

(** A second query with the same key is answered from the cache. *)
Lemma getGradientColor_again p y sp y' sp' cache v cache' :
  cacheKey p y sp = cacheKey p y' sp' ->
  getGradientColor p y sp cache = Ret (v, cache') ->
  getGradientColor p y' sp' cache' = Ret (v, cache').
Proof.
  intros Hkey Hget.
  destruct (cachedColor cache (cacheKey p y sp)) as [w|] eqn:Hc.
  - rewrite (getGradientColor_hit _ _ _ _ _ Hc) in Hget.
    injection Hget as <- <-. apply getGradientColor_hit. now rewrite <- Hkey.
  - rewrite (getGradientColor_miss _ _ _ _ Hc) in Hget.
    destruct (freshColor p y sp) as [w|e] eqn:Hf; [|discriminate].
    cbn [bind] in Hget. injection Hget as <- <-.
    apply getGradientColor_hit. rewrite <- Hkey.
    rewrite cachedColor_insert by (eapply freshColor_nonempty; eauto).
    now destruct (decide _).
Qed.

End Cache.

(** *** The render pass and the cache *)

Section RenderPass.
Context `{Host}.

Lemma colorStops_computed fuel p sp : forall y cache acc stops cache',
  computed_under p cache ->
  Forall (stop_computed_under p sp) acc ->
  colorStops fuel p sp y cache acc = Some (Ret (stops, cache')) ->
  computed_under p cache' /\ Forall (stop_computed_under p sp) stops.
Proof.
  induction fuel as [|fuel IH]; intros y cache acc stops cache' Hinv Hacc Hrun;
    [discriminate|].
  cbn [colorStops] in Hrun.
  destruct (PrimFloat.leb y 1).
  - destruct (getGradientColor p y sp cache) as [[color cache1]|e] eqn:Hget;
      [|discriminate].
    destruct (getGradientColor_computed _ _ _ _ _ _ Hinv Hget) as [Hinv1 Hstop].
    destruct (addColorStop y color) as [[]|e]; [|discriminate].
    apply (IH _ _ _ _ _ Hinv1) in Hrun; [exact Hrun|].
    apply Forall_app. split; [exact Hacc|]. constructor; [exact Hstop|constructor].
  - injection Hrun as <- <-. now split.
Qed.

Lemma drawStrips_computed fuel p h : forall i cache drawn strips cache',
  computed_under p cache ->
  Forall (strip_computed_under p) drawn ->
  drawStrips fuel p h i cache drawn = Some (Ret (strips, cache')) ->
  computed_under p cache' /\ Forall (strip_computed_under p) strips.
Proof.
  induction fuel as [|fuel IH]; intros i cache drawn strips cache' Hinv Hdrawn Hrun;
    [discriminate|].
  cbn [drawStrips] in Hrun.
  destruct (PrimFloat.ltb (of_Z i) (ToNumber (prop p "strips"))).
  - destruct (colorStops _ _ _ _ _ _) as [[[stops cache1]|e]|] eqn:Hstops;
      try discriminate.
    destruct (colorStops_computed _ _ _ _ _ _ _ _ Hinv (Forall_nil_2 _) Hstops)
      as [Hinv1 Hall].
    apply (IH _ _ _ _ _ Hinv1) in Hrun; [exact Hrun|].
    apply Forall_app. split; [exact Hdrawn|]. constructor; [exact Hall|constructor].
  - injection Hrun as <- <-. now split.
Qed.

(** C2: a second query with the same key is answered with the same string
    and without touching the cache; and once the render pass has run its
    cache test under parameters with a truthy colour or bias, which every
    parameter object with a colour in it has, the first query is computed
    afresh and every stop of every strip carries a colour computed under
    these parameters for its key, whatever the cache held before. *)
Theorem gradient_cache_correct p :
  ToBoolean (prop p "startColor") || ToBoolean (prop p "midColor")
  || ToBoolean (prop p "endColor") || ToBoolean (prop p "verticalBias") = true ->
  (forall cache y sp y' sp' v cache',
      cacheKey p y sp = cacheKey p y' sp' ->
      getGradientColor p y sp cache = Ret (v, cache') ->
      getGradientColor p y' sp' cache' = Ret (v, cache'))
  /\ (forall old y sp,
         getGradientColor p y sp (clearGradientCache p old)
         = let* v := freshColor p y sp in Ret (v, {[cacheKey p y sp := v]}))
  /\ (forall fuel canvasHeight old strips cache',
         renderStrips fuel p canvasHeight old = Some (Ret (strips, cache')) ->
         computed_under p cache' /\ Forall (strip_computed_under p) strips).
Proof.
  intros Hclear. split; [|split].
  - intros cache y sp y' sp' v cache'. apply getGradientColor_again.
  - intros old y sp. unfold clearGradientCache. rewrite Hclear.
    rewrite getGradientColor_miss by apply cachedColor_empty.
    destruct (freshColor p y sp); reflexivity.
  - intros fuel canvasHeight old strips cache'. unfold renderStrips, clearGradientCache.
    rewrite Hclear. apply drawStrips_computed; [apply computed_under_empty|constructor].
Qed.

Lemma clearGradientCache_kept p cache :
  ToBoolean (prop p "startColor") || ToBoolean (prop p "midColor")
  || ToBoolean (prop p "endColor") || ToBoolean (prop p "verticalBias") = false ->
  clearGradientCache p cache = cache.
Proof. intros Hc. unfold clearGradientCache. now rewrite Hc. Qed.

(** C10: the cache test of the render pass looks at the truthiness of the
    colour and bias parameters, not at a change; with the three colours
    non-empty strings the cache is emptied at the start of every pass, so
    the pass runs as from an empty cache, whatever the cache held. *)
Theorem cache_emptied_on_every_render p s m e cache :
  prop p "startColor" = VStr s -> prop p "midColor" = VStr m ->
  prop p "endColor" = VStr e ->
  s <> ""%string -> m <> ""%string -> e <> ""%string ->
  clearGradientCache p cache = ∅
  /\ forall fuel canvasHeight,
       renderStrips fuel p canvasHeight cache = renderStrips fuel p canvasHeight ∅.
Proof.
  intros Hs Hm He Hsn Hmn Hen.
  assert (Hc : forall c, clearGradientCache p c = ∅).
  { intros c. unfold clearGradientCache. rewrite Hs. cbn [ToBoolean].
    destruct (String.eqb_spec s ""); [contradiction|reflexivity]. }
  split; [apply Hc|].
  intros fuel canvasHeight. unfold renderStrips. now rewrite !Hc.
Qed.

End RenderPass.

(** *** The stop loop *)

Section Stops.
Context `{Host}.

Lemma stopPositions_by_addition :
  stopPositions = [0; 0 + 0.2; 0 + 0.2 + 0.2; 0 + 0.2 + 0.2 + 0.2;
                   0 + 0.2 + 0.2 + 0.2 + 0.2; 0 + 0.2 + 0.2 + 0.2 + 0.2 + 0.2].
Proof. reflexivity. Qed.

Lemma loop_ends_after_six :
  PrimFloat.leb (0 + 0.2 + 0.2 + 0.2 + 0.2 + 0.2 + 0.2) 1 = false.
Proof. reflexivity. Qed.

Lemma colorStops_end fuel p sp y cache acc :
  PrimFloat.leb y 1 = false ->
  colorStops (S fuel) p sp y cache acc
  = Some (let* (stops, cache') := sampleAt p sp [] cache in Ret (acc ++ stops, cache')).
Proof.
  intros Hy. cbn [colorStops sampleAt bind]. rewrite Hy. now rewrite app_nil_r.
Qed.

Lemma colorStops_cons fuel p sp y ys :
  PrimFloat.leb y 1 = true ->
  (forall cache acc,
      colorStops fuel p sp (y + 0.2) cache acc
      = Some (let* (stops, cache') := sampleAt p sp ys cache in
              Ret (acc ++ stops, cache'))) ->
  forall cache acc,
    colorStops (S fuel) p sp y cache acc
    = Some (let* (stops, cache') := sampleAt p sp (y :: ys) cache in
            Ret (acc ++ stops, cache')).
Proof.
  intros Hy Hrest cache acc. cbn [colorStops sampleAt bind]. rewrite Hy.
  destruct (getGradientColor p y sp cache) as [[color cache1]|e]; [|reflexivity].
  cbn [bind]. destruct (addColorStop y color) as [[]|e]; [|reflexivity].
  cbn [bind]. rewrite Hrest.
  destruct (sampleAt p sp ys cache1) as [[stops cache2]|e]; [|reflexivity].
  cbn [bind]. now rewrite <- app_assoc.
Qed.

(** With enough fuel the loop is the sampling of the six positions. *)
Lemma colorStops_sampleAt fuel p sp cache acc :
  (7 <= fuel)%nat ->
  colorStops fuel p sp 0 cache acc
  = Some (let* (stops, cache') := sampleAt p sp stopPositions cache in
          Ret (acc ++ stops, cache')).
Proof.
  intros Hfuel. do 7 (destruct fuel as [|fuel]; [lia|]). clear Hfuel.
  revert cache acc. unfold stopPositions.
  do 6 (apply colorStops_cons; [reflexivity|]).
  intros cache0 acc0. now apply colorStops_end.
Qed.

(** The stops that a sampling returns lie at the positions sampled. *)
Lemma sampleAt_offsets p sp : forall ys cache stops cache',
  sampleAt p sp ys cache = Ret (stops, cache') -> map fst stops = ys.
Proof.
  induction ys as [|y ys IH]; intros cache stops cache' Hrun.
  - cbn [sampleAt] in Hrun. now injection Hrun as <- _.
  - cbn [sampleAt] in Hrun.
    destruct (getGradientColor p y sp cache) as [[color cache1]|e]; [|discriminate].
    cbn [bind] in Hrun. destruct (addColorStop y color) as [[]|e]; [|discriminate].
    cbn [bind] in Hrun.
    destruct (sampleAt p sp ys cache1) as [[stops1 cache2]|e] eqn:Hrest; [|discriminate].
    cbn [bind] in Hrun. injection Hrun as <- _. cbn [map fst].
    now rewrite (IH _ _ _ Hrest).
Qed.

(** The offsets of the loop are finite and lie in [0, 1]: at them
    [addColorStop] can only object to the colour. *)
Lemma addColorStop_stop y color :
  In y stopPositions ->
  addColorStop y color = if parsesAsColor color then Ret tt else Throw SyntaxError.
Proof.
  intros Hy. cbn [In stopPositions] in Hy.
  destruct Hy as [<-|[<-|[<-|[<-|[<-|[<-|[]]]]]]]; reflexivity.
Qed.

End Stops.

Lemma gray_stop_offsets :
  stopOffsets (@colorStops integerHost 7
                 (initialParams "#808080" "#808080" "#808080") 0.5 0 ∅ [])
  = Some stopPositions.
Proof. vm_compute. reflexivity. Qed.

(** The fourth stop is not placed at 0.6. *)
Lemma fourth_stop_is_not_at_0_6 :
  exists stops cache',
    @colorStops integerHost 7 (initialParams "#808080" "#808080" "#808080") 0.5 0 ∅ []
    = Some (Ret (stops, cache'))
    /\ map fst stops <> [0; 0.2; 0.4; 0.6; 0.8; 1].
Proof.
  pose proof gray_stop_offsets as Hoff.
  destruct (@colorStops integerHost 7 _ 0.5 0 ∅ []) as [[[stops cache']|e]|];
    try discriminate Hoff.
  exists stops, cache'. split; [reflexivity|].
  injection Hoff as ->. intros Heq.
  apply (f_equal (fun l => PrimFloat.eqb (nth 3 l 0) 0.6)) in Heq.
  vm_compute in Heq. discriminate Heq.
Qed.

(** *** Two strips *)

(** With two strips the positions are 0 and 1. *)
Lemma two_strip_positions :
  stripPosition 0 2 = 0 /\ stripPosition 1 2 = 1.
Proof. split; reflexivity. Qed.

(** *** Noise *)

Lemma ToUint8Clamp_range x : (0 <= ToUint8Clamp x <= 255)%Z.
Proof.
  unfold ToUint8Clamp.
  destruct (Prim2SF x) as [s|s| |s m e]; try (destruct s; lia); try lia.
  destruct s; [lia|].
  pose proof (Z.shiftl_nonneg (Zpos m) e).
  pose proof (Z.shiftr_nonneg (Zpos m) (- e)).
  repeat match goal with
         | |- context [if ?c then _ else _] => destruct c
         end; lia.
Qed.

Lemma perturb_length data i noise : length (perturb data i noise) = length data.
Proof. apply length_insert. Qed.

Lemma perturb_lookup (data : list Z) i noise j :
  perturb data i noise !! j
  = if decide (j = i) then (fun z => perturbed z noise) <$> data !! i
    else data !! j.
Proof.
  unfold perturb, read_element, perturbed.
  destruct (decide (j = i)) as [->|Hne].
  - destruct (data !! i) as [z|] eqn:Hz.
    + apply list_lookup_insert_eq. now apply lookup_lt_Some in Hz.
    + rewrite list_insert_ge by now apply lookup_ge_None. now rewrite Hz.
  - now apply list_lookup_insert_ne.
Qed.

Lemma pixel_count_done len i : (len <= i -> (len + 15 - i) / 16 = 0)%nat.
Proof. intros Hle. apply Nat.div_small. lia. Qed.

Lemma pixel_count_step len i :
  (i < len -> (len + 15 - i) / 16 = S ((len + 15 - (i + 16)) / 16))%nat.
Proof.
  intros Hlt.
  replace (len + 15 - i)%nat with ((len + 15 - (i + 16)) + 1 * 16)%nat by lia.
  rewrite Nat.div_add by lia. lia.
Qed.

Lemma offset_step i j :
  (i + 16 <= j ->
   (j - i) mod 16 = (j - (i + 16)) mod 16 /\ (j - i) / 16 = S ((j - (i + 16)) / 16))%nat.
Proof.
  intros Hle.
  replace (j - i)%nat with ((j - (i + 16)) + 1 * 16)%nat by lia.
  rewrite Nat.Div0.mod_add, Nat.div_add by lia. lia.
Qed.

Lemma offset_small i j :
  (i <= j < i + 16 -> (j - i) mod 16 = j - i /\ (j - i) / 16 = 0)%nat.
Proof.
  intros Hj. split; [apply Nat.mod_small|apply Nat.div_small]; lia.
Qed.

(** What one pass of the loop that starts at index [i], with [calls]
    samples already drawn, leaves in every channel. *)
Lemma noiseLoop_spec noiseScale random fuel : forall i calls data,
  (length data <= i + 16 * fuel)%nat ->
  length (fst (noiseLoop fuel noiseScale random i calls data)) = length data
  /\ snd (noiseLoop fuel noiseScale random i calls data)
     = (calls + (length data + 15 - i) / 16)%nat
  /\ forall j,
       fst (noiseLoop fuel noiseScale random i calls data) !! j
       = if (i <=? j)%nat && ((j - i) mod 16 <? 3)%nat
         then (fun z => perturbed z (noiseSample noiseScale
                                       (random (calls + (j - i) / 16)%nat)))
                <$> data !! j
         else data !! j.
Proof.
  assert (Hpast : forall (data : list Z) i calls j (f : nat -> Z -> Z),
             (length data <= i)%nat ->
             data !! j
             = if (i <=? j)%nat && ((j - i) mod 16 <? 3)%nat
               then f (calls + (j - i) / 16)%nat <$> data !! j
               else data !! j).
  { intros data i calls j f Hle.
    destruct ((i <=? j)%nat && _) eqn:Hc; [|reflexivity].
    apply andb_true_iff in Hc as [Hij _]. apply Nat.leb_le in Hij.
    rewrite (proj2 (lookup_ge_None data j)) by lia. reflexivity. }
  induction fuel as [|fuel IH]; intros i calls data Hfuel.
  - cbn [noiseLoop fst snd]. split; [reflexivity|].
    split; [rewrite pixel_count_done by lia; lia|].
    intros j.
    apply (Hpast data i calls j
             (fun k z => perturbed z (noiseSample noiseScale (random k)))). lia.
  - cbn [noiseLoop]. destruct (Nat.ltb_spec i (length data)) as [Hlt|Hge].
    + set (noise := noiseSample noiseScale (random calls)).
      set (data3 := perturb (perturb (perturb data i noise) (i + 1) noise) (i + 2) noise).
      assert (Hlen : length data3 = length data).
      { unfold data3. now rewrite !perturb_length. }
      destruct (IH (i + 16)%nat (S calls) data3) as (Hl & Hcalls & Hlook);
        [rewrite Hlen; lia|].
      split; [now rewrite Hl|].
      split; [rewrite Hcalls, Hlen, (pixel_count_step _ _ Hlt); lia|].
      intros j. rewrite Hlook.
      assert (Hd3 : data3 !! j
                    = if decide (j = i \/ j = i + 1 \/ j = i + 2)%nat
                      then (fun z => perturbed z noise) <$> data !! j
                      else data !! j).
      { unfold data3. rewrite !perturb_lookup.
        repeat (destruct (decide _)); subst; try reflexivity; lia. }
      rewrite Hd3.
      destruct (Nat.leb_spec (i + 16) j) as [Hbig|Hsmall].
      * destruct (offset_step i j Hbig) as [-> ->].
        replace ((i <=? j)%nat) with true by (symmetry; apply Nat.leb_le; lia).
        destruct (decide _) as [Hj|_]; [lia|].
        cbn [andb]. now rewrite Nat.add_succ_comm.
      * cbn [andb]. destruct (Nat.leb_spec i j) as [Hij|Hij]; cbn [andb].
        -- destruct (offset_small i j (conj Hij Hsmall)) as [-> ->].
           rewrite Nat.add_0_r. fold noise.
           destruct (decide _) as [Hj|Hj];
             destruct (Nat.ltb_spec (j - i) 3) as [H3|H3]; try reflexivity; lia.
        -- destruct (decide _) as [Hj|_]; [lia|reflexivity].
    + cbn [fst snd]. split; [reflexivity|].
      split; [rewrite pixel_count_done by lia; lia|].
      intros j.
      apply (Hpast data i calls j
               (fun k z => perturbed z (noiseSample noiseScale (random k)))). lia.
Qed.

Lemma alpha_not_in_stride j : (j mod 4 = 3 -> (j mod 16 <? 3) = false)%nat.
Proof.
  intros Hj. apply Nat.ltb_ge.
  change 16%nat with (4 * 4)%nat. rewrite Nat.Div0.mod_mul_r. lia.
Qed.

Section Noise.
Context `{Host}.

(** C3: with [noiseScale] equal to 0 the stage returns the raster it was
    given.  With [noiseScale] above 0 the raster handed to the blurred
    redraw is the one the pixel loop wrote: it has the length of the
    input; one sample was drawn for each index that is a multiple of 16;
    the channels at offsets 0, 1 and 2 from such an index hold the old
    value plus the sample of their pixel, namely
    [(random - 0.5) * noiseScale * 3], clamped to [0, 255] and stored as a
    byte; every other channel, and so every alpha channel, is as it
    was. *)
Theorem noise_stage_effect p random raster :
  (ToNumber (prop p "noiseScale") = 0 -> postProcess p random raster = raster)
  /\ (PrimFloat.ltb 0 (ToNumber (prop p "noiseScale")) = true ->
      postProcess p random raster
      = drawBlurred (ToNumber (prop p "noiseScale") * 0.2)
          (fst (addNoise (ToNumber (prop p "noiseScale")) random raster)))
  /\ (forall noiseScale,
        length (fst (addNoise noiseScale random raster)) = length raster
        /\ snd (addNoise noiseScale random raster) = ((length raster + 15) / 16)%nat
        /\ (forall j z, raster !! j = Some z ->
              fst (addNoise noiseScale random raster) !! j
              = Some (if (j mod 16 <? 3)%nat
                      then perturbed z (noiseSample noiseScale (random (j / 16)%nat))
                      else z))
        /\ (forall j, (j mod 4 = 3)%nat ->
              fst (addNoise noiseScale random raster) !! j = raster !! j))
  /\ (forall z u noiseScale,
        noiseSample noiseScale u = (u - 0.5) * noiseScale * 3
        /\ (0 <= perturbed z (noiseSample noiseScale u) <= 255)%Z).
Proof.
  split; [|split; [|split]].
  - intros Hzero. unfold postProcess. rewrite Hzero. reflexivity.
  - intros Hpos. unfold postProcess. now rewrite Hpos.
  - intros noiseScale. unfold addNoise.
    destruct (noiseLoop_spec noiseScale random (length raster) 0 0 raster)
      as (Hlen & Hcalls & Hlook); [lia|].
    split; [exact Hlen|]. split; [rewrite Hcalls; now rewrite Nat.sub_0_r|].
    split.
    + intros j z Hz. rewrite Hlook, Hz, Nat.sub_0_r. cbn [Nat.leb andb].
      destruct (j mod 16 <? 3)%nat; reflexivity.
    + intros j Hj. rewrite Hlook, Nat.sub_0_r, (alpha_not_in_stride j Hj).
      reflexivity.
  - intros z u noiseScale. split; [reflexivity|apply ToUint8Clamp_range].
Qed.

(** The stage is skipped for every [noiseScale] that is not above 0, NaN
    included. *)
Lemma postProcess_inactive p random raster :
  PrimFloat.ltb 0 (ToNumber (prop p "noiseScale")) = false ->
  postProcess p random raster = raster.
Proof. intros Hns. unfold postProcess. now rewrite Hns. Qed.

End Noise.

(** One and a half pixel groups: the first pixel of each group moves, its
    alpha and the three pixels after it stay. *)
Lemma addNoise_example :
  addNoise 10 (fun k => of_Z (Z.of_nat k) / 4)
    [10; 20; 30; 255;  1; 1; 1; 1;  2; 2; 2; 2;  3; 3; 3; 3;
     100; 100; 100; 100;  5; 5; 5; 5]%Z
  = ([0; 5; 15; 255;  1; 1; 1; 1;  2; 2; 2; 2;  3; 3; 3; 3;
      92; 92; 92; 100;  5; 5; 5; 5]%Z, 2%nat).
Proof. vm_compute. reflexivity. Qed.

Lemma noise_stage_effect_witness :
  @ToNumber integerHost (prop (<["noiseScale" := VStr "0"]>
                                 (initialParams "#808080" "#808080" "#808080"))
                              "noiseScale") = 0
  /\ @postProcess integerHost
       (<["noiseScale" := VStr "0"]> (initialParams "#808080" "#808080" "#808080"))
       (fun _ => 0.25) [10; 20; 30; 255]%Z
     = [10; 20; 30; 255]%Z.
Proof.
  split; [vm_compute; reflexivity|].
  apply (@noise_stage_effect integerHost
           (<["noiseScale" := VStr "0"]> (initialParams "#808080" "#808080" "#808080"))
           (fun _ => 0.25) [10; 20; 30; 255]%Z).
  vm_compute. reflexivity.
Defined.

(** *** The cache on the gray parameters *)


(** The same query, evaluated. *)
Lemma gray_query_evaluated :
  match @getGradientColor integerHost grayParams 0 0.5 ∅ with
  | Ret (v, cache) =>
      v = "rgba(128,128,128, 0.5)"%string
      /\ cache !! "0-0.5-#808080-#808080-#808080-0.7"%string = Some v
  | Throw _ => False
  end.
Proof. vm_compute. split; reflexivity. Qed.

Lemma gradient_cache_correct_witness :
  ToBoolean (prop grayParams "startColor") || ToBoolean (prop grayParams "midColor")
  || ToBoolean (prop grayParams "endColor") || ToBoolean (prop grayParams "verticalBias")
  = true
  /\ @getGradientColor integerHost grayParams 0 0.5
       (clearGradientCache grayParams {[ "0-0.5-#808080-#808080-#808080-0.7"%string := "stale"%string ]})
     = (let* v := @freshColor integerHost grayParams 0 0.5 in
        Ret (v, {[cacheKey grayParams 0 0.5 := v]})).
Proof.
  split; [reflexivity|].
  apply (proj1 (proj2 (@gradient_cache_correct integerHost grayParams eq_refl))).
Defined.

Lemma cache_emptied_on_every_render_witness :
  clearGradientCache grayParams {[ "0-0.5-#808080-#808080-#808080-0.7"%string := "stale"%string ]}
  = ∅.
Proof.
  apply (proj1 (@cache_emptied_on_every_render integerHost grayParams
                  "#808080" "#808080" "#808080"
                  {[ "0-0.5-#808080-#808080-#808080-0.7"%string := "stale"%string ]}
                  eq_refl eq_refl eq_refl
                  ltac:(discriminate) ltac:(discriminate) ltac:(discriminate))).
Defined.


(** ** Further properties of the code *)

(** *** Colours written and read back *)

Lemma hex_digit_hex_char d : (0 <= d < 16)%Z -> hex_digit (hex_char d) = Some d.
Proof.
  intros Hd.
  assert (Hc : forall n : nat, (n < 16)%nat ->
             hex_digit (hex_char (Z.of_nat n)) = Some (Z.of_nat n)).
  { intros n Hn. bounded_cases 16 n Hn reflexivity. }
  rewrite <- (Z2Nat.id d) by lia. apply Hc. lia.
Qed.

Lemma toHex_byte n :
  (0 <= n < 256)%Z ->
  toHex n = String (hex_char (n / 16)) (String (hex_char (n mod 16)) EmptyString)
  /\ hex_pair (hex_char (n / 16)) (hex_char (n mod 16)) = Some n.
Proof.
  intros Hn.
  assert (H1 : (0 <= n / 16 < 16)%Z) by (split; [apply Z.div_pos|apply Z.div_lt_upper_bound]; lia).
  assert (H2 : (0 <= n mod 16 < 16)%Z) by (apply Z.mod_pos_bound; lia).
  split.
  - rewrite <- (toHex_digits _ _ H1 H2). f_equal.
    rewrite (Z.div_mod n 16) at 1 by lia. reflexivity.
  - unfold hex_pair. rewrite (hex_digit_hex_char _ H1), (hex_digit_hex_char _ H2).
    f_equal. symmetry. apply Z.div_mod. lia.
Qed.

(** X1: a colour written from three channels between 0 and 255, as on
    line 16, is read back by [hexToRgb] as the same three channels. *)
Theorem hexToRgb_after_rgbToHex rv gv bv :
  (0 <= rv < 256)%Z -> (0 <= gv < 256)%Z -> (0 <= bv < 256)%Z ->
  hexToRgb (rgbToHex rv gv bv) = Some {| r := rv; g := gv; b := bv |}.
Proof.
  intros Hr Hg Hb. unfold rgbToHex.
  destruct (toHex_byte rv Hr) as [-> Hpr].
  destruct (toHex_byte gv Hg) as [-> Hpg].
  destruct (toHex_byte bv Hb) as [-> Hpb].
  set (r1 := hex_char (rv / 16)) in *. set (r2 := hex_char (rv mod 16)) in *.
  set (g1 := hex_char (gv / 16)) in *. set (g2 := hex_char (gv mod 16)) in *.
  set (b1 := hex_char (bv / 16)) in *. set (b2 := hex_char (bv mod 16)) in *.
  change (hexToRgb _)
    with (match hex_pair r1 r2, hex_pair g1 g2, hex_pair b1 b2 with
          | Some r, Some g, Some b => Some {| r := r; g := g; b := b |}
          | _, _, _ => None
          end).
  now rewrite Hpr, Hpg, Hpb.
Qed.

Lemma hexToRgb_after_rgbToHex_witness :
  hexToRgb (rgbToHex 128 0 229) = Some {| r := 128; g := 0; b := 229 |}.
Proof. apply hexToRgb_after_rgbToHex; lia. Defined.

(** X2: what [hexToRgb] accepts has six characters, or seven of which the
    first is [#], and nothing else: the three-digit shorthand and the
    eight-digit form with alpha give [null].  Every channel of a parsed
    colour lies between 0 and 255. *)
Theorem hexToRgb_shape hex c :
  hexToRgb hex = Some c ->
  ((String.length hex = 6%nat /\ strip_hash hex = hex)
   \/ (String.length hex = 7%nat /\ hex = String "#" (strip_hash hex)))
  /\ (0 <= r c <= 255)%Z /\ (0 <= g c <= 255)%Z /\ (0 <= b c <= 255)%Z.
Proof.
  intros Hc. split.
  - pose proof Hc as Hs.
    apply hexToRgb_some in Hs as (c1 & c2 & c3 & c4 & c5 & c6 & Hs & _).
    destruct (strip_hash_cases hex) as [Hh|[Hh _]].
    + right. split; [|exact Hh]. rewrite Hh, Hs. reflexivity.
    + left. split; [|exact Hh]. rewrite <- Hh, Hs. reflexivity.
  - destruct (hexToRgb_range _ _ Hc) as (Hr & Hg & Hb). lia.
Qed.

Lemma hexToRgb_shape_witness :
  ((String.length "#A1b2C3" = 6%nat /\ strip_hash "#A1b2C3" = "#A1b2C3"%string)
   \/ (String.length "#A1b2C3" = 7%nat
       /\ "#A1b2C3"%string = String "#" (strip_hash "#A1b2C3")))
  /\ (0 <= 161 <= 255)%Z /\ (0 <= 178 <= 255)%Z /\ (0 <= 195 <= 255)%Z.
Proof.
  exact (hexToRgb_shape "#A1b2C3" {| r := 161; g := 178; b := 195 |} eq_refl).
Defined.

Lemma hexToRgb_rejects_shorthand :
  hexToRgb "#fff" = None /\ hexToRgb "#ffffffff" = None /\ hexToRgb "" = None
  /\ hexToRgb " #ffffff" = None /\ hexToRgb "##ffffff" = None.
Proof. repeat split; reflexivity. Qed.

Lemma hex_digit_lower c : hex_digit (lower_ascii c) = hex_digit c.
Proof. ascii_cases c; reflexivity. Qed.

Lemma lower_ascii_hash c : lower_ascii c = "#"%char -> c = "#"%char.
Proof. ascii_cases c; intros Hc; vm_compute in Hc; try discriminate Hc; reflexivity. Qed.

Lemma strip_hash_toLowerCase hex :
  strip_hash (toLowerCase hex) = toLowerCase (strip_hash hex).
Proof.
  destruct (strip_hash_cases hex) as [Hh|[Hh Hno]].
  - rewrite Hh at 1. reflexivity.
  - rewrite Hh.
    destruct (strip_hash_cases (toLowerCase hex)) as [Hl|[Hl _]]; [|exact Hl].
    destruct hex as [|a rest]; [discriminate Hl|].
    cbn [toLowerCase] in Hl. injection Hl as Ha _.
    apply lower_ascii_hash in Ha. subst a. now destruct (Hno rest).
Qed.

(** X3: [hexToRgb] does not look at the case of the letters, nor at the
    leading [#]: a string, the same string in lower case, its six digits
    alone and its six digits after a [#] all parse alike. *)
Theorem hexToRgb_case_and_hash_insensitive hex :
  hexToRgb (toLowerCase hex) = hexToRgb hex
  /\ (is_Some (hexToRgb hex) ->
      hexToRgb (strip_hash hex) = hexToRgb hex
      /\ hexToRgb (String "#" (strip_hash hex)) = hexToRgb hex).
Proof.
  split.
  - unfold hexToRgb. rewrite strip_hash_toLowerCase.
    destruct (strip_hash hex) as [|c1 [|c2 [|c3 [|c4 [|c5 [|c6 [|? ?]]]]]]];
      try reflexivity.
    cbn [toLowerCase]. unfold hex_pair. now rewrite !hex_digit_lower.
  - intros [c Hc].
    assert (Hbody : forall body, strip_hash hex = body ->
                hexToRgb hex
                = match body with
                  | String c1 (String c2 (String c3 (String c4
                      (String c5 (String c6 EmptyString))))) =>
                      match hex_pair c1 c2, hex_pair c3 c4, hex_pair c5 c6 with
                      | Some r, Some g, Some b => Some {| r := r; g := g; b := b |}
                      | _, _, _ => None
                      end
                  | _ => None
                  end).
    { intros body <-. reflexivity. }
    pose proof Hc as Hs.
    apply hexToRgb_some in Hs as (c1 & c2 & c3 & c4 & c5 & c6 & Hs & H1 & _).
    apply hex_pair_some in H1 as (d1 & _ & H1 & _).
    assert (Hne : c1 <> "#"%char).
    { intros ->. rewrite hex_digit_not_hash in H1. discriminate H1. }
    assert (Hstrip : strip_hash (strip_hash hex) = strip_hash hex).
    { rewrite Hs. cbn [string_of_list_ascii].
      destruct (strip_hash_cases
                  (String c1 (String c2 (String c3 (String c4 (String c5
                     (String c6 EmptyString)))))))
        as [Hh|[Hh _]]; [|exact Hh].
      injection Hh as Hh _. now destruct Hne. }
    split.
    + rewrite (Hbody _ eq_refl). unfold hexToRgb. now rewrite Hstrip.
    + rewrite (Hbody _ eq_refl). reflexivity.
Qed.

Lemma hexToRgb_case_and_hash_insensitive_witness :
  hexToRgb (strip_hash "#A1b2C3") = hexToRgb "#A1b2C3"
  /\ hexToRgb (String "#" (strip_hash "#A1b2C3")) = hexToRgb "#A1b2C3".
Proof.
  apply (hexToRgb_case_and_hash_insensitive "#A1b2C3").
  exists {| r := 161; g := 178; b := 195 |}. reflexivity.
Defined.

(** *** The component under arbitrary events *)

Lemma frameQueue_step st a :
  pending_ok st ->
  pending_ok (step st a)
  /\ frameQueue (step st a)
     = match a with
       | Change name value => [(nextHandle st, (name, value))]
       | _ => []
       end.
Proof.
  intros Hok. destruct a as [name value| |]; cbn [step].
  - split; [now apply pending_ok_handleParamChange|now apply handleParamChange_queue].
  - split; [now apply pending_ok_runFrame|reflexivity].
  - split; [now apply pending_ok_effectCleanup|].
    unfold effectCleanup. cbn [frameQueue]. now apply cancelPending_all.
Qed.

Lemma run_snoc acts a st : run (acts ++ [a]) st = step (run acts st) a.
Proof. unfold run. now rewrite fold_left_app. Qed.

Lemma pending_ok_run acts st : pending_ok st -> pending_ok (run acts st).
Proof.
  intros Hok. induction acts as [|a acts IH] using rev_ind; [exact Hok|].
  rewrite run_snoc. now apply frameQueue_step.
Qed.

(** X4: whatever the sequence of change events, display frames and effect
    clean-ups since the component was mounted, at most one callback is
    waiting in the animation-frame queue, and it is the one the reference
    names. *)
Theorem at_most_one_pending_frame sc mc ec acts :
  (length (frameQueue (run acts (initialComponent sc mc ec))) <= 1)%nat
  /\ forall e, In e (frameQueue (run acts (initialComponent sc mc ec))) ->
       animationFrameRef (run acts (initialComponent sc mc ec)) = Some (fst e).
Proof.
  split.
  - destruct acts as [|a acts _] using rev_ind; [simpl; lia|].
    rewrite run_snoc.
    destruct (frameQueue_step (run acts (initialComponent sc mc ec)) a
                (pending_ok_run _ _ (pending_ok_initial sc mc ec))) as [_ ->].
    destruct a; simpl; lia.
  - intros e He.
    now apply (pending_ok_run acts _ (pending_ok_initial sc mc ec)).
Qed.

(** X5: of two changes made before the next display frame only the second
    reaches the parameters; the first is dropped, also when it was for
    another field. *)
Theorem earlier_change_in_a_frame_is_dropped st n1 v1 n2 v2 :
  pending_ok st ->
  params (runFrame (handleParamChange n2 v2 (handleParamChange n1 v1 st)))
  = <[n2 := VStr v2]> (params st)
  /\ (n1 <> n2 ->
      params (runFrame (handleParamChange n2 v2 (handleParamChange n1 v1 st))) !! n1
      = params st !! n1).
Proof.
  intros Hok. rewrite (param_change_coalesced _ _ _ _ _ Hok). unfold setParam.
  split; [reflexivity|]. intros Hne. now apply lookup_insert_ne.
Qed.

Lemma earlier_change_in_a_frame_is_dropped_witness :
  params (runFrame (handleParamChange "text" "hello"
            (handleParamChange "strips" "3"
               (initialComponent "#808080" "#808080" "#808080")))) !! "strips"%string
  = params (initialComponent "#808080" "#808080" "#808080") !! "strips"%string.
Proof.
  apply (earlier_change_in_a_frame_is_dropped
           (initialComponent "#808080" "#808080" "#808080")
           "strips" "3" "text" "hello" (pending_ok_initial _ _ _)).
  discriminate.
Defined.

(** X6: a change that is still waiting for its frame when the effect is
    cleaned up never reaches the parameters. *)
Theorem cleanup_drops_pending_change st name value :
  pending_ok st ->
  frameQueue (effectCleanup (handleParamChange name value st)) = []
  /\ params (runFrame (effectCleanup (handleParamChange name value st)))
     = params st.
Proof.
  intros Hok.
  assert (Hq : frameQueue (effectCleanup (handleParamChange name value st)) = []).
  { unfold effectCleanup. cbn [frameQueue animationFrameRef].
    apply cancelPending_all. now apply pending_ok_handleParamChange. }
  split; [exact Hq|].
  change (params (runFrame ?s))
    with (fold_left (fun p e => setParam (fst (snd e)) (snd (snd e)) p)
            (frameQueue s) (params s)).
  rewrite Hq. reflexivity.
Qed.

Lemma cleanup_drops_pending_change_witness :
  params (runFrame (effectCleanup (handleParamChange "strips" "3"
            (initialComponent "#808080" "#808080" "#808080"))))
  = params (initialComponent "#808080" "#808080" "#808080").
Proof.
  apply (cleanup_drops_pending_change
           (initialComponent "#808080" "#808080" "#808080") "strips" "3").
  apply pending_ok_initial.
Defined.

(** The fields the controls write are the fields the parameters start with. *)
Lemma control_names_are_fields sc mc ec :
  dom (initialParams sc mc ec) =@{gset string} list_to_set (map fst controls).
Proof.
  unfold initialParams. rewrite dom_list_to_map_L. reflexivity.
Qed.

Lemma control_kind name kind :
  In (name, kind) controls ->
  In name (map fst controls)
  /\ (In name ["startColor"; "midColor"; "endColor"]%string -> kind = Color).
Proof.
  intros Hin. split; [now apply (in_map fst) in Hin|].
  unfold controls in Hin. cbn [In] in Hin.
  intros Hname. cbn [In] in Hname.
  repeat (destruct Hin as [Hin|Hin];
          [injection Hin as <- <-;
           try reflexivity;
           exfalso; decompose [or] Hname; congruence|]).
  destruct Hin.
Qed.

Lemma setParam_keeps st_params name value :
  fired_by_control (Change name value) ->
  dom st_params =@{gset string} list_to_set (map fst controls) ->
  colors_parse st_params ->
  dom (setParam name value st_params) =@{gset string} list_to_set (map fst controls)
  /\ colors_parse (setParam name value st_params).
Proof.
  intros (kind & Hin & Hcol) Hdom Hparse.
  destruct (control_kind _ _ Hin) as [Hname Hkind]. unfold setParam. split.
  - rewrite dom_insert_L, Hdom.
    apply subseteq_union_1_L, singleton_subseteq_l.
    apply elem_of_list_to_set, list_elem_of_In, Hname.
  - intros f Hf. destruct (decide (name = f)) as [->|Hne].
    + exists value. rewrite lookup_insert_eq. split; [reflexivity|].
      apply Hcol. now apply Hkind.
    + rewrite lookup_insert_ne by exact Hne. now apply Hparse.
Qed.

Lemma panel_invariant_step st a :
  fired_by_control a -> panel_invariant st -> panel_invariant (step st a).
Proof.
  intros Ha (Hok & Hq & Hdom & Hparse).
  destruct (frameQueue_step st a Hok) as [Hok' Hq'].
  split; [exact Hok'|]. split; [|].
  - rewrite Hq'. destruct a as [name value| |]; intros e He.
    + destruct He as [<-|[]]. exact Ha.
    + destruct He.
    + destruct He.
  - destruct a as [name value| |]; cbn [step].
    + split; [exact Hdom|exact Hparse].
    + change (params (runFrame st))
        with (fold_left (fun p e => setParam (fst (snd e)) (snd (snd e)) p)
                (frameQueue st) (params st)).
      revert Hq Hdom Hparse. generalize (params st).
      induction (frameQueue st) as [|e q IH]; intros p0 Hq Hdom Hparse;
        [split; assumption|].
      cbn [fold_left].
      destruct (setParam_keeps p0 _ _ (Hq e (or_introl eq_refl)) Hdom Hparse)
        as [Hdom1 Hparse1].
      apply IH; [|assumption|assumption].
      intros e' He'. apply Hq. now right.
    + split; [exact Hdom|exact Hparse].
Qed.

Lemma panel_invariant_run acts st :
  Forall fired_by_control acts -> panel_invariant st -> panel_invariant (run acts st).
Proof.
  intros Hacts Hinv. induction acts as [|a acts IH] using rev_ind; [exact Hinv|].
  apply Forall_app in Hacts as [Hacts Ha]. apply Forall_cons in Ha as [Ha _].
  rewrite run_snoc. apply panel_invariant_step; [exact Ha|now apply IH].
Qed.

Lemma panel_invariant_initial sc mc ec :
  is_Some (hexToRgb sc) -> is_Some (hexToRgb mc) -> is_Some (hexToRgb ec) ->
  panel_invariant (initialComponent sc mc ec).
Proof.
  intros Hs Hm He. split; [apply pending_ok_initial|]. split; [intros e []|].
  split; [apply control_names_are_fields|].
  intros f Hf. cbn [In] in Hf.
  destruct Hf as [<-|[<-|[<-|[]]]]; eexists; (split; [reflexivity|assumption]).
Qed.

(** X7: as long as the change events come from the controls, the
    parameter object keeps exactly the twelve fields it starts with, which
    are the names of the twelve controls: no event adds a field and none
    removes one. *)
Theorem params_fields_are_fixed sc mc ec acts :
  is_Some (hexToRgb sc) -> is_Some (hexToRgb mc) -> is_Some (hexToRgb ec) ->
  Forall fired_by_control acts ->
  dom (params (run acts (initialComponent sc mc ec)))
  =@{gset string} dom (initialParams sc mc ec)
  /\ dom (params (run acts (initialComponent sc mc ec)))
     =@{gset string} list_to_set (map fst controls)
  /\ length controls = 12%nat /\ NoDup (map fst controls).
Proof.
  intros Hs Hm He Hacts.
  destruct (panel_invariant_run acts _ Hacts (panel_invariant_initial _ _ _ Hs Hm He))
    as (_ & _ & Hdom & _).
  rewrite control_names_are_fields. repeat split; [exact Hdom|exact Hdom|].
  apply NoDup_ListNoDup. repeat (constructor; [cbn [In map fst controls]; intuition discriminate|]).
  constructor.
Qed.

(** X8: if the three colours parse when the component is mounted and every
    change event comes from a control, the three colour fields hold
    strings that [hexToRgb] accepts after any sequence of events. *)
Theorem colors_always_parse sc mc ec acts :
  is_Some (hexToRgb sc) -> is_Some (hexToRgb mc) -> is_Some (hexToRgb ec) ->
  Forall fired_by_control acts ->
  colors_parse (params (run acts (initialComponent sc mc ec))).
Proof.
  intros Hs Hm He Hacts.
  now destruct (panel_invariant_run acts _ Hacts
                  (panel_invariant_initial _ _ _ Hs Hm He)) as (_ & _ & _ & Hparse).
Qed.

Lemma gray_parses : is_Some (hexToRgb "#808080").
Proof. eexists. reflexivity. Qed.

Lemma sampleSession_fired : Forall fired_by_control sampleSession.
Proof.
  repeat constructor.
  - exists (Range "1" "50" None). split; [cbn; tauto|discriminate].
  - exists Color. split; [cbn; tauto|]. intros _. eexists. reflexivity.
Qed.

Lemma params_fields_are_fixed_witness :
  dom (params (run sampleSession (initialComponent "#808080" "#808080" "#808080")))
  =@{gset string} dom (initialParams "#808080" "#808080" "#808080").
Proof.
  apply (params_fields_are_fixed "#808080" "#808080" "#808080" sampleSession
           gray_parses gray_parses gray_parses sampleSession_fired).
Defined.

Lemma colors_always_parse_witness :
  colors_parse (params (run sampleSession
                          (initialComponent "#808080" "#808080" "#808080"))).
Proof.
  apply (colors_always_parse "#808080" "#808080" "#808080" sampleSession
           gray_parses gray_parses gray_parses sampleSession_fired).
Defined.

(** *** Cache keys and cache growth *)

Lemma append_inj_l (s a b : string) : s +:+ a = s +:+ b -> a = b.
Proof.
  induction s as [|c s IH]; intros Heq; [exact Heq|].
  apply IH. change (String c (s +:+ a) = String c (s +:+ b)) in Heq.
  now injection Heq.
Qed.

Lemma length_append (a b : string) :
  String.length (a +:+ b) = (String.length a + String.length b)%nat.
Proof.
  induction a as [|c a IH]; [reflexivity|].
  change (S (String.length (a +:+ b)) = S (String.length a + String.length b)).
  now rewrite IH.
Qed.

Lemma append_inj_r (s : string) : forall a b : string, a +:+ s = b +:+ s -> a = b.
Proof.
  induction a as [|c a IH]; intros b Heq.
  - apply (f_equal String.length) in Heq. rewrite !length_append in Heq.
    destruct b; [reflexivity|]. simpl in Heq. lia.
  - destruct b as [|d b].
    + apply (f_equal String.length) in Heq. rewrite !length_append in Heq.
      simpl in Heq. lia.
    + change (String c (a +:+ s) = String d (b +:+ s)) in Heq.
      injection Heq as -> Heq. f_equal. now apply IH.
Qed.

Lemma prop_setParam p name value f :
  prop (setParam name value p) f
  = if decide (name = f) then VStr value else prop p f.
Proof.
  unfold prop, setParam. rewrite lookup_insert.
  destruct (decide (name = f)); reflexivity.
Qed.

(** X9: when a control changes one of the four fields that enter the key
    (a colour or the bias) to a value whose text differs from the text of
    the old one, the key of every query changes with it. *)
Theorem cacheKey_changes_with_field p f value y sp :
  In f ["startColor"; "midColor"; "endColor"; "verticalBias"]%string ->
  value <> ToString (prop p f) ->
  cacheKey (setParam f value p) y sp <> cacheKey p y sp.
Proof.
  intros Hf Hne Heq. unfold cacheKey in Heq. rewrite !prop_setParam in Heq.
  cbn [In] in Hf.
  destruct Hf as [<-|[<-|[<-|[<-|[]]]]];
    repeat match type of Heq with
           | context [decide (?a = ?b)] =>
               destruct (decide (a = b)) as [?|?]; try discriminate; try congruence
           end;
    cbn [ToString] in Heq;
    repeat (first [ apply append_inj_r in Heq; now destruct Hne
                  | apply append_inj_l in Heq ]).
  rewrite <- (append_empty_r value), <- (append_empty_r (ToString _)) in Hne.
  apply Hne. f_equal.
  rewrite <- (append_empty_r value), <- (append_empty_r (ToString _)) in Heq.
  now apply append_inj_r in Heq.
Qed.

Lemma cacheKey_changes_with_field_witness :
  cacheKey (setParam "startColor" "#ff0000" grayParams) 0 0.5
  <> cacheKey grayParams 0 0.5.
Proof.
  apply (cacheKey_changes_with_field grayParams "startColor" "#ff0000" 0 0.5).
  - cbn. tauto.
  - intros Heq. vm_compute in Heq. discriminate Heq.
Defined.

Lemma cacheKey_has_hyphen p y sp : has_char "-" (cacheKey p y sp) = true.
Proof.
  unfold cacheKey. rewrite has_char_append.
  apply orb_true_iff. right. reflexivity.
Qed.

(** X10: a cache key always holds a hyphen, so it is never the name of a
    property of [Object.prototype]: a lookup in the cache object finds an
    entry stored earlier or nothing. *)
Theorem cacheKey_is_no_inherited_property p y sp :
  has_char "-" (cacheKey p y sp) = true
  /\ ~ In (cacheKey p y sp) objectPrototypeNames.
Proof.
  split; [apply cacheKey_has_hyphen|].
  intros Hin. pose proof (cacheKey_has_hyphen p y sp) as Hh.
  unfold objectPrototypeNames in Hin. cbn [In] in Hin.
  repeat (destruct Hin as [Hin|Hin]; [rewrite <- Hin in Hh; discriminate Hh|]).
  exact Hin.
Qed.

Section CacheGrowth.
Context `{Host}.

(** X11: a query never removes or alters an entry the cache serves, and
    changes the cache at its own key at most; once it has returned, its
    key serves the string it returned.  Between two resets the cache only
    grows. *)
Theorem getGradientColor_only_adds p y sp cache v cache' :
  getGradientColor p y sp cache = Ret (v, cache') ->
  (forall key w, cachedColor cache key = Some w -> cachedColor cache' key = Some w)
  /\ (forall key, key <> cacheKey p y sp -> cache' !! key = cache !! key)
  /\ cachedColor cache' (cacheKey p y sp) = Some v.
Proof.
  intros Hget.
  destruct (cachedColor cache (cacheKey p y sp)) as [w|] eqn:Hc.
  - rewrite (getGradientColor_hit _ _ _ _ _ Hc) in Hget.
    injection Hget as <- <-. repeat split; auto.
  - rewrite (getGradientColor_miss _ _ _ _ Hc) in Hget.
    destruct (freshColor p y sp) as [w|e] eqn:Hf; [|discriminate].
    cbn [bind] in Hget. injection Hget as <- <-.
    pose proof (freshColor_nonempty _ _ _ _ Hf) as Hne.
    split; [|split].
    + intros key u Hu. rewrite cachedColor_insert by exact Hne.
      destruct (decide (cacheKey p y sp = key)) as [<-|_]; [congruence|exact Hu].
    + intros key Hkey. now apply lookup_insert_ne.
    + rewrite cachedColor_insert by exact Hne. now destruct (decide _).
Qed.

End CacheGrowth.

Lemma getGradientColor_only_adds_witness :
  exists v cache',
    @getGradientColor integerHost grayParams 0 0.5 ∅ = Ret (v, cache')
    /\ cachedColor cache' (cacheKey grayParams 0 0.5) = Some v.
Proof.
  destruct (@getGradientColor integerHost grayParams 0 0.5 ∅)
    as [[v cache']|e] eqn:Hget.
  - exists v, cache'. split; [reflexivity|].
    apply (@getGradientColor_only_adds integerHost grayParams 0 0.5 ∅ v cache' Hget).
  - exfalso. pose proof gray_query_evaluated as Hq. rewrite Hget in Hq. exact Hq.
Defined.

(** *** Rendering without exceptions *)

Section Totality.
Context `{Host}.

Lemma colors_parse_ToString p name :
  colors_parse p -> In name ["startColor"; "midColor"; "endColor"]%string ->
  is_Some (hexToRgb (ToString (prop p name))).
Proof.
  intros Hparse Hname. destruct (Hparse name Hname) as (v & Hv & Hok).
  unfold prop. now rewrite Hv.
Qed.

Lemma mapToColor_total p value :
  colors_parse p ->
  exists rv gv bv,
    mapToColor value (ToString (prop p "startColor")) (ToString (prop p "midColor"))
      (ToString (prop p "endColor")) = Ret (rgbTemplate rv gv bv).
Proof.
  intros Hparse.
  destruct (colors_parse_ToString p "startColor" Hparse ltac:(cbn; tauto)) as [s Hs].
  destruct (colors_parse_ToString p "midColor" Hparse ltac:(cbn; tauto)) as [m Hm].
  destruct (colors_parse_ToString p "endColor" Hparse ltac:(cbn; tauto)) as [e He].
  rewrite (mapToColor_branches value _ _ _ _ _ _ Hs Hm He).
  destruct (PrimFloat.leb value 0.5); eauto.
Qed.

Lemma getGradientColor_total p y sp cache :
  colors_parse p -> exists v cache', getGradientColor p y sp cache = Ret (v, cache').
Proof.
  intros Hparse. unfold getGradientColor.
  destruct (cachedColor cache (cacheKey p y sp)) as [w|]; [eauto|].
  destruct (mapToColor_total p
              (Math_max 0 (Math_min 1 (lerp y sp (ToNumber (prop p "verticalBias")))))
              Hparse) as (rv & gv & bv & ->).
  cbn [bind]. eauto.
Qed.

(** With colours that parse, sampling stop positions ends with a stop at
    each of them, or with the [SyntaxError] of [addColorStop]. *)
Lemma sampleAt_stops p sp : colors_parse p -> forall ys cache,
  (forall y, In y ys -> In y stopPositions) ->
  (exists stops cache',
     sampleAt p sp ys cache = Ret (stops, cache') /\ map fst stops = ys)
  \/ sampleAt p sp ys cache = Throw SyntaxError.
Proof.
  intros Hparse. induction ys as [|y ys IH]; intros cache Hys.
  - left. exists [], cache. split; reflexivity.
  - cbn [sampleAt].
    destruct (getGradientColor_total p y sp cache Hparse) as (v & cache1 & ->).
    cbn [bind]. rewrite (addColorStop_stop y v) by (apply Hys; now left).
    destruct (parsesAsColor v); [|now right]. cbn [bind].
    destruct (IH cache1) as [(stops & cache2 & -> & Hfst)| ->].
    + intros y' Hy'. apply Hys. now right.
    + left. cbn [bind]. exists ((y, v) :: stops), cache2. split; [reflexivity|].
      cbn [map fst]. now rewrite Hfst.
    + now right.
Qed.

(** X12: when the three colour fields parse, the colour path raises no
    [TypeError]: [mapToColor] returns an [rgb(...)] string for every value,
    NaN and values outside [0, 1] included, [getGradientColor] returns for
    every query and cache, and the stop loop ends with six stops at the six
    positions unless [addColorStop] rejects a colour with a
    [SyntaxError]. *)
Theorem colour_path_throws_only_SyntaxError p :
  colors_parse p ->
  (forall value, exists rv gv bv,
      mapToColor value (ToString (prop p "startColor"))
        (ToString (prop p "midColor")) (ToString (prop p "endColor"))
      = Ret (rgbTemplate rv gv bv))
  /\ (forall y sp cache, exists v cache',
         getGradientColor p y sp cache = Ret (v, cache'))
  /\ (forall fuel sp cache, (7 <= fuel)%nat ->
        (exists stops cache',
           colorStops fuel p sp 0 cache [] = Some (Ret (stops, cache'))
           /\ map fst stops = stopPositions)
        \/ colorStops fuel p sp 0 cache [] = Some (Throw SyntaxError)).
Proof.
  intros Hparse. split; [|split].
  - intros value. now apply mapToColor_total.
  - intros y sp cache. now apply getGradientColor_total.
  - intros fuel sp cache Hfuel. rewrite (colorStops_sampleAt _ _ _ _ _ Hfuel).
    destruct (sampleAt_stops p sp Hparse stopPositions cache ltac:(tauto))
      as [(stops & cache' & -> & Hfst)| ->].
    + left. cbn [bind]. now exists stops, cache'.
    + now right.
Qed.

End Totality.

Lemma grayParams_parse : colors_parse grayParams.
Proof.
  intros f Hf. cbn [In] in Hf.
  destruct Hf as [<-|[<-|[<-|[]]]]; exists "#808080"%string;
    (split; [reflexivity|apply gray_parses]).
Qed.

Lemma colour_path_throws_only_SyntaxError_witness :
  (exists stops cache',
     @colorStops integerHost 7 grayParams nan 0 ∅ [] = Some (Ret (stops, cache'))
     /\ map fst stops = stopPositions)
  \/ @colorStops integerHost 7 grayParams nan 0 ∅ [] = Some (Throw SyntaxError).
Proof.
  apply (@colour_path_throws_only_SyntaxError integerHost grayParams grayParams_parse).
  apply le_n.
Defined.

(** *** The strip loop *)

(** Comparing two small integer Numbers is comparing the integers. *)
Lemma of_Z_ltb_table :
  forallb (fun i => forallb (fun n =>
      Bool.eqb (PrimFloat.ltb (of_Z (Z.of_nat i)) (of_Z (Z.of_nat n))) (i <? n)%nat)
    (seq 0 52)) (seq 0 52) = true.
Proof. vm_compute. reflexivity. Qed.

Lemma of_Z_ltb i n : (0 <= i <= 51)%Z -> (0 <= n <= 51)%Z ->
  PrimFloat.ltb (of_Z i) (of_Z n) = (i <? n)%Z.
Proof.
  intros Hi Hn. pose proof of_Z_ltb_table as Ht.
  rewrite forallb_forall in Ht.
  assert (Hi' : In (Z.to_nat i) (seq 0 52)) by (apply in_seq; lia).
  specialize (Ht _ Hi'). cbv beta in Ht. rewrite forallb_forall in Ht.
  assert (Hn' : In (Z.to_nat n) (seq 0 52)) by (apply in_seq; lia).
  specialize (Ht _ Hn'). cbv beta in Ht. apply Bool.eqb_prop in Ht.
  rewrite !Z2Nat.id in Ht by lia. rewrite Ht.
  destruct (Nat.ltb_spec (Z.to_nat i) (Z.to_nat n)), (Z.ltb_spec i n);
    try reflexivity; lia.
Qed.

(** X14: when [params.strips] does not convert to a Number above 0 (the
    field is missing, holds text that is no number, or holds 0 or less),
    the strip loop is not entered: the render draws no strip, raises no
    exception, and leaves the cache as the test on lines 112-114 left it. *)
Theorem render_without_strips `{Host} p canvasHeight cache fuel :
  PrimFloat.ltb 0 (ToNumber (prop p "strips")) = false ->
  renderStrips (S fuel) p canvasHeight cache
  = Some (Ret ([], clearGradientCache p cache)).
Proof.
  intros Hle. unfold renderStrips. cbn [drawStrips].
  change (of_Z 0) with 0%float. now rewrite Hle.
Qed.

Lemma render_without_strips_witness :
  @renderStrips integerHost 1 (delete "strips"%string grayParams) 600 ∅
  = Some (Ret ([], clearGradientCache (delete "strips"%string grayParams) ∅)).
Proof.
  apply (@render_without_strips integerHost). vm_compute. reflexivity.
Defined.

(** *** Strip positions *)

Lemma stripPosition_ends : forall m : nat, (m < 51)%nat -> (2 <= m)%nat ->
  stripPosition (of_Z 0) (of_Z (Z.of_nat m)) = 0%float
  /\ stripPosition (of_Z (Z.of_nat m - 1)) (of_Z (Z.of_nat m)) = 1%float.
Proof.
  intros m Hm Hm2.
  bounded_cases 51 m Hm (first [exfalso; lia | split; vm_compute; reflexivity]).
Qed.

Lemma stripPosition_table :
  forallb (fun m => forallb (fun i =>
      implb (S i <? m)%nat
        (let sp j := stripPosition (of_Z (Z.of_nat j)) (of_Z (Z.of_nat m)) in
         PrimFloat.leb 0 (sp i) && PrimFloat.ltb (sp i) (sp (S i))
         && PrimFloat.leb (sp (S i)) 1))
    (seq 0 51)) (seq 0 51) = true.
Proof. vm_compute. reflexivity. Qed.

(** X15: for every strip count [n] from 2 to 50 the positions
    [i / (n - 1)] of the strips start at exactly 0, end at exactly 1 and
    grow strictly from each strip to the next, so all of them lie in
    [0, 1] and no two strips share a position. *)
Theorem stripPosition_spread n :
  (2 <= n <= 50)%Z ->
  stripPosition (of_Z 0) (of_Z n) = 0%float
  /\ stripPosition (of_Z (n - 1)) (of_Z n) = 1%float
  /\ forall i, (0 <= i)%Z -> (i + 1 < n)%Z ->
       PrimFloat.leb 0 (stripPosition (of_Z i) (of_Z n)) = true
       /\ PrimFloat.ltb (stripPosition (of_Z i) (of_Z n))
            (stripPosition (of_Z (i + 1)) (of_Z n)) = true
       /\ PrimFloat.leb (stripPosition (of_Z (i + 1)) (of_Z n)) 1 = true.
Proof.
  intros Hn.
  destruct (stripPosition_ends (Z.to_nat n) ltac:(lia) ltac:(lia)) as [H0 H1].
  rewrite !Z2Nat.id in H0, H1 by lia. split; [exact H0|]. split; [exact H1|].
  intros i Hi Hin. pose proof stripPosition_table as Ht.
  rewrite forallb_forall in Ht.
  assert (Hn' : In (Z.to_nat n) (seq 0 51)) by (apply in_seq; lia).
  specialize (Ht _ Hn'). cbv beta in Ht. rewrite forallb_forall in Ht.
  assert (Hi' : In (Z.to_nat i) (seq 0 51)) by (apply in_seq; lia).
  specialize (Ht _ Hi'). cbv beta zeta in Ht.
  assert (Hlt : (S (Z.to_nat i) <? Z.to_nat n)%nat = true)
    by (apply Nat.ltb_lt; lia).
  rewrite Hlt in Ht. cbn [implb] in Ht.
  rewrite Nat2Z.inj_succ, !Z2Nat.id in Ht by lia.
  apply andb_prop in Ht as [Ht Hle1]. apply andb_prop in Ht as [Hle0 Hlt'].
  unfold Z.succ in *. now repeat split.
Qed.

Lemma stripPosition_spread_witness :
  stripPosition (of_Z 0) (of_Z 10) = 0%float
  /\ stripPosition (of_Z (10 - 1)) (of_Z 10) = 1%float
  /\ forall i, (0 <= i)%Z -> (i + 1 < 10)%Z ->
       PrimFloat.leb 0 (stripPosition (of_Z i) (of_Z 10)) = true
       /\ PrimFloat.ltb (stripPosition (of_Z i) (of_Z 10))
            (stripPosition (of_Z (i + 1)) (of_Z 10)) = true
       /\ PrimFloat.leb (stripPosition (of_Z (i + 1)) (of_Z 10)) 1 = true.
Proof. apply (stripPosition_spread 10). lia. Defined.

(** *** NaN in a query *)

Lemma mul_nan_r x : (x * nan)%float = nan.
Proof.
  apply Prim2SF_inj. rewrite mul_spec. change (Prim2SF nan) with S754_nan.
  now destruct (Prim2SF x).
Qed.

Lemma mul_nan_l x : (nan * x)%float = nan.
Proof.
  apply Prim2SF_inj. rewrite mul_spec. change (Prim2SF nan) with S754_nan.
  now destruct (Prim2SF x).
Qed.

Lemma add_nan_r x : (x + nan)%float = nan.
Proof.
  apply Prim2SF_inj. rewrite add_spec. change (Prim2SF nan) with S754_nan.
  now destruct (Prim2SF x).
Qed.

Lemma add_nan_l x : (nan + x)%float = nan.
Proof.
  apply Prim2SF_inj. rewrite add_spec. change (Prim2SF nan) with S754_nan.
  now destruct (Prim2SF x).
Qed.

Lemma sub_nan_r x : (x - nan)%float = nan.
Proof.
  apply Prim2SF_inj. rewrite sub_spec. change (Prim2SF nan) with S754_nan.
  now destruct (Prim2SF x).
Qed.

Lemma lerp_nan start end_ t :
  start = nan \/ end_ = nan \/ t = nan -> lerp start end_ t = nan.
Proof.
  unfold lerp. intros [-> | [-> | ->]].
  - now rewrite mul_nan_l, add_nan_l.
  - now rewrite mul_nan_l, add_nan_r.
  - now rewrite !mul_nan_r, add_nan_r.
Qed.

(** X16: a query in which the offset, the strip position or the vertical
    bias is NaN, and that is not in the cache, is answered with the text
    [rgba(NaN,NaN,NaN, 0.5)], which is also what gets cached: NaN passes
    through [lerp], the clamp and [Math.floor].  Only the middle and end
    colours are read on this path. *)
Theorem nan_query_gives_nan_colour `{Host} p y sp cache :
  is_Some (hexToRgb (ToString (prop p "midColor"))) ->
  is_Some (hexToRgb (ToString (prop p "endColor"))) ->
  y = nan \/ sp = nan \/ ToNumber (prop p "verticalBias") = nan ->
  cachedColor cache (cacheKey p y sp) = None ->
  getGradientColor p y sp cache
  = Ret ("rgba(NaN,NaN,NaN, 0.5)"%string,
         <[cacheKey p y sp := "rgba(NaN,NaN,NaN, 0.5)"%string]> cache).
Proof.
  intros [m Hm] [e He] Hnan Hmiss. unfold getGradientColor. rewrite Hmiss.
  rewrite (lerp_nan _ _ _ Hnan).
  change (Math_max 0 (Math_min 1 nan)) with nan.
  unfold mapToColor. rewrite Hm, He.
  change (PrimFloat.leb nan 0.5) with false. cbv iota.
  change ((nan - 0.5) * 2)%float with nan.
  unfold interpolate, channel. cbn [bind].
  rewrite !(lerp_nan _ _ nan) by tauto.
  change (Math_floor nan) with nan.
  reflexivity.
Qed.

Lemma nan_query_gives_nan_colour_witness :
  @getGradientColor integerHost singleStripParams 0 nan ∅
  = Ret ("rgba(NaN,NaN,NaN, 0.5)"%string,
         <[cacheKey singleStripParams 0 nan := "rgba(NaN,NaN,NaN, 0.5)"%string]> ∅).
Proof.
  apply (@nan_query_gives_nan_colour integerHost singleStripParams 0%float nan ∅).
  - exists {| r := 128; g := 128; b := 128 |}. vm_compute. reflexivity.
  - exists {| r := 128; g := 128; b := 128 |}. vm_compute. reflexivity.
  - right. left. reflexivity.
  - reflexivity.
Defined.

(** *** The random pastel colours (lines 4-17) *)

Section Pastel.
Local Open Scope Z_scope.

Lemma digits2_pos_bounds (m : positive) :
  2 ^ (Zpos (digits2_pos m) - 1) <= Zpos m < 2 ^ Zpos (digits2_pos m).
Proof.
  induction m as [m IH|m IH|]; cbn [digits2_pos].
  - rewrite Pos2Z.inj_succ. replace (Z.succ (Zpos (digits2_pos m)) - 1)
      with (Z.succ (Zpos (digits2_pos m) - 1)) by lia.
    rewrite !Z.pow_succ_r by lia. lia.
  - rewrite Pos2Z.inj_succ. replace (Z.succ (Zpos (digits2_pos m)) - 1)
      with (Z.succ (Zpos (digits2_pos m) - 1)) by lia.
    rewrite !Z.pow_succ_r by lia. lia.
  - cbn. lia.
Qed.

Lemma Zdigits2_le m d : 0 <= m -> 0 <= d -> m < 2 ^ d -> Zdigits2 m <= d.
Proof.
  intros Hm Hd Hlt. destruct m as [|m|m]; [cbn; lia| |lia].
  cbn [Zdigits2]. pose proof (digits2_pos_bounds m) as [Hlo _].
  destruct (Z.le_gt_cases (Zpos (digits2_pos m)) d) as [|Hgt]; [assumption|].
  exfalso. assert (2 ^ d <= 2 ^ (Zpos (digits2_pos m) - 1))
    by (apply Z.pow_le_mono_r; lia). lia.
Qed.

Lemma shifted_shr_1 m k mrs :
  0 <= m -> 0 <= k -> shifted m k mrs -> shifted m (k + 1) (shr_1 mrs).
Proof.
  intros Hm Hk [Hq Hr].
  assert (Hpow : 0 < 2 ^ k) by (apply Z.pow_pos_nonneg; lia).
  assert (Hq0 : 0 <= m / 2 ^ k) by (apply Z.div_pos; lia).
  assert (Hdiv : m / 2 ^ (k + 1) = m / 2 ^ k / 2).
  { rewrite Z.pow_add_r, Z.pow_1_r by lia. now rewrite Z.div_div by lia. }
  assert (Hmod : m mod 2 ^ (k + 1) = 2 ^ k * ((m / 2 ^ k) mod 2) + m mod 2 ^ k).
  { rewrite Z.pow_add_r, Z.pow_1_r by lia. rewrite Z.rem_mul_r by lia. lia. }
  destruct mrs as [q r0 s0]. cbn [shr_m shr_r] in *. subst q.
  unfold shifted. rewrite Hdiv, Hmod.
  pose proof (Z.mod_pos_bound m (2 ^ k) Hpow) as Hrem.
  rewrite Z.pow_add_r, Z.pow_1_r by lia.
  destruct (m / 2 ^ k) as [|[q|q|]|q] eqn:Eq; cbn [shr_1 shr_m shr_r]; try lia.
  - split; [reflexivity|discriminate].
  - split; [apply (Z.div_unique _ _ _ 1); lia|intros _].
    replace (Z.pos q~1 mod 2) with 1 by (apply (Z.mod_unique _ _ (Zpos q)); lia). lia.
  - split; [apply (Z.div_unique _ _ _ 0); lia|discriminate].
  - split; [reflexivity|intros _]. change (1 mod 2) with 1. lia.
Qed.

Lemma iter_pos_shifted m : 0 <= m -> forall p k mrs,
  0 <= k -> shifted m k mrs -> shifted m (k + Zpos p) (SpecFloat.iter_pos shr_1 p mrs).
Proof.
  intros Hm. induction p as [p IH|p IH|]; intros k mrs Hk Hs; cbn [SpecFloat.iter_pos].
  - replace (k + Zpos p~1) with (k + 1 + Zpos p + Zpos p) by lia.
    apply IH; [lia|]. apply IH; [lia|]. now apply shifted_shr_1.
  - replace (k + Zpos p~0) with (k + Zpos p + Zpos p) by lia.
    apply IH; [lia|]. now apply IH.
  - now apply shifted_shr_1.
Qed.

Lemma shr_fexp_exact m e mrs e' :
  0 <= m -> shr_fexp prec emax m e loc_Exact = (mrs, e') ->
  exists k, 0 <= k /\ k = Z.max 0 (fexp prec emax (Zdigits2 m + e) - e)
            /\ e' = e + k /\ shifted m k mrs.
Proof.
  intros Hm. unfold shr_fexp, shr. cbn [shr_record_of_loc].
  assert (H0 : shifted m 0 {| shr_m := m; shr_r := false; shr_s := false |}).
  { split; cbn [shr_m shr_r]; [now rewrite Z.pow_0_r, Z.div_1_r|discriminate]. }
  destruct (fexp prec emax (Zdigits2 m + e) - e) as [|p|p] eqn:En;
    intros Heq; injection Heq as <- <-.
  - exists 0. repeat split; try lia; apply H0.
  - exists (Zpos p). split; [lia|]. split; [lia|]. split; [reflexivity|].
    apply (iter_pos_shifted m Hm p 0); [lia|exact H0].
  - exists 0. repeat split; try lia; apply H0.
Qed.

Lemma round_shifted m k mrs :
  0 <= m -> 0 <= k -> shifted m k mrs ->
  let R := round_nearest_even (shr_m mrs) (loc_of_shr_record mrs) in
  0 <= R /\ 2 * (R * 2 ^ k) <= 2 * m + 2 ^ k.
Proof.
  intros Hm Hk [Hq Hr].
  assert (Hpow : 0 < 2 ^ k) by (apply Z.pow_pos_nonneg; lia).
  assert (Hq0 : 0 <= m / 2 ^ k) by (apply Z.div_pos; lia).
  pose proof (Z.div_mod m (2 ^ k) ltac:(lia)) as Hdm.
  pose proof (Z.mod_pos_bound m (2 ^ k) Hpow) as Hrem.
  destruct mrs as [q r0 s0]. cbn [shr_m shr_r] in *. subst q.
  destruct r0, s0; cbn [loc_of_shr_record round_nearest_even].
  - specialize (Hr eq_refl). split; nia.
  - specialize (Hr eq_refl). destruct (Z.even (m / 2 ^ k)); split; nia.
  - split; nia.
  - split; nia.
Qed.

(** Rounding an exact product [P * 2^E] that lies far enough below
    [K <= 128]: the result is a zero or a float below [K]. *)
Lemma binary_round_aux_below P E K :
  0 < P < 2 ^ 106 -> -1120 <= E <= -99 -> 0 < K <= 2 ^ 7 ->
  2 * P + 2 ^ 53 < 2 * (K * 2 ^ (- E)) ->
  binary_round_aux prec emax false P E loc_Exact = S754_zero false
  \/ exists m e, binary_round_aux prec emax false P E loc_Exact = S754_finite false m e
                 /\ e < 0 /\ Zpos m < K * 2 ^ (- e).
Proof.
  intros HP HE HK Hbelow. unfold binary_round_aux.
  destruct (shr_fexp prec emax P E loc_Exact) as [mrs1 e1] eqn:H1.
  apply shr_fexp_exact in H1 as (k & Hk0 & Hk & He1 & Hs1); [|lia].
  destruct (round_shifted P k mrs1 ltac:(lia) Hk0 Hs1) as [HR0 HR].
  set (R := round_nearest_even (shr_m mrs1) (loc_of_shr_record mrs1)) in *.
  destruct (shr_fexp prec emax R e1 loc_Exact) as [mrs2 e2] eqn:H2.
  apply shr_fexp_exact in H2 as (k2 & Hk20 & Hk2 & He2 & [Hq2 _]); [|lia].
  assert (Hd : Zdigits2 P <= 106) by (apply Zdigits2_le; lia).
  unfold fexp, emin, prec, emax in Hk, Hk2.
  assert (Hk53 : k <= 53) by lia.
  assert (He1neg : e1 < 0) by lia.
  assert (Hpk : 0 < 2 ^ k) by (apply Z.pow_pos_nonneg; lia).
  assert (Hpk53 : 2 ^ k <= 2 ^ 53) by (apply Z.pow_le_mono_r; lia).
  assert (Hsplit : 2 ^ (- E) = 2 ^ (- e1) * 2 ^ k).
  { rewrite <- Z.pow_add_r by lia. f_equal. lia. }
  assert (HRK : R < K * 2 ^ (- e1)).
  { apply (Z.mul_lt_mono_pos_r (2 ^ k)); [exact Hpk|]. rewrite Hsplit in Hbelow. lia. }
  assert (Hpe1 : 0 < 2 ^ (- e1)) by (apply Z.pow_pos_nonneg; lia).
  assert (HR7 : R < 2 ^ (7 - e1)).
  { replace (7 - e1) with (7 + - e1) by lia. rewrite Z.pow_add_r by lia. nia. }
  assert (Hd2 : Zdigits2 R <= 7 - e1) by (apply Zdigits2_le; lia).
  assert (He2neg : e2 < 0) by lia.
  assert (Hpk2 : 0 < 2 ^ k2) by (apply Z.pow_pos_nonneg; lia).
  assert (Hsplit2 : 2 ^ (- e1) = 2 ^ (- e2) * 2 ^ k2).
  { rewrite <- Z.pow_add_r by lia. f_equal. lia. }
  assert (Hm2 : 0 <= shr_m mrs2 < K * 2 ^ (- e2)).
  { rewrite Hq2. split; [apply Z.div_pos; lia|].
    apply (Z.mul_lt_mono_pos_r (2 ^ k2)); [exact Hpk2|].
    pose proof (Z.mul_div_le R (2 ^ k2) Hpk2). rewrite Hsplit2 in HRK. lia. }
  destruct (shr_m mrs2) as [|m2|m2]; [now left| |lia].
  right. exists m2, e2.
  replace (e2 <=? emax - prec) with true
    by (symmetry; apply Z.leb_le; unfold emax, prec; lia).
  repeat split; lia.
Qed.


Lemma SFltb_finite m e m' e' :
  SFltb (S754_finite false m e) (S754_finite false m' e') = true ->
  e < e' \/ (e = e' /\ Zpos m < Zpos m').
Proof.
  unfold SFltb, SFcompare. intros Hlt.
  destruct (Z.compare_spec e e') as [He|He|He]; [|now left|discriminate Hlt].
  right. split; [exact He|].
  change (Pos.compare_cont Eq m m') with (Pos.compare m m') in Hlt.
  destruct (Pos.compare_spec m m') as [Hm|Hm|Hm]; try discriminate Hlt. lia.
Qed.

(** What [0 <= u < 1] says of the representation of [u]. *)
Lemma unit_interval_repr u s m e :
  Prim2SF u = S754_finite s m e ->
  PrimFloat.leb 0 u = true -> PrimFloat.ltb u 1 = true ->
  s = false /\ Zpos m < 2 ^ 53 /\ -1074 <= e <= -53.
Proof.
  intros Hu H0 H1. pose proof (Prim2SF_valid u) as Hv.
  rewrite FloatAxioms.leb_spec in H0. rewrite FloatAxioms.ltb_spec in H1.
  rewrite Hu in *. cbn [valid_binary] in Hv. unfold bounded in Hv.
  apply andb_prop in Hv as [Hc _]. unfold canonical_mantissa in Hc.
  apply Z.eqb_eq in Hc. unfold fexp, emin, prec, emax in Hc.
  pose proof (digits2_pos_bounds m) as [Hlo Hhi].
  assert (Hs : s = false).
  { destruct s; [|reflexivity]. vm_compute in H0. discriminate H0. }
  subst s. split; [reflexivity|].
  assert (Hd : Zpos (digits2_pos m) <= 53) by lia.
  assert (Hm : Zpos m < 2 ^ 53).
  { assert (2 ^ Zpos (digits2_pos m) <= 2 ^ 53) by (apply Z.pow_le_mono_r; lia). lia. }
  split; [exact Hm|]. split; [lia|].
  change (Prim2SF 1) with (S754_finite false 4503599627370496 (-52)) in H1.
  apply SFltb_finite in H1 as [He|[He Hm52]]; [lia|].
  exfalso.
  assert (Hd53 : Zpos (digits2_pos m) = 53) by lia.
  rewrite Hd53 in Hlo. change (2 ^ (53 - 1)) with 4503599627370496 in Hlo. lia.
Qed.

(** What validity says of a representation. *)
Lemma canonical_bounds x s m e :
  Prim2SF x = S754_finite s m e ->
  Zpos m < 2 ^ 53 /\ -1074 <= e /\ (-1074 < e -> 2 ^ 52 <= Zpos m).
Proof.
  intros Hx. pose proof (Prim2SF_valid x) as Hv. rewrite Hx in Hv.
  cbn [valid_binary] in Hv. unfold bounded in Hv.
  apply andb_prop in Hv as [Hc _]. unfold canonical_mantissa in Hc.
  apply Z.eqb_eq in Hc. unfold fexp, emin, prec, emax in Hc.
  pose proof (digits2_pos_bounds m) as [Hlo Hhi].
  assert (Hd : Zpos (digits2_pos m) <= 53) by lia.
  split; [|split; [lia|]].
  - assert (2 ^ Zpos (digits2_pos m) <= 2 ^ 53) by (apply Z.pow_le_mono_r; lia). lia.
  - intros He. assert (Hd53 : Zpos (digits2_pos m) = 53) by lia.
    rewrite Hd53 in Hlo. exact Hlo.
Qed.

(** An integer from 1 to 255 has one canonical representation with a
    negative exponent, that of [of_Z]. *)
Lemma byte_repr_table :
  forallb (fun q => forallb (fun k =>
      implb (canonical_mantissa prec emax (Z.to_pos (Z.of_nat q * 2 ^ Z.of_nat k))
               (- Z.of_nat k))
        match Prim2SF (of_Z (Z.of_nat q)) with
        | S754_finite false m' e' =>
            Pos.eqb m' (Z.to_pos (Z.of_nat q * 2 ^ Z.of_nat k)) && Z.eqb e' (- Z.of_nat k)
        | _ => false
        end)
    (seq 1 52)) (seq 1 255) = true.
Proof. vm_compute. reflexivity. Qed.

Lemma byte_repr x m e q :
  Prim2SF x = S754_finite false m e ->
  e < 0 -> 1 <= q <= 255 -> Zpos m = q * 2 ^ (- e) -> x = of_Z q.
Proof.
  intros Hx He Hq Hm.
  destruct (canonical_bounds x false m e Hx) as (Hm53 & _ & _).
  assert (Hk : - e < 53).
  { destruct (Z.lt_ge_cases (- e) 53) as [|Hge]; [assumption|exfalso].
    assert (2 ^ 53 <= 2 ^ (- e)) by (apply Z.pow_le_mono_r; lia). nia. }
  pose proof (Prim2SF_valid x) as Hv.
  rewrite Hx in Hv. cbn [valid_binary] in Hv. unfold bounded in Hv.
  apply andb_prop in Hv as [Hc _].
  pose proof byte_repr_table as Ht. rewrite forallb_forall in Ht.
  assert (Hq' : In (Z.to_nat q) (seq 1 255)) by (apply in_seq; lia).
  specialize (Ht _ Hq'). cbv beta in Ht. rewrite forallb_forall in Ht.
  assert (Hk' : In (Z.to_nat (- e)) (seq 1 52)) by (apply in_seq; lia).
  specialize (Ht _ Hk'). cbv beta in Ht.
  rewrite !Z2Nat.id in Ht by lia. rewrite <- Hm in Ht. cbn [Z.to_pos] in Ht.
  rewrite Z.opp_involutive in Ht. rewrite Hc in Ht. cbn [implb] in Ht.
  apply Prim2SF_inj. rewrite Hx.
  destruct (Prim2SF (of_Z q)) as [| | |[|] m' e']; try discriminate Ht.
  apply andb_prop in Ht as [Hm' He']. apply Pos.eqb_eq in Hm'. apply Z.eqb_eq in He'.
  now subst.
Qed.

(** [Math.floor] of a positive float below 102. *)
Lemma Math_floor_below_102 x m e :
  Prim2SF x = S754_finite false m e -> e < 0 -> Zpos m < 102 * 2 ^ (- e) ->
  exists q, 0 <= q <= 101 /\ Math_floor x = of_Z q.
Proof.
  intros Hx He Hm. unfold Math_floor. rewrite Hx.
  destruct (Z.leb_spec 0 e) as [|_]; [lia|].
  rewrite Z.shiftr_div_pow2, Z.shiftl_mul_pow2 by lia.
  assert (Hp : 0 < 2 ^ (- e)) by (apply Z.pow_pos_nonneg; lia).
  assert (Hq : 0 <= Zpos m / 2 ^ (- e) <= 101).
  { split; [apply Z.div_pos; lia|].
    assert (Zpos m / 2 ^ (- e) < 102) by (apply Z.div_lt_upper_bound; lia). lia. }
  destruct (Z.eqb_spec (Zpos m) (Zpos m / 2 ^ (- e) * 2 ^ (- e))) as [Hex|_].
  - exists (Zpos m / 2 ^ (- e)). split; [exact Hq|].
    apply (byte_repr x m e); [exact Hx|exact He| |exact Hex].
    assert (Zpos m / 2 ^ (- e) <> 0) by (intros H0; rewrite H0 in Hex; lia). lia.
  - exists (Zpos m / 2 ^ (- e)). now split.
Qed.

Lemma pastel_offset : forall q : nat, (q < 102)%nat ->
  (of_Z (Z.of_nat q) + 128)%float = of_Z (Z.of_nat q + 128)
  /\ integer_of (of_Z (Z.of_nat q + 128)) = Z.of_nat q + 128.
Proof.
  intros q Hq. bounded_cases 102 q Hq (split; vm_compute; reflexivity).
Qed.

(** One channel of [generateRandomPastelColor]. *)
Lemma pastel_channel u :
  PrimFloat.leb 0 u = true -> PrimFloat.ltb u 1 = true ->
  exists q, 0 <= q <= 101
            /\ integer_of (Math_floor (u * 102) + 128)%float = q + 128.
Proof.
  intros H0 H1.
  assert (Hfin : forall q, 0 <= q <= 101 -> Math_floor (u * 102)%float = of_Z q ->
            integer_of (Math_floor (u * 102) + 128)%float = q + 128).
  { intros q Hq ->. destruct (pastel_offset (Z.to_nat q) ltac:(lia)) as [Ha Hi].
    rewrite !Z2Nat.id in Ha, Hi by lia. now rewrite Ha. }
  assert (Hzero : forall s, Prim2SF (u * 102)%float = S754_zero s ->
            integer_of (Math_floor (u * 102) + 128)%float = 0 + 128).
  { intros s Hs.
    assert (Hx : (u * 102)%float = (if s then (-0)%float else 0%float)).
    { apply Prim2SF_inj. rewrite Hs. now destruct s. }
    rewrite Hx. now destruct s. }
  pose proof (mul_spec u 102) as Hmul.
  change (Prim2SF 102) with (S754_finite false 7177611906121728 (-46)) in Hmul.
  destruct (Prim2SF u) as [s|s| |s m e] eqn:Hu.
  - exists 0. split; [lia|]. apply (Hzero (xorb s false)). exact Hmul.
  - exfalso. rewrite FloatAxioms.leb_spec in H0. rewrite FloatAxioms.ltb_spec in H1.
    rewrite Hu in H0, H1. destruct s; [discriminate H0|discriminate H1].
  - exfalso. rewrite FloatAxioms.leb_spec, Hu in H0. discriminate H0.
  - destruct (unit_interval_repr u s m e Hu H0 H1) as (-> & Hm & He).
    unfold SF64mul, SFmul in Hmul. cbn [xorb] in Hmul.
    rewrite Pos2Z.inj_mul in Hmul.
    destruct (binary_round_aux_below (Zpos m * 7177611906121728) (e + -46) 102)
      as [Hz|(m' & e' & Hr & He' & Hm')].
    + change (2 ^ 106) with (2 ^ 53 * 2 ^ 53). change (2 ^ 53) with 9007199254740992 in *.
      nia.
    + lia.
    + change (2 ^ 7) with 128. lia.
    + replace (- (e + -46)) with (- e + 46) by lia. rewrite Z.pow_add_r by lia.
      assert (2 ^ 53 <= 2 ^ (- e)) by (apply Z.pow_le_mono_r; lia).
      change (2 ^ 46) with 70368744177664. change (2 ^ 53) with 9007199254740992 in *.
      nia.
    + exists 0. split; [lia|]. apply (Hzero false). now rewrite Hmul.
    + rewrite <- Hmul in Hr.
      destruct (Math_floor_below_102 _ _ _ Hr He' Hm') as (q & Hq & Hfl).
      exists q. split; [exact Hq|]. now apply Hfin.
Qed.

(** X17: whatever [Math.random()] returns, below 1 and not below 0, each
    channel of [generateRandomPastelColor] is an integer from 128 to 229
    (230 is never reached), and the string returned is [#] and six
    hexadecimal digits that [hexToRgb] reads back as these channels. *)
Theorem generateRandomPastelColor_parses u1 u2 u3 :
  in_unit_interval u1 -> in_unit_interval u2 -> in_unit_interval u3 ->
  exists rv gv bv,
    (128 <= rv <= 229 /\ 128 <= gv <= 229 /\ 128 <= bv <= 229)
    /\ generateRandomPastelColor u1 u2 u3 = rgbToHex rv gv bv
    /\ String.length (generateRandomPastelColor u1 u2 u3) = 7%nat
    /\ hexToRgb (generateRandomPastelColor u1 u2 u3)
       = Some {| r := rv; g := gv; b := bv |}.
Proof.
  intros [H1 H1'] [H2 H2'] [H3 H3'].
  destruct (pastel_channel u1 H1 H1') as (q1 & Hq1 & E1).
  destruct (pastel_channel u2 H2 H2') as (q2 & Hq2 & E2).
  destruct (pastel_channel u3 H3 H3') as (q3 & Hq3 & E3).
  exists (q1 + 128), (q2 + 128), (q3 + 128). split; [lia|].
  unfold generateRandomPastelColor. rewrite E1, E2, E3.
  split; [reflexivity|]. unfold rgbToHex.
  destruct (toHex_byte (q1 + 128) ltac:(lia)) as [-> Hp1].
  destruct (toHex_byte (q2 + 128) ltac:(lia)) as [-> Hp2].
  destruct (toHex_byte (q3 + 128) ltac:(lia)) as [-> Hp3].
  split; [reflexivity|].
  set (r1 := hex_char ((q1 + 128) / 16)) in *. set (r2 := hex_char ((q1 + 128) mod 16)) in *.
  set (g1 := hex_char ((q2 + 128) / 16)) in *. set (g2 := hex_char ((q2 + 128) mod 16)) in *.
  set (b1 := hex_char ((q3 + 128) / 16)) in *. set (b2 := hex_char ((q3 + 128) mod 16)) in *.
  change (hexToRgb _)
    with (match hex_pair r1 r2, hex_pair g1 g2, hex_pair b1 b2 with
          | Some r, Some g, Some b => Some {| r := r; g := g; b := b |}
          | _, _, _ => None
          end).
  now rewrite Hp1, Hp2, Hp3.
Qed.

Lemma half_in_unit_interval : in_unit_interval 0.5.
Proof. split; reflexivity. Qed.

Lemma generateRandomPastelColor_parses_witness :
  exists rv gv bv,
    (128 <= rv <= 229 /\ 128 <= gv <= 229 /\ 128 <= bv <= 229)
    /\ generateRandomPastelColor 0.5 0.5 0.5 = rgbToHex rv gv bv
    /\ String.length (generateRandomPastelColor 0.5 0.5 0.5) = 7%nat
    /\ hexToRgb (generateRandomPastelColor 0.5 0.5 0.5)
       = Some {| r := rv; g := gv; b := bv |}.
Proof.
  apply (generateRandomPastelColor_parses 0.5 0.5 0.5);
    split; reflexivity.
Defined.

Lemma pastel_parses u1 u2 u3 :
  in_unit_interval u1 -> in_unit_interval u2 -> in_unit_interval u3 ->
  is_Some (hexToRgb (generateRandomPastelColor u1 u2 u3)).
Proof.
  intros [H1 H1'] [H2 H2'] [H3 H3'].
  destruct (pastel_channel u1 H1 H1') as (q1 & Hq1 & E1).
  destruct (pastel_channel u2 H2 H2') as (q2 & Hq2 & E2).
  destruct (pastel_channel u3 H3 H3') as (q3 & Hq3 & E3).
  unfold generateRandomPastelColor. rewrite E1, E2, E3. unfold rgbToHex.
  destruct (toHex_byte (q1 + 128) ltac:(lia)) as [-> Hp1].
  destruct (toHex_byte (q2 + 128) ltac:(lia)) as [-> Hp2].
  destruct (toHex_byte (q3 + 128) ltac:(lia)) as [-> Hp3].
  exists {| r := q1 + 128; g := q2 + 128; b := q3 + 128 |}.
  set (r1 := hex_char ((q1 + 128) / 16)) in *. set (r2 := hex_char ((q1 + 128) mod 16)) in *.
  set (g1 := hex_char ((q2 + 128) / 16)) in *. set (g2 := hex_char ((q2 + 128) mod 16)) in *.
  set (b1 := hex_char ((q3 + 128) / 16)) in *. set (b2 := hex_char ((q3 + 128) mod 16)) in *.
  change (hexToRgb _)
    with (match hex_pair r1 r2, hex_pair g1 g2, hex_pair b1 b2 with
          | Some r, Some g, Some b => Some {| r := r; g := g; b := b |}
          | _, _, _ => None
          end).
  now rewrite Hp1, Hp2, Hp3.
Qed.

End Pastel.

(** X18: from the moment the component is mounted with its three random
    colours, and as long as the change events come from the controls, the
    three colour fields parse and [getGradientColor] answers every query
    without an exception: the [TypeError] of reading a channel of [null]
    cannot be reached from the panel. *)
Theorem mounted_component_colours_parse `{Host} random acts :
  (forall k, in_unit_interval (random k)) ->
  Forall fired_by_control acts ->
  colors_parse (params (run acts (mountedComponent random)))
  /\ forall y sp cache, exists v cache',
       getGradientColor (params (run acts (mountedComponent random))) y sp cache
       = Ret (v, cache').
Proof.
  intros Hrandom Hacts.
  assert (Hinit : panel_invariant (mountedComponent random)).
  { unfold mountedComponent.
    apply panel_invariant_initial; apply pastel_parses; apply Hrandom. }
  destruct (panel_invariant_run acts _ Hacts Hinit) as (_ & _ & _ & Hparse).
  split; [exact Hparse|].
  intros y sp cache. now apply getGradientColor_total.
Qed.

Lemma mounted_component_colours_parse_witness :
  colors_parse (params (run sampleSession (mountedComponent (fun _ => 0.5%float))))
  /\ forall y sp cache, exists v cache',
       @getGradientColor integerHost
         (params (run sampleSession (mountedComponent (fun _ => 0.5%float)))) y sp cache
       = Ret (v, cache').
Proof.
  apply (@mounted_component_colours_parse integerHost (fun _ => 0.5%float) sampleSession).
  - intros _. exact half_in_unit_interval.
  - exact sampleSession_fired.
Defined.

(** *** The cache within a render *)

Section CacheKeys.
Local Open Scope Z_scope.

Lemma distinct_NoDup l : distinct l = true -> NoDup l.
Proof.
  induction l as [|x l IH]; cbn [distinct]; intros Hd; [constructor|].
  apply andb_prop in Hd as [Hx Hl]. constructor; [|now apply IH].
  intros Hin. apply negb_true_iff in Hx.
  assert (existsb (String.eqb x) l = true); [|congruence].
  apply existsb_exists. exists x. split; [now apply list_elem_of_In|apply String.eqb_refl].
Qed.

Lemma stripPosition_text_table :
  forallb (fun n => distinct (map (fun i =>
      Number_toString (stripPosition (of_Z (Z.of_nat i)) (of_Z (Z.of_nat n)))) (seq 0 n)))
    (seq 1 50) = true.
Proof. vm_compute. reflexivity. Qed.

Lemma stripPosition_text_inj n i j :
  1 <= n <= 50 -> 0 <= i < n -> 0 <= j < n ->
  Number_toString (stripPosition (of_Z i) (of_Z n))
  = Number_toString (stripPosition (of_Z j) (of_Z n)) -> i = j.
Proof.
  intros Hn Hi Hj Heq. pose proof stripPosition_text_table as Ht.
  rewrite forallb_forall in Ht.
  assert (Hn' : In (Z.to_nat n) (seq 1 50)) by (apply in_seq; lia).
  specialize (Ht _ Hn'). cbv beta in Ht. apply distinct_NoDup in Ht.
  rewrite Z2Nat.id in Ht by lia.
  assert (Hl : forall a, 0 <= a < n ->
            map (fun i => Number_toString (stripPosition (of_Z (Z.of_nat i)) (of_Z n)))
              (seq 0 (Z.to_nat n)) !! Z.to_nat a
            = Some (Number_toString (stripPosition (of_Z a) (of_Z n)))).
  { intros a Ha. change (map ?f ?l) with (f <$> l). rewrite list_lookup_fmap.
    rewrite lookup_seq_lt by lia. cbn. now rewrite Z2Nat.id by lia. }
  pose proof (Hl i Hi) as Hli. pose proof (Hl j Hj) as Hlj. rewrite <- Heq in Hlj.
  pose proof (NoDup_lookup _ _ _ _ Ht Hli Hlj). lia.
Qed.

Lemma stop_texts :
  map Number_toString stopPositions
  = ["0"; "0.2"; "0.4"; "0.6000000000000001"; "0.8"; "1"]%string.
Proof. vm_compute. reflexivity. Qed.

Lemma stop_text_inj y1 y2 :
  In y1 stopPositions -> In y2 stopPositions ->
  Number_toString y1 = Number_toString y2 -> y1 = y2.
Proof.
  intros H1 H2. cbn [In stopPositions] in H1, H2.
  destruct H1 as [<-|[<-|[<-|[<-|[<-|[<-|[]]]]]]];
    destruct H2 as [<-|[<-|[<-|[<-|[<-|[<-|[]]]]]]];
    intros Heq; try reflexivity; vm_compute in Heq; discriminate Heq.
Qed.

Lemma stop_text_no_hyphen y :
  In y stopPositions -> has_char "-" (Number_toString y) = false.
Proof.
  intros H1. cbn [In stopPositions] in H1.
  destruct H1 as [<-|[<-|[<-|[<-|[<-|[<-|[]]]]]]]; vm_compute; reflexivity.
Qed.

Lemma hyphen_split (a1 a2 r1 r2 : string) :
  has_char "-" a1 = false -> has_char "-" a2 = false ->
  a1 +:+ "-" +:+ r1 = a2 +:+ "-" +:+ r2 -> a1 = a2 /\ r1 = r2.
Proof.
  revert a2. induction a1 as [|c a1 IH]; intros [|d a2] H1 H2 Heq; simpl in Heq.
  - injection Heq as Heq. now split.
  - injection Heq as <- _. simpl in H2. discriminate H2.
  - injection Heq as -> _. simpl in H1. discriminate H1.
  - injection Heq as -> Heq.
    cbn [has_char] in H1, H2. apply orb_false_iff in H1 as [_ H1].
    apply orb_false_iff in H2 as [_ H2].
    destruct (IH a2 H1 H2 Heq) as [-> ->]. now split.
Qed.

Lemma cacheKey_inj p y1 sp1 y2 sp2 :
  In y1 stopPositions -> In y2 stopPositions ->
  cacheKey p y1 sp1 = cacheKey p y2 sp2 ->
  y1 = y2 /\ Number_toString sp1 = Number_toString sp2.
Proof.
  intros H1 H2 Heq. unfold cacheKey in Heq.
  apply hyphen_split in Heq as [Hy Hrest]; try now apply stop_text_no_hyphen.
  split; [now apply stop_text_inj|].
  now apply append_inj_r in Hrest.
Qed.

Lemma stop_positions_NoDup : NoDup stopPositions.
Proof.
  assert (Hd : NoDup (map Number_toString stopPositions))
    by (rewrite stop_texts; apply distinct_NoDup; reflexivity).
  now apply (NoDup_fmap_1 Number_toString).
Qed.

Lemma elem_of_queriesFrom n q : forall k i,
  q ∈ queriesFrom n i k ->
  exists j y, i <= j < i + Z.of_nat k /\ In y stopPositions
              /\ q = (y, stripPosition (of_Z j) (of_Z n)).
Proof.
  induction k as [|k IH]; intros i Hq; cbn [queriesFrom] in Hq.
  - now apply elem_of_nil in Hq.
  - apply elem_of_app in Hq as [Hq|Hq].
    + unfold stripQueries in Hq. apply list_elem_of_In, in_map_iff in Hq as (y & <- & Hy).
      exists i, y. repeat split; [lia|lia|exact Hy].
    + destruct (IH _ Hq) as (j & y & Hj & Hy & ->). exists j, y. repeat split; [lia|lia|exact Hy].
Qed.

Lemma length_queriesFrom n : forall k i, length (queriesFrom n i k) = (6 * k)%nat.
Proof.
  induction k as [|k IH]; intros i; [reflexivity|].
  cbn [queriesFrom]. rewrite length_app, IH. cbn. lia.
Qed.

End CacheKeys.

Section NoHit.
Local Open Scope Z_scope.
Context `{Host}.
Variable p : gmap string jsval.
Variable n : Z.
Hypothesis Hparse : colors_parse p.
Hypothesis Hn : 1 <= n <= 50.

Lemma strip_keys_NoDup i : NoDup (map (queryKey p) (stripQueries n i)).
Proof.
  unfold stripQueries. rewrite map_map.
  apply (NoDup_fmap_2_strong (fun y => queryKey p (y, stripPosition (of_Z i) (of_Z n))));
    [|exact stop_positions_NoDup].
  intros y1 y2 H1%list_elem_of_In H2%list_elem_of_In Heq.
  now destruct (cacheKey_inj _ _ _ _ _ H1 H2 Heq).
Qed.

Lemma strip_keys_apart i k q1 q2 :
  0 <= i -> i + 1 + Z.of_nat k <= n ->
  q1 ∈ stripQueries n i -> q2 ∈ queriesFrom n (i + 1) k -> queryKey p q1 <> queryKey p q2.
Proof.
  intros Hi Hik H1 H2 Heq.
  unfold stripQueries in H1. apply list_elem_of_In, in_map_iff in H1 as (y1 & <- & Hy1).
  destruct (elem_of_queriesFrom _ _ _ _ H2) as (j & y2 & Hj & Hy2 & ->).
  destruct (cacheKey_inj _ _ _ _ _ Hy1 Hy2 Heq) as [_ Hsp].
  apply stripPosition_text_inj in Hsp; lia.
Qed.

Lemma render_keys_NoDup : forall k i,
  0 <= i -> i + Z.of_nat k <= n -> NoDup (map (queryKey p) (queriesFrom n i k)).
Proof.
  induction k as [|k IH]; intros i Hi Hik; cbn [queriesFrom]; [constructor|].
  rewrite map_app. apply NoDup_app. split; [apply strip_keys_NoDup|].
  split; [|apply IH; lia].
  intros key H1 H2.
  apply list_elem_of_In, in_map_iff in H1 as (q1 & <- & H1).
  apply list_elem_of_In, in_map_iff in H2 as (q2 & Heq & H2).
  apply list_elem_of_In in H1, H2.
  now apply (strip_keys_apart i k q1 q2 Hi ltac:(lia) H1 H2).
Qed.

End NoHit.

Lemma colors_parse_clears `{Host} p cache :
  colors_parse p -> clearGradientCache p cache = ∅.
Proof.
  intros Hparse.
  destruct (Hparse "startColor"%string ltac:(cbn; tauto)) as (v & Hv & Hok).
  unfold clearGradientCache, prop. rewrite Hv. cbn [default ToBoolean].
  destruct v as [|c v]; [|reflexivity]. now destruct Hok.
Qed.

(** *** Rounding on a fine grid *)

Section FineGrid.
Local Open Scope Z_scope.

Lemma pow_split a b : 0 <= a -> 0 <= b -> 2 ^ (a + b) = 2 ^ a * 2 ^ b.
Proof. intros. now apply Z.pow_add_r. Qed.

Lemma iter_xO m d : Zpos (Pos.iter xO m d) = Zpos m * 2 ^ Zpos d.
Proof.
  induction d as [|d IH] using Pos.peano_ind.
  - cbn [Pos.iter]. rewrite Z.pow_1_r. lia.
  - rewrite Pos.iter_succ, Pos2Z.inj_succ, Z.pow_succ_r by lia.
    rewrite Pos2Z.inj_xO, IH. lia.
Qed.

Lemma shl_align_value m e e' :
  snd (shl_align m e e') <= e
  /\ Zpos (fst (shl_align m e e')) = Zpos m * 2 ^ (e - snd (shl_align m e e')).
Proof.
  unfold shl_align. destruct (e' - e) as [|d|d] eqn:Hd; cbn [fst snd].
  - rewrite Z.sub_diag. split; lia.
  - rewrite Z.sub_diag. split; lia.
  - split; [lia|]. rewrite iter_xO. f_equal. f_equal. lia.
Qed.

Lemma shl_align_fst m e e' :
  e' <= e -> Zpos (fst (shl_align m e e')) = Zpos m * 2 ^ (e - e').
Proof.
  intros Hle. unfold shl_align. destruct (e' - e) as [|d|d] eqn:Hd; cbn [fst].
  - replace (e - e') with 0 by lia. lia.
  - lia.
  - rewrite iter_xO. f_equal. f_equal. lia.
Qed.

Section Grid.
Variable g : Z.
Hypothesis Hg : 0 <= g <= 44.

(** The first or second shift of [binary_round_aux], for a value below
    256: the grid it rounds to is at least as fine as [2^-g], so bounds
    that are multiples of [2^-g] are kept. *)
Lemma shr_fexp_fine M0 E0 N0 mrs e1 :
  0 <= M0 -> E0 <= - g -> 0 <= N0 <= 2 ^ (g + 8) -> M0 <= N0 * 2 ^ (- g - E0) ->
  shr_fexp prec emax M0 E0 loc_Exact = (mrs, e1) ->
  E0 <= e1 <= - g
  /\ 0 <= shr_m mrs <= round_nearest_even (shr_m mrs) (loc_of_shr_record mrs)
  /\ (forall N, M0 <= N * 2 ^ (- g - E0) ->
        round_nearest_even (shr_m mrs) (loc_of_shr_record mrs) <= N * 2 ^ (- g - e1))
  /\ (forall N, N * 2 ^ (- g - E0) <= M0 -> N * 2 ^ (- g - e1) <= shr_m mrs).
Proof.
  intros HM HE HN Hle Hshr.
  apply shr_fexp_exact in Hshr as (k & Hk0 & Hk & He1 & [Hq Hr]); [|exact HM].
  assert (HpE : 0 < 2 ^ (- g - E0)) by (apply Z.pow_pos_nonneg; lia).
  assert (Hd : Zdigits2 M0 <= 9 - E0).
  { apply Zdigits2_le; [exact HM|lia|].
    replace (9 - E0) with (1 + ((g + 8) + (- g - E0))) by lia.
    rewrite (pow_split 1), (pow_split (g + 8)) by lia.
    assert (0 < 2 ^ (g + 8)) by (apply Z.pow_pos_nonneg; lia).
    change (2 ^ 1) with 2. nia. }
  unfold fexp, emin, prec, emax in Hk.
  assert (He : E0 <= e1 <= - g) by lia.
  split; [exact He|].
  assert (Hpk : 0 < 2 ^ k) by (apply Z.pow_pos_nonneg; lia).
  assert (HT : 0 < 2 ^ (- g - e1)) by (apply Z.pow_pos_nonneg; lia).
  assert (Hsplit : 2 ^ (- g - E0) = 2 ^ (- g - e1) * 2 ^ k).
  { rewrite <- pow_split by lia. f_equal. lia. }
  pose proof (Z.div_mod M0 (2 ^ k) ltac:(lia)) as Hdm.
  pose proof (Z.mod_pos_bound M0 (2 ^ k) Hpk) as Hrem.
  assert (Hq0 : 0 <= M0 / 2 ^ k) by (apply Z.div_pos; lia).
  destruct mrs as [q r0 s0]. cbn [shr_m shr_r] in *. subst q.
  split; [|split].
  - split; [exact Hq0|].
    destruct r0, s0; cbn [loc_of_shr_record round_nearest_even];
      try destruct (Z.even _); lia.
  - intros N HNle. rewrite Hsplit in HNle.
    assert (Hfloor : M0 / 2 ^ k <= N * 2 ^ (- g - e1))
      by (apply Z.div_le_upper_bound; [exact Hpk|lia]).
    destruct r0.
    + specialize (Hr eq_refl).
      assert (M0 / 2 ^ k + 1 <= N * 2 ^ (- g - e1)).
      { destruct (Z.le_gt_cases (M0 / 2 ^ k + 1) (N * 2 ^ (- g - e1))) as [|Hgt];
          [assumption|exfalso].
        assert (N * 2 ^ (- g - e1) <= M0 / 2 ^ k) by lia.
        assert (2 ^ k * (N * 2 ^ (- g - e1)) <= 2 ^ k * (M0 / 2 ^ k))
          by (apply Z.mul_le_mono_nonneg_l; lia).
        lia. }
      destruct s0; cbn [loc_of_shr_record round_nearest_even];
        try destruct (Z.even _); lia.
    + destruct s0; cbn [loc_of_shr_record round_nearest_even]; lia.
  - intros N HNge. rewrite Hsplit in HNge.
    apply Z.div_le_lower_bound; [exact Hpk|lia].
Qed.

Lemma binary_round_aux_fine s P E N :
  0 < P -> E <= - g -> 0 <= N <= 2 ^ (g + 8) -> P <= N * 2 ^ (- g - E) ->
  (binary_round_aux prec emax s P E loc_Exact = S754_zero s
   \/ exists m e, binary_round_aux prec emax s P E loc_Exact = S754_finite s m e
                  /\ e <= - g /\ Zpos m <= N * 2 ^ (- g - e))
  /\ (forall N', 0 < N' -> N' * 2 ^ (- g - E) <= P ->
        exists m e, binary_round_aux prec emax s P E loc_Exact = S754_finite s m e
                    /\ e <= - g
                    /\ N' * 2 ^ (- g - e) <= Zpos m <= N * 2 ^ (- g - e)).
Proof.
  intros HP HE HN Hle. unfold binary_round_aux.
  destruct (shr_fexp prec emax P E loc_Exact) as [mrs1 e1] eqn:H1.
  destruct (shr_fexp_fine P E N mrs1 e1 ltac:(lia) HE HN Hle H1)
    as (He1 & Hq1 & Hup1 & Hlo1).
  set (R := round_nearest_even (shr_m mrs1) (loc_of_shr_record mrs1)) in *.
  destruct (shr_fexp prec emax R e1 loc_Exact) as [mrs2 e2] eqn:H2.
  destruct (shr_fexp_fine R e1 N mrs2 e2 ltac:(lia) ltac:(lia) HN (Hup1 N Hle) H2)
    as (He2 & Hq2 & Hup2 & Hlo2).
  pose proof (Hup2 N (Hup1 N Hle)) as Hup.
  assert (HT : 0 < 2 ^ (- g - e2)) by (apply Z.pow_pos_nonneg; lia).
  assert (Hfin : (e2 <=? emax - prec) = true)
    by (apply Z.leb_le; unfold emax, prec; lia).
  destruct (shr_m mrs2) as [|m2|m2] eqn:Hm2.
  - split; [now left|]. intros N' HN' Hge.
    pose proof (Hlo2 N' ltac:(pose proof (Hlo1 N' Hge); lia)). nia.
  - rewrite Hfin. split; [right; exists m2, e2; repeat split; lia|].
    intros N' HN' Hge. exists m2, e2.
    pose proof (Hlo2 N' ltac:(pose proof (Hlo1 N' Hge); lia)).
    repeat split; lia.
  - lia.
Qed.

Lemma binary_round_fine s m E N :
  E <= - g -> 0 <= N <= 2 ^ (g + 8) -> Zpos m <= N * 2 ^ (- g - E) ->
  (binary_round prec emax s m E = S754_zero s
   \/ exists m' e, binary_round prec emax s m E = S754_finite s m' e
                   /\ e <= - g /\ Zpos m' <= N * 2 ^ (- g - e))
  /\ (forall N', 0 < N' -> N' * 2 ^ (- g - E) <= Zpos m ->
        exists m' e, binary_round prec emax s m E = S754_finite s m' e
                     /\ e <= - g
                     /\ N' * 2 ^ (- g - e) <= Zpos m' <= N * 2 ^ (- g - e)).
Proof.
  intros HE HN Hle. unfold binary_round.
  pose proof (shl_align_value m E (fexp prec emax (Zpos (digits2_pos m) + E)))
    as [Hez Hmz].
  destruct (shl_align m E (fexp prec emax (Zpos (digits2_pos m) + E))) as [mz ez].
  cbn [fst snd] in Hez, Hmz.
  assert (Hp : 0 < 2 ^ (E - ez)) by (apply Z.pow_pos_nonneg; lia).
  assert (Hsplit : 2 ^ (- g - ez) = 2 ^ (- g - E) * 2 ^ (E - ez)).
  { rewrite <- pow_split by lia. f_equal. lia. }
  destruct (binary_round_aux_fine s (Zpos mz) ez N ltac:(lia) ltac:(lia) HN)
    as [Hmag Hlow].
  { rewrite Hmz, Hsplit. nia. }
  split; [exact Hmag|]. intros N' HN' Hge. apply Hlow; [exact HN'|].
  rewrite Hmz, Hsplit. nia.
Qed.

Lemma binary_normalize_fine M E N :
  E <= - g -> 0 <= N <= 2 ^ (g + 8) -> Z.abs M <= N * 2 ^ (- g - E) ->
  mag_le g (binary_normalize prec emax M E false) N
  /\ (0 <= M -> nonneg_le g (binary_normalize prec emax M E false) N)
  /\ (forall N', 0 < N' -> N' * 2 ^ (- g - E) <= M ->
        pos_between g (binary_normalize prec emax M E false) N' N).
Proof.
  intros HE HN Hle.
  assert (HT : 0 < 2 ^ (- g - E)) by (apply Z.pow_pos_nonneg; lia).
  destruct M as [|m|m]; cbn [binary_normalize].
  - split; [exact I|]. split; [intros _; exact I|]. intros N' HN' Hge. nia.
  - destruct (binary_round_fine false m E N HE HN ltac:(lia)) as [Hmag Hlow].
    split; [|split].
    + destruct Hmag as [->|(m' & e & -> & He & Hm)]; cbn [mag_le]; [exact I|lia].
    + intros _.
      destruct Hmag as [->|(m' & e & -> & He & Hm)]; cbn [nonneg_le]; [exact I|lia].
    + intros N' HN' Hge.
      destruct (Hlow N' HN' Hge) as (m' & e & -> & He & Hm). cbn [pos_between]. lia.
  - destruct (binary_round_fine true m E N HE HN ltac:(lia)) as [Hmag _].
    split; [|split].
    + destruct Hmag as [->|(m' & e & -> & He & Hm)]; cbn [mag_le]; [exact I|lia].
    + lia.
    + intros N' HN' Hge. nia.
Qed.

(** A product of two small floats. *)
Lemma mul_small x y N1 N2 N :
  mag_le g (Prim2SF x) N1 -> mag_le g (Prim2SF y) N2 ->
  0 <= N1 -> 0 <= N2 -> N1 * N2 <= 2 ^ g * N -> N <= 2 ^ (g + 8) ->
  mag_le g (Prim2SF (x * y)%float) N
  /\ (nonneg_le g (Prim2SF x) N1 -> nonneg_le g (Prim2SF y) N2 ->
      nonneg_le g (Prim2SF (x * y)%float) N).
Proof.
  intros Hx Hy HN1 HN2 HN HN13. rewrite mul_spec. unfold SF64mul, SFmul.
  destruct (Prim2SF x) as [sx|sx| |sx mx ex], (Prim2SF y) as [sy|sy| |sy my ey];
    cbn [mag_le] in Hx, Hy; try contradiction;
    try (split; [exact I|intros; exact I]).
  destruct Hx as [Hex Hmx], Hy as [Hey Hmy].
  assert (Hpg : 0 < 2 ^ g) by (apply Z.pow_pos_nonneg; lia).
  assert (Hpx : 0 < 2 ^ (- g - ex)) by (apply Z.pow_pos_nonneg; lia).
  assert (Hpy : 0 < 2 ^ (- g - ey)) by (apply Z.pow_pos_nonneg; lia).
  assert (Hsplit : 2 ^ (- g - (ex + ey)) = 2 ^ g * (2 ^ (- g - ex) * 2 ^ (- g - ey))).
  { rewrite <- !pow_split by lia. f_equal. lia. }
  assert (N1 * 2 ^ (- g - ex) * (N2 * 2 ^ (- g - ey))
          <= 2 ^ g * N * (2 ^ (- g - ex) * 2 ^ (- g - ey))).
  { replace (N1 * 2 ^ (- g - ex) * (N2 * 2 ^ (- g - ey)))
      with (N1 * N2 * (2 ^ (- g - ex) * 2 ^ (- g - ey))) by ring.
    apply Z.mul_le_mono_nonneg_r; [nia|exact HN]. }
  assert (Hprod : Zpos mx * Zpos my <= N1 * 2 ^ (- g - ex) * (N2 * 2 ^ (- g - ey)))
    by (apply Z.mul_le_mono_nonneg; lia).
  assert (HN0 : 0 <= N).
  { destruct (Z.le_gt_cases 0 N) as [|Hneg]; [assumption|exfalso]. nia. }
  destruct (binary_round_aux_fine (xorb sx sy) (Zpos (mx * my)) (ex + ey) N)
    as [Hres _]; [lia|lia|lia|rewrite Pos2Z.inj_mul, Hsplit; nia|].
  split.
  - destruct Hres as [->|(m & e & -> & He & Hm)]; cbn [mag_le]; [exact I|lia].
  - intros Hnx Hny. cbn [nonneg_le] in Hnx, Hny.
    destruct sx; [contradiction|]. destruct sy; [contradiction|].
    cbn [xorb] in Hres |- *.
    destruct Hres as [->|(m & e & -> & He & Hm)]; cbn [nonneg_le]; [exact I|lia].
Qed.

Lemma nonneg_le_mag x N : nonneg_le g x N -> mag_le g x N.
Proof. destruct x as [| | |[|] m e]; cbn; tauto. Qed.

Lemma nonneg_le_mono x N N' : nonneg_le g x N -> N <= N' -> nonneg_le g x N'.
Proof.
  destruct x as [| | |[|] m e]; cbn [nonneg_le]; try tauto.
  intros [He Hm] HN. split; [exact He|].
  assert (0 < 2 ^ (- g - e)) by (apply Z.pow_pos_nonneg; lia). nia.
Qed.

End Grid.

End FineGrid.

(** *** Noise that is rounded away (lines 163-173) *)

Section SmallNoise.
Local Open Scope Z_scope.

Lemma SFleb_finite m e m' e' :
  SFleb (S754_finite false m e) (S754_finite false m' e') = true ->
  e < e' \/ (e = e' /\ Zpos m <= Zpos m').
Proof.
  unfold SFleb, SFcompare. intros Hle.
  destruct (Z.compare_spec e e') as [He|He|He]; [|now left|discriminate Hle].
  right. split; [exact He|].
  change (Pos.compare_cont Eq m m') with (Pos.compare m m') in Hle.
  destruct (Pos.compare_spec m m') as [Hm|Hm|Hm]; try discriminate Hle; lia.
Qed.

Lemma SFcompare_finite_lt m e m' e' :
  e < e' \/ (e = e' /\ Zpos m < Zpos m') ->
  SFcompare (S754_finite false m e) (S754_finite false m' e') = Some Lt.
Proof.
  intros Hlt. cbn [SFcompare].
  destruct (Z.compare_spec e e') as [He|He|He]; [|reflexivity|lia].
  change (Pos.compare_cont Eq m m') with (Pos.compare m m').
  destruct (Pos.compare_spec m m') as [Hm|Hm|Hm]; [lia|reflexivity|lia].
Qed.

(** The representation of a channel. *)
Lemma channel_repr_table :
  forallb (fun z =>
      match Prim2SF (of_Z (Z.of_nat z)) with
      | S754_finite false m e =>
          (-52 <=? e) && (e <=? -45) && (Zpos m =? Z.of_nat z * 2 ^ (- e))
      | _ => false
      end) (seq 1 255) = true.
Proof. vm_compute. reflexivity. Qed.

Lemma channel_repr z :
  1 <= z <= 255 ->
  exists m e, Prim2SF (of_Z z) = S754_finite false m e
              /\ -52 <= e <= -45 /\ Zpos m = z * 2 ^ (- e).
Proof.
  intros Hz. pose proof channel_repr_table as Ht. rewrite forallb_forall in Ht.
  assert (Hz' : In (Z.to_nat z) (seq 1 255)) by (apply in_seq; lia).
  specialize (Ht _ Hz'). cbv beta in Ht. rewrite Z2Nat.id in Ht by lia.
  destruct (Prim2SF (of_Z z)) as [| | |[|] m e]; try discriminate Ht.
  apply andb_prop in Ht as [Ht Hm]. apply andb_prop in Ht as [He1 He2].
  exists m, e. split; [reflexivity|]. split; [lia|]. lia.
Qed.

(** The noise sample, in units of 1/32. *)

Lemma grid5 : 0 <= 5 <= 44.
Proof. lia. Qed.

(** [u - 0.5] for [0 <= u < 1]: at most one half in magnitude. *)
Lemma sub_half_small u :
  in_unit_interval u -> mag_le 5 (Prim2SF (u - 0.5)%float) 16.
Proof.
  intros [H0 H1]. rewrite sub_spec.
  change (Prim2SF 0.5) with (S754_finite false 4503599627370496 (-53)).
  destruct (Prim2SF u) as [s|s| |s m e] eqn:Hu.
  - vm_compute. split; discriminate.
  - exfalso. rewrite FloatAxioms.leb_spec in H0. rewrite FloatAxioms.ltb_spec in H1.
    rewrite Hu in H0, H1. destruct s; [discriminate H0|discriminate H1].
  - exfalso. rewrite FloatAxioms.leb_spec, Hu in H0. discriminate H0.
  - destruct (unit_interval_repr u s m e Hu H0 H1) as (-> & Hm & He).
    unfold SF64sub, SFsub.
    rewrite (Z.min_l e (-53)) by lia.
    rewrite !shl_align_fst by lia. rewrite Z.sub_diag, Z.mul_1_r.
    cbn [cond_Zopp].
    assert (Hh : 0 < 2 ^ (-1 - e)) by (apply Z.pow_pos_nonneg; lia).
    assert (Hhalf : 4503599627370496 * 2 ^ (-53 - e) = 2 ^ (-1 - e)).
    { change 4503599627370496 with (2 ^ 52). rewrite <- pow_split by lia.
      f_equal. lia. }
    assert (Hone : 2 ^ (- e) = 2 * 2 ^ (-1 - e)).
    { replace (- e) with (1 + (-1 - e)) by lia. now rewrite pow_split by lia. }
    assert (Hme : Zpos m < 2 ^ (- e)).
    { assert (2 ^ 53 <= 2 ^ (- e)) by (apply Z.pow_le_mono_r; lia). lia. }
    assert (H16 : 16 * 2 ^ (-5 - e) = 2 ^ (-1 - e)).
    { change 16 with (2 ^ 4). rewrite <- pow_split by lia. f_equal. lia. }
    apply (binary_normalize_fine 5 grid5 _ e 16);
      [lia|change (2 ^ (5 + 8)) with 8192; lia|].
    change (Z.opp 5) with (-5). rewrite Hhalf, H16. lia.
Qed.

(** A positive [noiseScale] of at most 0.3125. *)
Lemma noiseScale_small ns :
  PrimFloat.ltb 0 ns = true -> PrimFloat.leb ns 0.3125 = true ->
  mag_le 5 (Prim2SF ns) 10.
Proof.
  intros H0 H1. rewrite FloatAxioms.ltb_spec in H0. rewrite FloatAxioms.leb_spec in H1.
  change (Prim2SF 0) with (S754_zero false) in H0.
  change (Prim2SF 0.3125) with (S754_finite false 5629499534213120 (-54)) in H1.
  destruct (Prim2SF ns) as [s|s| |s m e] eqn:Hns; cbn [mag_le]; change (Z.opp 5) with (-5).
  - exact I.
  - destruct s; [discriminate H0|discriminate H1].
  - discriminate H0.
  - destruct (canonical_bounds ns s m e Hns) as (Hm & He & _).
    destruct s; [discriminate H0|].
    apply SFleb_finite in H1 as [Hlt|[-> Hle]].
    + split; [lia|].
      assert (2 ^ 50 <= 2 ^ (-5 - e)) by (apply Z.pow_le_mono_r; lia).
      change (2 ^ 53) with 9007199254740992 in Hm.
      change (2 ^ 50) with 1125899906842624 in *. lia.
    + split; [lia|]. change (2 ^ (-5 - -54)) with 562949953421312. lia.
Qed.

Lemma three_small : mag_le 5 (Prim2SF 3) 96.
Proof. vm_compute. split; discriminate. Qed.

Lemma noiseSample_small ns u :
  PrimFloat.ltb 0 ns = true -> PrimFloat.leb ns 0.3125 = true ->
  in_unit_interval u -> mag_le 5 (Prim2SF (noiseSample ns u)) 15.
Proof.
  intros H0 H1 Hu. unfold noiseSample.
  apply (mul_small 5 grid5 _ _ 5 96 15);
    [|exact three_small|lia|lia|change (2 ^ 5) with 32; lia|
     change (2 ^ (5 + 8)) with 8192; lia].
  apply (mul_small 5 grid5 _ _ 16 10 5);
    [now apply sub_half_small|now apply noiseScale_small|lia|lia|
     change (2 ^ 5) with 32; lia|change (2 ^ (5 + 8)) with 8192; lia].
Qed.

(** Adding a small noise to a channel. *)
Lemma add_small z c :
  1 <= z <= 255 -> mag_le 5 (Prim2SF c) 15 ->
  pos_between 5 (Prim2SF (of_Z z + c)%float) (32 * z - 15) (32 * z + 15).
Proof.
  intros Hz Hc. rewrite add_spec.
  destruct (channel_repr z Hz) as (mz & ez & -> & Hez & Hmz).
  assert (H32 : forall e, e <= -5 -> 2 ^ (- e) = 32 * 2 ^ (-5 - e)).
  { intros e He. change 32 with (2 ^ 5). rewrite <- pow_split by lia. f_equal. lia. }
  unfold SF64add, SFadd.
  destruct (Prim2SF c) as [sc|sc| |sc mc ec]; cbn [mag_le] in Hc;
    try contradiction; change (Z.opp 5) with (-5) in *.
  - cbn [pos_between]; change (Z.opp 5) with (-5). rewrite Hmz, (H32 ez) by lia.
    assert (0 < 2 ^ (-5 - ez)) by (apply Z.pow_pos_nonneg; lia). nia.
  - destruct Hc as [Hec Hmc].
    set (e0 := Z.min ez ec).
    assert (He0 : e0 <= ez /\ e0 <= ec /\ e0 <= -5) by (unfold e0; lia).
    rewrite !shl_align_fst by lia.
    assert (HT : 0 < 2 ^ (-5 - e0)) by (apply Z.pow_pos_nonneg; lia).
    assert (Hz0 : Zpos mz * 2 ^ (ez - e0) = 32 * z * 2 ^ (-5 - e0)).
    { rewrite Hmz, (H32 ez) by lia.
      replace (-5 - e0) with (-5 - ez + (ez - e0)) by lia.
      rewrite pow_split by lia. ring. }
    assert (Hc0 : 0 < Zpos mc * 2 ^ (ec - e0) <= 15 * 2 ^ (-5 - e0)).
    { assert (0 < 2 ^ (ec - e0)) by (apply Z.pow_pos_nonneg; lia).
      split; [nia|].
      replace (-5 - e0) with (-5 - ec + (ec - e0)) by lia.
      rewrite pow_split by lia. nia. }
    cbn [cond_Zopp]. rewrite Hz0.
    apply (binary_normalize_fine 5 grid5 _ e0 (32 * z + 15));
      [lia|change (2 ^ (5 + 8)) with 8192; lia| |lia|]; change (Z.opp 5) with (-5).
    + destruct sc; cbn [cond_Zopp]; nia.
    + destruct sc; cbn [cond_Zopp]; nia.
Qed.

Lemma add_zero_small c :
  mag_le 5 (Prim2SF c) 15 -> mag_le 5 (Prim2SF (of_Z 0 + c)%float) 15.
Proof.
  intros Hc. rewrite add_spec. change (Prim2SF (of_Z 0)) with (S754_zero false).
  unfold SF64add, SFadd.
  destruct (Prim2SF c) as [[|]|sc| |sc mc ec]; cbn [mag_le] in *;
    try contradiction; try exact I; exact Hc.
Qed.

(** The clamp and the conversion to a byte. *)

Lemma is_nan_finite d s m e : Prim2SF d = S754_finite s m e -> is_nan d = false.
Proof.
  intros Hd. unfold is_nan. rewrite FloatAxioms.eqb_spec, Hd.
  unfold SFeqb, SFcompare. rewrite Z.compare_refl.
  change (Pos.compare_cont Eq m m) with (Pos.compare m m). rewrite Pos.compare_refl.
  now destruct s.
Qed.

(** A positive float below 255 passes the clamp unchanged. *)
Lemma clamp_below_255 d m e N :
  Prim2SF d = S754_finite false m e -> e <= -5 ->
  Zpos m <= N * 2 ^ (-5 - e) -> N < 8160 ->
  Math_max 0 (Math_min 255 d) = d.
Proof.
  intros Hd He Hm HN.
  destruct (canonical_bounds d false m e Hd) as (_ & _ & Hnormal).
  assert (Hlt : SFcompare (Prim2SF d) (Prim2SF 255) = Some Lt).
  { rewrite Hd. change (Prim2SF 255) with (S754_finite false 8972014882652160 (-45)).
    apply SFcompare_finite_lt.
    destruct (Z.compare_spec e (-45)) as [He45|He45|He45]; [right|now left|exfalso].
    - subst e. split; [reflexivity|].
      change (2 ^ (-5 - -45)) with 1099511627776 in Hm. lia.
    - specialize (Hnormal ltac:(lia)).
      assert (2 ^ (-5 - e) <= 2 ^ 39) by (apply Z.pow_le_mono_r; lia).
      change (2 ^ 39) with 549755813888 in *.
      change (2 ^ 52) with 4503599627370496 in *. nia. }
  assert (Hnan : is_nan d = false) by (apply (is_nan_finite d false m e Hd)).
  unfold Math_min. change (is_nan 255) with false. rewrite Hnan. cbn [orb].
  rewrite !FloatAxioms.ltb_spec. unfold SFltb.
  rewrite (SFcompare_antisym (Prim2SF d) (Prim2SF 255)), Hlt. cbn [option_map CompOpp].
  unfold Math_max. change (is_nan 0) with false. rewrite Hnan. cbn [orb].
  rewrite !FloatAxioms.ltb_spec. unfold SFltb. rewrite Hd.
  change (Prim2SF 0) with (S754_zero false). reflexivity.
Qed.

(** A positive float passes the clamp unchanged or is cut to 255. *)
Lemma clamp_positive d m e :
  Prim2SF d = S754_finite false m e ->
  Math_max 0 (Math_min 255 d) = d \/ Math_max 0 (Math_min 255 d) = 255%float.
Proof.
  intros Hd.
  assert (Hnan : is_nan d = false) by (apply (is_nan_finite d false m e Hd)).
  assert (Hmax : Math_max 0 d = d).
  { unfold Math_max. change (is_nan 0) with false. rewrite Hnan. cbn [orb].
    rewrite !FloatAxioms.ltb_spec. unfold SFltb. rewrite Hd.
    change (Prim2SF 0) with (S754_zero false). reflexivity. }
  unfold Math_min. change (is_nan 255) with false. rewrite Hnan. cbn [orb].
  destruct (PrimFloat.ltb 255 d); [now right|].
  destruct (PrimFloat.ltb d 255); [now left|].
  change (get_sign 255) with false. cbv iota. now left.
Qed.

(** A negative float is cut to 0. *)
Lemma clamp_negative d m e :
  Prim2SF d = S754_finite true m e -> Math_max 0 (Math_min 255 d) = 0%float.
Proof.
  intros Hd.
  assert (Hnan : is_nan d = false) by (apply (is_nan_finite d true m e Hd)).
  unfold Math_min. change (is_nan 255) with false. rewrite Hnan. cbn [orb].
  rewrite !FloatAxioms.ltb_spec. unfold SFltb. rewrite Hd.
  change (Prim2SF 255) with (S754_finite false 8972014882652160 (-45)).
  cbn [SFcompare].
  unfold Math_max. change (is_nan 0) with false. rewrite Hnan. cbn [orb].
  rewrite !FloatAxioms.ltb_spec. unfold SFltb. rewrite Hd.
  change (Prim2SF 0) with (S754_zero false). reflexivity.
Qed.

(** A float within 15/32 of an integer from 0 to 255 converts to it. *)
Lemma ToUint8Clamp_near d m e z :
  Prim2SF d = S754_finite false m e -> e <= -5 -> 0 <= z <= 255 ->
  (32 * z - 15) * 2 ^ (-5 - e) <= Zpos m <= (32 * z + 15) * 2 ^ (-5 - e) ->
  ToUint8Clamp d = z.
Proof.
  intros Hd He Hz Hm. unfold ToUint8Clamp. rewrite Hd.
  destruct (Z.leb_spec 0 e) as [|_]; [lia|].
  rewrite Z.shiftr_div_pow2, !Z.shiftl_mul_pow2 by lia.
  set (T := 2 ^ (-5 - e)) in *.
  assert (HT : 0 < T) by (apply Z.pow_pos_nonneg; lia).
  assert (H32 : 2 ^ (- e) = 32 * T).
  { unfold T. change 32 with (2 ^ 5). rewrite <- pow_split by lia. f_equal. lia. }
  assert (H16 : 1 * 2 ^ (- e - 1) = 16 * T).
  { unfold T. change 16 with (2 ^ 4). rewrite <- pow_split by lia.
    rewrite Z.mul_1_l. f_equal. lia. }
  rewrite H32, H16.
  destruct (Z.le_gt_cases (32 * z * T) (Zpos m)) as [Hge|Hlt].
  - assert (Hq : Zpos m / (32 * T) = z)
      by (symmetry; apply (Z.div_unique _ _ _ (Zpos m - 32 * z * T)); lia).
    rewrite Hq.
    destruct (Z.ltb_spec (Zpos m - z * (32 * T)) (16 * T)) as [_|Hbig]; lia.
  - assert (Hq : Zpos m / (32 * T) = z - 1)
      by (symmetry; apply (Z.div_unique _ _ _ (Zpos m - 32 * (z - 1) * T)); lia).
    rewrite Hq.
    destruct (Z.ltb_spec (Zpos m - (z - 1) * (32 * T)) (16 * T)) as [Hsmall|_];
      [lia|].
    destruct (Z.ltb_spec (16 * T) (Zpos m - (z - 1) * (32 * T))) as [_|Hsmall];
      lia.
Qed.

(** What the loop stores for a channel when the noise is below 15/32 in
    magnitude: the channel itself. *)
Lemma perturbed_small z noise :
  0 <= z <= 255 -> mag_le 5 (Prim2SF noise) 15 -> perturbed z noise = z.
Proof.
  intros Hz Hnoise. unfold perturbed.
  destruct (Z.eq_dec z 0) as [->|Hz0].
  - pose proof (add_zero_small noise Hnoise) as Hd.
    destruct (Prim2SF (of_Z 0 + noise)%float) as [s|s| |s m e] eqn:Hsum;
      cbn [mag_le] in Hd; try contradiction; change (Z.opp 5) with (-5) in *.
    + assert (Hx : (of_Z 0 + noise)%float = (if s then (-0)%float else 0%float)).
      { apply Prim2SF_inj. rewrite Hsum. now destruct s. }
      rewrite Hx. now destruct s.
    + destruct Hd as [He Hm]. destruct s.
      * now rewrite (clamp_negative _ m e Hsum).
      * rewrite (clamp_below_255 _ m e 15 Hsum He Hm ltac:(lia)).
        apply (ToUint8Clamp_near _ m e 0 Hsum He); [lia|].
        assert (0 < 2 ^ (-5 - e)) by (apply Z.pow_pos_nonneg; lia). lia.
  - pose proof (add_small z noise ltac:(lia) Hnoise) as Hd.
    destruct (Prim2SF (of_Z z + noise)%float) as [s|s| |[|] m e] eqn:Hsum;
      cbn [pos_between] in Hd; try contradiction; change (Z.opp 5) with (-5) in *.
    destruct Hd as [He Hm].
    destruct (Z.eq_dec z 255) as [->|Hz255].
    + destruct (clamp_positive _ m e Hsum) as [-> | ->].
      * now apply (ToUint8Clamp_near _ m e 255 Hsum He).
      * reflexivity.
    + rewrite (clamp_below_255 _ m e (32 * z + 15) Hsum He ltac:(lia) ltac:(lia)).
      now apply (ToUint8Clamp_near _ m e z Hsum He).
Qed.

(** X20: with a [noiseScale] above 0 and at most 0.3125, which covers the
    initial 0.02 and the slider positions 0.1, 0.2 and 0.3, the noise loop
    changes no pixel: every sample is less than one half in magnitude, and
    the conversion back to a byte rounds it away.  The stage then only
    redraws the canvas through the blur. *)
Theorem noise_is_rounded_away `{Host} p random raster :
  PrimFloat.ltb 0 (ToNumber (prop p "noiseScale")) = true ->
  PrimFloat.leb (ToNumber (prop p "noiseScale")) 0.3125 = true ->
  (forall k, in_unit_interval (random k)) ->
  Forall (fun z => 0 <= z <= 255) raster ->
  fst (addNoise (ToNumber (prop p "noiseScale")) random raster) = raster
  /\ postProcess p random raster
     = drawBlurred (ToNumber (prop p "noiseScale") * 0.2) raster.
Proof.
  intros Hpos Hsmall Hrandom Hbytes.
  assert (Hsame : fst (addNoise (ToNumber (prop p "noiseScale")) random raster) = raster).
  { unfold addNoise.
    destruct (noiseLoop_spec (ToNumber (prop p "noiseScale")) random
                (length raster) 0 0 raster) as (Hlen & _ & Hlook); [lia|].
    apply list_eq. intros j. rewrite Hlook.
    destruct ((0 <=? j)%nat && ((j - 0) mod 16 <? 3)%nat); [|reflexivity].
    destruct (raster !! j) as [z|] eqn:Hz; [|reflexivity].
    cbn [fmap option_fmap option_map]. f_equal.
    apply perturbed_small.
    - rewrite Forall_lookup in Hbytes. exact (Hbytes j z Hz).
    - now apply noiseSample_small. }
  split; [exact Hsame|].
  unfold postProcess. now rewrite Hpos, Hsame.
Qed.

Lemma noise_is_rounded_away_witness :
  fst (@addNoise 0.02 (fun _ => 0.75%float) [255; 0; 128; 255; 7])
  = [255; 0; 128; 255; 7]
  /\ @postProcess integerHost grayParams (fun _ => 0.75%float) [255; 0; 128; 255; 7]
     = [255; 0; 128; 255; 7].
Proof.
  apply (@noise_is_rounded_away integerHost grayParams (fun _ => 0.75%float)
           [255; 0; 128; 255; 7]).
  - reflexivity.
  - reflexivity.
  - intros _. split; reflexivity.
  - repeat constructor; lia.
Defined.

End SmallNoise.

Section Channels.
Local Open Scope Z_scope.

(** *** Interpolated channels (lines 54-56 and 69-89), in units of 1/256 *)

Lemma grid8 : 0 <= 8 <= 44.
Proof. lia. Qed.

Lemma SFleb_finite_false m e m' e' :
  SFleb (S754_finite false m e) (S754_finite false m' e') = false ->
  e' < e \/ (e = e' /\ Zpos m' < Zpos m).
Proof.
  unfold SFleb, SFcompare. intros Hle.
  destruct (Z.compare_spec e e') as [He|He|He]; [|discriminate Hle|now left].
  right. split; [exact He|].
  change (Pos.compare_cont Eq m m') with (Pos.compare m m') in Hle.
  destruct (Pos.compare_spec m m') as [Hm|Hm|Hm]; try discriminate Hle; lia.
Qed.

(** A channel, as a float. *)
Lemma channel_nonneg a :
  0 <= a <= 255 -> nonneg_le 8 (Prim2SF (of_Z a)) (256 * a).
Proof.
  intros Ha. destruct (Z.eq_dec a 0) as [->|Ha0]; [exact I|].
  destruct (channel_repr a ltac:(lia)) as (m & e & -> & He & Hm).
  cbn [nonneg_le]. change (Z.opp 8) with (-8). split; [lia|].
  rewrite Hm. replace (- e) with (8 + (-8 - e)) by lia.
  rewrite pow_split by lia. change (2 ^ 8) with 256. lia.
Qed.

(** The parameter [t] of the first branch: [value * 2] for
    [0 <= value <= 0.5]. *)
Lemma first_half_parameter v :
  PrimFloat.leb 0 v = true -> PrimFloat.leb v 0.5 = true ->
  nonneg_le 8 (Prim2SF (v * 2)%float) 256.
Proof.
  intros H0 H1.
  assert (Hv : nonneg_le 8 (Prim2SF v) 128).
  { rewrite FloatAxioms.leb_spec in H0, H1.
    change (Prim2SF 0) with (S754_zero false) in H0.
    change (Prim2SF 0.5) with (S754_finite false 4503599627370496 (-53)) in H1.
    destruct (Prim2SF v) as [s|s| |s m e] eqn:Hv; cbn [nonneg_le].
    - exact I.
    - destruct s; [discriminate H0|discriminate H1].
    - discriminate H0.
    - destruct (canonical_bounds v s m e Hv) as (Hm & He & _).
      destruct s; [discriminate H0|]. change (Z.opp 8) with (-8).
      apply SFleb_finite in H1 as [Hlt|[-> Hle]].
      + split; [lia|].
        assert (2 ^ 46 <= 2 ^ (-8 - e)) by (apply Z.pow_le_mono_r; lia).
        change (2 ^ 53) with 9007199254740992 in Hm.
        change (2 ^ 46) with 70368744177664 in *. lia.
      + split; [lia|]. change (2 ^ (-8 - -53)) with 35184372088832. lia. }
  assert (H2 : nonneg_le 8 (Prim2SF 2) 512) by (vm_compute; split; discriminate).
  apply (mul_small 8 grid8 v 2 128 512 256);
    try (now apply nonneg_le_mag); try assumption; try lia.
Qed.

(** The parameter of the second branch: [(value - 0.5) * 2] for
    [0.5 < value <= 1]. *)
Lemma second_half_parameter v :
  PrimFloat.leb v 0.5 = false -> PrimFloat.leb v 1 = true ->
  nonneg_le 8 (Prim2SF ((v - 0.5) * 2)%float) 256.
Proof.
  intros H0 H1.
  assert (Hv : nonneg_le 8 (Prim2SF (v - 0.5)%float) 128).
  { rewrite FloatAxioms.leb_spec in H0, H1. rewrite sub_spec.
    change (Prim2SF 1) with (S754_finite false 4503599627370496 (-52)) in H1.
    change (Prim2SF 0.5) with (S754_finite false 4503599627370496 (-53)) in *.
    destruct (Prim2SF v) as [s|s| |s m e] eqn:Hv.
    - discriminate H0.
    - destruct s; [discriminate H0|discriminate H1].
    - discriminate H1.
    - destruct (canonical_bounds v s m e Hv) as (Hm & He & Hnormal).
      destruct s; [discriminate H0|].
      apply SFleb_finite_false in H0. apply SFleb_finite in H1.
      assert (Hcases : (e = -53 /\ 4503599627370496 < Zpos m)
                       \/ (e = -52 /\ Zpos m = 4503599627370496)).
      { destruct H0 as [H0|[-> H0]]; [right|left; now split].
        destruct H1 as [H1|[-> H1]]; [lia|]. split; [reflexivity|].
        specialize (Hnormal ltac:(lia)).
        change (2 ^ 52) with 4503599627370496 in Hnormal. lia. }
      unfold SF64sub, SFsub.
      rewrite (Z.min_r e (-53)) by lia.
      rewrite !shl_align_fst by lia. rewrite Z.sub_diag, Z.mul_1_r.
      cbn [cond_Zopp].
      assert (HM : 0 <= Zpos m * 2 ^ (e - -53) - 4503599627370496
                  <= 4503599627370496).
      { change (2 ^ 53) with 9007199254740992 in Hm.
        destruct Hcases as [[-> Hgt]|[-> ->]].
        - change (2 ^ (-53 - -53)) with 1. lia.
        - change (2 ^ (-52 - -53)) with 2. lia. }
      apply (binary_normalize_fine 8 grid8 _ (-53) 128);
        [lia|change (2 ^ (8 + 8)) with 65536; lia| |lia].
      change (2 ^ (- (8) - -53)) with 35184372088832. lia. }
  assert (H2 : nonneg_le 8 (Prim2SF 2) 512) by (vm_compute; split; discriminate).
  apply (mul_small 8 grid8 (v - 0.5)%float 2 128 512 256);
    try (now apply nonneg_le_mag); try assumption; try lia.
Qed.

(** [1 - t] for [0 <= t <= 1], with the cell of width 1/256 that holds
    [t]. *)
Lemma one_minus_parameter t :
  nonneg_le 8 (Prim2SF t) 256 ->
  exists k, 0 <= k <= 256
            /\ nonneg_le 8 (Prim2SF t) (k + 1)
            /\ nonneg_le 8 (Prim2SF (1 - t)%float) (256 - k).
Proof.
  intros Ht. rewrite sub_spec.
  change (Prim2SF 1) with (S754_finite false 4503599627370496 (-52)).
  destruct (Prim2SF t) as [s|s| |[|] m e] eqn:Ht'; cbn [nonneg_le] in Ht;
    try contradiction.
  - exists 0. split; [lia|]. split; [exact I|].
    cbn. split; [lia|]. vm_compute. discriminate.
  - change (Z.opp 8) with (-8) in Ht. destruct Ht as [He Hm].
    set (T := 2 ^ (-8 - e)) in *.
    assert (HT : 0 < T) by (apply Z.pow_pos_nonneg; lia).
    exists (Zpos m / T).
    pose proof (Z.div_mod (Zpos m) T ltac:(lia)) as Hdm.
    pose proof (Z.mod_pos_bound (Zpos m) T HT) as Hrem.
    assert (Hk0 : 0 <= Zpos m / T) by (apply Z.div_pos; lia).
    assert (Hk : Zpos m / T <= 256) by (apply Z.div_le_upper_bound; lia).
    split; [lia|]. split.
    + cbn [nonneg_le]. change (Z.opp 8) with (-8). fold T. split; [lia|nia].
    + unfold SF64sub, SFsub.
      set (e0 := Z.min (-52) e).
      assert (He0 : e0 <= -52 /\ e0 <= e) by (unfold e0; lia).
      rewrite !shl_align_fst by lia. cbn [cond_Zopp].
      set (T0 := 2 ^ (-8 - e0)).
      assert (HT0 : 0 < T0) by (apply Z.pow_pos_nonneg; lia).
      assert (H1 : 4503599627370496 * 2 ^ (-52 - e0) = 256 * T0).
      { change 4503599627370496 with (2 ^ 52). change 256 with (2 ^ 8).
        unfold T0. rewrite <- !pow_split by lia. f_equal. lia. }
      assert (HTT : T * 2 ^ (e - e0) = T0).
      { unfold T, T0. rewrite <- pow_split by lia. f_equal. lia. }
      assert (Hp : 0 < 2 ^ (e - e0)) by (apply Z.pow_pos_nonneg; lia).
      assert (Hlo : (Zpos m / T) * T0 <= Zpos m * 2 ^ (e - e0)).
      { rewrite <- HTT. nia. }
      assert (Hhi : Zpos m * 2 ^ (e - e0) <= 256 * T0).
      { rewrite <- HTT. nia. }
      rewrite H1.
      apply (binary_normalize_fine 8 grid8 _ e0 (256 - Zpos m / T));
        [lia|change (2 ^ (8 + 8)) with 65536; lia| |lia].
      change (Z.opp 8) with (-8). fold T0. nia.
Qed.

(** The sum of two non-negative floats. *)
Lemma add_nonneg x y N1 N2 :
  nonneg_le 8 (Prim2SF x) N1 -> nonneg_le 8 (Prim2SF y) N2 ->
  0 <= N1 -> 0 <= N2 -> N1 + N2 <= 65536 ->
  nonneg_le 8 (Prim2SF (x + y)%float) (N1 + N2).
Proof.
  intros Hx Hy HN1 HN2 HN. rewrite add_spec. unfold SF64add, SFadd.
  destruct (Prim2SF x) as [sx|sx| |[|] mx ex] eqn:Ex; cbn [nonneg_le] in Hx;
    try contradiction;
    destruct (Prim2SF y) as [sy|sy| |[|] my ey] eqn:Ey; cbn [nonneg_le] in Hy;
    try contradiction; change (Z.opp 8) with (-8) in *.
  - destruct sx, sy; exact I.
  - cbn [nonneg_le]. change (Z.opp 8) with (-8). destruct Hy as [He Hm].
    split; [exact He|].
    assert (0 < 2 ^ (-8 - ey)) by (apply Z.pow_pos_nonneg; lia). nia.
  - cbn [nonneg_le]. change (Z.opp 8) with (-8). destruct Hx as [He Hm].
    split; [exact He|].
    assert (0 < 2 ^ (-8 - ex)) by (apply Z.pow_pos_nonneg; lia). nia.
  - destruct Hx as [Hex Hmx], Hy as [Hey Hmy].
    set (e0 := Z.min ex ey).
    assert (He0 : e0 <= ex /\ e0 <= ey /\ e0 <= -8) by (unfold e0; lia).
    rewrite !shl_align_fst by lia. cbn [cond_Zopp].
    set (T0 := 2 ^ (-8 - e0)).
    assert (HT0 : 0 < T0) by (apply Z.pow_pos_nonneg; lia).
    assert (Hx0 : 0 < Zpos mx * 2 ^ (ex - e0) <= N1 * T0).
    { assert (0 < 2 ^ (ex - e0)) by (apply Z.pow_pos_nonneg; lia).
      split; [nia|]. unfold T0.
      replace (-8 - e0) with (-8 - ex + (ex - e0)) by lia.
      rewrite pow_split by lia. nia. }
    assert (Hy0 : 0 < Zpos my * 2 ^ (ey - e0) <= N2 * T0).
    { assert (0 < 2 ^ (ey - e0)) by (apply Z.pow_pos_nonneg; lia).
      split; [nia|]. unfold T0.
      replace (-8 - e0) with (-8 - ey + (ey - e0)) by lia.
      rewrite pow_split by lia. nia. }
    apply (binary_normalize_fine 8 grid8 _ e0 (N1 + N2));
      [lia|change (2 ^ (8 + 8)) with 65536; lia| |lia].
    change (Z.opp 8) with (-8). fold T0. nia.
Qed.

(** The interpolation of two channels stays below 256. *)
Lemma lerp_below_256 a b t :
  0 <= a <= 255 -> 0 <= b <= 255 -> nonneg_le 8 (Prim2SF t) 256 ->
  nonneg_le 8 (Prim2SF (lerp (of_Z a) (of_Z b) t)) 65535.
Proof.
  intros Ha Hb Ht. unfold lerp.
  destruct (one_minus_parameter t Ht) as (k & Hk & Htk & Hs).
  assert (Hp : nonneg_le 8 (Prim2SF (of_Z a * (1 - t))%float) (a * (256 - k))).
  { apply (mul_small 8 grid8 _ _ (256 * a) (256 - k));
      try (apply nonneg_le_mag); try (now apply channel_nonneg); try assumption;
      try lia.
    all: try (change (2 ^ 8) with 256; lia).
    all: try (change (2 ^ (8 + 8)) with 65536; nia). }
  assert (Hq : nonneg_le 8 (Prim2SF (of_Z b * t)%float) (b * (k + 1))).
  { apply (mul_small 8 grid8 _ _ (256 * b) (k + 1));
      try (apply nonneg_le_mag); try (now apply channel_nonneg); try assumption;
      try lia.
    all: try (change (2 ^ 8) with 256; lia).
    all: try (change (2 ^ (8 + 8)) with 65536; nia). }
  apply (nonneg_le_mono 8 grid8 _ (a * (256 - k) + b * (k + 1))); [|nia].
  apply add_nonneg; try assumption; nia.
Qed.

Lemma byte_text_table :
  forallb (fun q => String.eqb (Number_toString (of_Z (Z.of_nat q)))
                      (Z_toString (Z.of_nat q))) (seq 0 256) = true.
Proof. vm_compute. reflexivity. Qed.

Lemma byte_text q : 0 <= q <= 255 -> Number_toString (of_Z q) = Z_toString q.
Proof.
  intros Hq. pose proof byte_text_table as Ht. rewrite forallb_forall in Ht.
  assert (Hq' : In (Z.to_nat q) (seq 0 256)) by (apply in_seq; lia).
  specialize (Ht _ Hq'). cbv beta in Ht. rewrite Z2Nat.id in Ht by lia.
  now apply String.eqb_eq in Ht.
Qed.

(** The floor of a non-negative float below 256 is its integer part, and
    prints as an integer from 0 to 255. *)
Lemma floor_byte x :
  nonneg_le 8 (Prim2SF x) 65535 ->
  exists q, 0 <= q <= 255 /\ Number_toString (Math_floor x) = Z_toString q
            /\ floor_of x = Some q.
Proof.
  intros Hx. unfold Math_floor, floor_of.
  destruct (Prim2SF x) as [s|s| |[|] m e] eqn:Ex; cbn [nonneg_le] in Hx;
    try contradiction.
  - exists 0. split; [lia|]. split; [|reflexivity].
    assert (Hz : x = (if s then (-0)%float else 0%float)).
    { apply Prim2SF_inj. rewrite Ex. now destruct s. }
    rewrite Hz. now destruct s.
  - change (Z.opp 8) with (-8) in Hx. destruct Hx as [He Hm].
    destruct (Z.leb_spec 0 e) as [|_]; [lia|]. cbn [cond_Zopp].
    rewrite Z.shiftr_div_pow2, Z.shiftl_mul_pow2 by lia.
    assert (HT : 0 < 2 ^ (-8 - e)) by (apply Z.pow_pos_nonneg; lia).
    assert (Hsplit : 2 ^ (- e) = 256 * 2 ^ (-8 - e)).
    { change 256 with (2 ^ 8). rewrite <- pow_split by lia. f_equal. lia. }
    assert (Hp : 0 < 2 ^ (- e)) by lia.
    assert (Hq : 0 <= Zpos m / 2 ^ (- e) <= 255).
    { split; [apply Z.div_pos; lia|].
      assert (Zpos m / 2 ^ (- e) < 256) by (apply Z.div_lt_upper_bound; lia). lia. }
    exists (Zpos m / 2 ^ (- e)). split; [exact Hq|]. split; [|reflexivity].
    destruct (Z.eqb_spec (Zpos m) (Zpos m / 2 ^ (- e) * 2 ^ (- e))) as [Hex|_].
    + rewrite (byte_repr x m e (Zpos m / 2 ^ (- e)) Ex ltac:(lia)); [|nia|exact Hex].
      now apply byte_text.
    + now apply byte_text.
Qed.

(** A channel interpolated with a parameter from 0 to 1 and floored. *)
Lemma floored_channel a b t :
  0 <= a < 256 -> 0 <= b < 256 -> nonneg_le 8 (Prim2SF t) 256 ->
  exists q, 0 <= q <= 255
            /\ Number_toString (Math_floor (lerp (of_Z a) (of_Z b) t)) = Z_toString q
            /\ floor_of (lerp (of_Z a) (of_Z b) t) = Some q.
Proof.
  intros Ha Hb Ht. apply floor_byte. apply lerp_below_256; [lia|lia|exact Ht].
Qed.

(** What [mapToColor] returns for a value from 0 to 1: three floored
    channels, each printed as an integer from 0 to 255. *)
Lemma mapToColor_templates value sc mc ec s m e :
  hexToRgb sc = Some s -> hexToRgb mc = Some m -> hexToRgb ec = Some e ->
  PrimFloat.leb 0 value = true -> PrimFloat.leb value 1 = true ->
  exists rv gv bv c,
    (0 <= r c <= 255 /\ 0 <= g c <= 255 /\ 0 <= b c <= 255)
    /\ mapToColor value sc mc ec = Ret (rgbTemplate rv gv bv)
    /\ Number_toString rv = Z_toString (r c)
    /\ Number_toString gv = Z_toString (g c)
    /\ Number_toString bv = Z_toString (b c).
Proof.
  intros Hs Hm He H0 H1.
  rewrite (mapToColor_branches value sc mc ec s m e Hs Hm He).
  destruct (hexToRgb_range _ _ Hs) as (Hsr & Hsg & Hsb).
  destruct (hexToRgb_range _ _ Hm) as (Hmr & Hmg & Hmb).
  destruct (hexToRgb_range _ _ He) as (Her & Heg & Heb).
  destruct (PrimFloat.leb value 0.5) eqn:Hhalf.
  - pose proof (first_half_parameter value H0 Hhalf) as Ht.
    destruct (floored_channel (r s) (r m) _ Hsr Hmr Ht) as (qr & Hqr & Er & _).
    destruct (floored_channel (g s) (g m) _ Hsg Hmg Ht) as (qg & Hqg & Eg & _).
    destruct (floored_channel (b s) (b m) _ Hsb Hmb Ht) as (qb & Hqb & Eb & _).
    eexists _, _, _, {| r := qr; g := qg; b := qb |}. cbn [r g b].
    split; [lia|]. split; [reflexivity|]. now repeat split.
  - pose proof (second_half_parameter value Hhalf H1) as Ht.
    destruct (floored_channel (r m) (r e) _ Hmr Her Ht) as (qr & Hqr & Er & _).
    destruct (floored_channel (g m) (g e) _ Hmg Heg Ht) as (qg & Hqg & Eg & _).
    destruct (floored_channel (b m) (b e) _ Hmb Heb Ht) as (qb & Hqb & Eb & _).
    eexists _, _, _, {| r := qr; g := qg; b := qb |}. cbn [r g b].
    split; [lia|]. split; [reflexivity|]. now repeat split.
Qed.

(** C1: for three colours that parse, [mapToColor] gives the start colour
    at 0, the middle colour at 0.5 and the end colour at 1.  The value 0.5
    takes the first branch: the end colour is not read, whatever it is,
    and [t] is exactly 1; the second branch would give the middle colour
    at 0.5 as well, so the two halves meet there.  For every value from 0
    to 1 each channel printed is the integer part of the interpolation of
    the branch taken. *)
Theorem mapToColor_anchors startColor midColor endColor s m e :
  hexToRgb startColor = Some s ->
  hexToRgb midColor = Some m ->
  hexToRgb endColor = Some e ->
  mapToColor 0 startColor midColor endColor = Ret (rgbString s)
  /\ mapToColor 0.5 startColor midColor endColor = Ret (rgbString m)
  /\ mapToColor 1 startColor midColor endColor = Ret (rgbString e)
  /\ (forall other, mapToColor 0.5 startColor midColor other = Ret (rgbString m))
  /\ (0.5 * 2 = 1)%float
  /\ rgbTemplate (Math_floor (lerp (of_Z (r m)) (of_Z (r e)) ((0.5 - 0.5) * 2)))
                 (Math_floor (lerp (of_Z (g m)) (of_Z (g e)) ((0.5 - 0.5) * 2)))
                 (Math_floor (lerp (of_Z (b m)) (of_Z (b e)) ((0.5 - 0.5) * 2)))
     = rgbString m
  /\ (forall value,
        PrimFloat.leb 0 value = true -> PrimFloat.leb value 1 = true ->
        exists c,
          mapToColor value startColor midColor endColor = Ret (rgbString c)
          /\ if PrimFloat.leb value 0.5
             then floor_of (lerp (of_Z (r s)) (of_Z (r m)) (value * 2)) = Some (r c)
                  /\ floor_of (lerp (of_Z (g s)) (of_Z (g m)) (value * 2)) = Some (g c)
                  /\ floor_of (lerp (of_Z (b s)) (of_Z (b m)) (value * 2)) = Some (b c)
             else floor_of (lerp (of_Z (r m)) (of_Z (r e)) ((value - 0.5) * 2))
                  = Some (r c)
                  /\ floor_of (lerp (of_Z (g m)) (of_Z (g e)) ((value - 0.5) * 2))
                     = Some (g c)
                  /\ floor_of (lerp (of_Z (b m)) (of_Z (b e)) ((value - 0.5) * 2))
                     = Some (b c)).
Proof.
  intros Hs Hm He.
  destruct (hexToRgb_range _ _ Hs) as (Hsr & Hsg & Hsb).
  destruct (hexToRgb_range _ _ Hm) as (Hmr & Hmg & Hmb).
  destruct (hexToRgb_range _ _ He) as (Her & Heg & Heb).
  assert (Hmid : forall other, mapToColor 0.5 startColor midColor other
                               = Ret (rgbString m)).
  { intros other. unfold mapToColor. rewrite Hs, Hm.
    change (PrimFloat.leb 0.5 0.5) with true. cbv iota.
    change (0.5 * 2)%float with 1%float.
    unfold interpolate, channel. cbn [bind].
    rewrite !lerp_at_one by assumption.
    now rewrite rgbTemplate_channels by assumption. }
  split; [|split; [|split; [|split; [|split; [|split]]]]].
  - rewrite (mapToColor_branches _ _ _ _ _ _ _ Hs Hm He).
    change (PrimFloat.leb 0 0.5) with true. cbv iota.
    change (0 * 2)%float with 0%float.
    rewrite !lerp_at_zero by assumption.
    now rewrite rgbTemplate_channels by assumption.
  - apply Hmid.
  - rewrite (mapToColor_branches _ _ _ _ _ _ _ Hs Hm He).
    change (PrimFloat.leb 1 0.5) with false. cbv iota.
    change ((1 - 0.5) * 2)%float with 1%float.
    rewrite !lerp_at_one by assumption.
    now rewrite rgbTemplate_channels by assumption.
  - exact Hmid.
  - reflexivity.
  - change ((0.5 - 0.5) * 2)%float with 0%float.
    rewrite !lerp_at_zero by assumption.
    now rewrite rgbTemplate_channels by assumption.
  - intros value H0 H1.
    rewrite (mapToColor_branches value _ _ _ _ _ _ Hs Hm He).
    destruct (PrimFloat.leb value 0.5) eqn:Hhalf.
    + pose proof (first_half_parameter value H0 Hhalf) as Ht.
      destruct (floored_channel (r s) (r m) _ Hsr Hmr Ht) as (qr & Hqr & Er & Fr).
      destruct (floored_channel (g s) (g m) _ Hsg Hmg Ht) as (qg & Hqg & Eg & Fg).
      destruct (floored_channel (b s) (b m) _ Hsb Hmb Ht) as (qb & Hqb & Eb & Fb).
      exists {| r := qr; g := qg; b := qb |}. cbn [r g b].
      split; [|now repeat split].
      unfold rgbTemplate, rgbString. cbn [r g b]. now rewrite Er, Eg, Eb.
    + pose proof (second_half_parameter value Hhalf H1) as Ht.
      destruct (floored_channel (r m) (r e) _ Hmr Her Ht) as (qr & Hqr & Er & Fr).
      destruct (floored_channel (g m) (g e) _ Hmg Heg Ht) as (qg & Hqg & Eg & Fg).
      destruct (floored_channel (b m) (b e) _ Hmb Heb Ht) as (qb & Hqb & Eb & Fb).
      exists {| r := qr; g := qg; b := qb |}. cbn [r g b].
      split; [|now repeat split].
      unfold rgbTemplate, rgbString. cbn [r g b]. now rewrite Er, Eg, Eb.
Qed.

Lemma mapToColor_anchors_witness :
  mapToColor 0 "#ff8000" "#123456" "abcdef" = Ret "rgb(255,128,0)"%string
  /\ mapToColor 0.5 "#ff8000" "#123456" "abcdef" = Ret "rgb(18,52,86)"%string
  /\ mapToColor 1 "#ff8000" "#123456" "abcdef" = Ret "rgb(171,205,239)"%string
  /\ mapToColor 0.5 "#ff8000" "#123456" "zzzzzz" = Ret "rgb(18,52,86)"%string.
Proof.
  destruct (mapToColor_anchors "#ff8000" "#123456" "abcdef"
              {| r := 255; g := 128; b := 0 |}
              {| r := 18; g := 52; b := 86 |}
              {| r := 171; g := 205; b := 239 |}
              eq_refl eq_refl eq_refl) as (H0 & H5 & H1 & Hany & _).
  split; [exact H0|split; [exact H5|split; [exact H1|exact (Hany "zzzzzz"%string)]]].
Defined.

(** X21: for colours that parse and a value from 0 to 1, [mapToColor]
    returns [rgb(r,g,b)] with three integers from 0 to 255: in binary64
    the interpolation never leaves the range of a byte, whatever the
    colours and the value. *)
Theorem mapToColor_channels_are_bytes value sc mc ec s m e :
  hexToRgb sc = Some s -> hexToRgb mc = Some m -> hexToRgb ec = Some e ->
  PrimFloat.leb 0 value = true -> PrimFloat.leb value 1 = true ->
  exists c, (0 <= r c <= 255 /\ 0 <= g c <= 255 /\ 0 <= b c <= 255)
            /\ mapToColor value sc mc ec = Ret (rgbString c).
Proof.
  intros Hs Hm He H0 H1.
  destruct (mapToColor_templates value sc mc ec s m e Hs Hm He H0 H1)
    as (rv & gv & bv & c & Hc & -> & Er & Eg & Eb).
  exists c. split; [exact Hc|].
  unfold rgbTemplate, rgbString. now rewrite Er, Eg, Eb.
Qed.

Lemma mapToColor_channels_are_bytes_witness :
  exists c, (0 <= r c <= 255 /\ 0 <= g c <= 255 /\ 0 <= b c <= 255)
            /\ mapToColor 0.3 "#ff0000" "#00ff00" "#0000ff" = Ret (rgbString c).
Proof.
  apply (mapToColor_channels_are_bytes 0.3 "#ff0000" "#00ff00" "#0000ff"
           {| r := 255; g := 0; b := 0 |} {| r := 0; g := 255; b := 0 |}
           {| r := 0; g := 0; b := 255 |}); reflexivity.
Defined.

(** The colour computed for a query whose interpolated position is not
    NaN. *)
Lemma fresh_colour_bytes `{Host} p y sp :
  colors_parse p ->
  is_nan (lerp y sp (ToNumber (prop p "verticalBias"))) = false ->
  exists c, (0 <= r c <= 255 /\ 0 <= g c <= 255 /\ 0 <= b c <= 255)
            /\ freshColor p y sp = Ret (rgbaString c).
Proof.
  intros Hparse Hx.
  destruct (colors_parse_ToString p "startColor" Hparse ltac:(cbn; tauto)) as [s Hs].
  destruct (colors_parse_ToString p "midColor" Hparse ltac:(cbn; tauto)) as [m Hm].
  destruct (colors_parse_ToString p "endColor" Hparse ltac:(cbn; tauto)) as [e He].
  unfold freshColor, biasedPosition.
  destruct (clamp_unit_interval (lerp y sp (ToNumber (prop p "verticalBias"))))
    as [Hin _].
  destruct (Hin Hx) as [H0 H1].
  destruct (mapToColor_templates _ _ _ _ s m e Hs Hm He H0 H1)
    as (rv & gv & bv & c & Hc & -> & Er & Eg & Eb).
  cbn [bind]. rewrite rgba_of_rgbTemplate.
  exists c. split; [exact Hc|].
  unfold rgbaTemplate, rgbaString. now rewrite Er, Eg, Eb.
Qed.

(** X22: when the colours parse, a query that is not in the cache is
    answered, and cached, with [rgba(r,g,b, 0.5)] for three integers from
    0 to 255, unless the interpolated position is NaN, and then with
    [rgba(NaN,NaN,NaN, 0.5)]: these are the only two shapes of colour the
    gradient ever receives. *)
Theorem gradient_colour_is_bytes_or_nan `{Host} p y sp cache :
  colors_parse p ->
  cachedColor cache (cacheKey p y sp) = None ->
  exists v,
    getGradientColor p y sp cache = Ret (v, <[cacheKey p y sp := v]> cache)
    /\ if is_nan (lerp y sp (ToNumber (prop p "verticalBias")))
       then v = "rgba(NaN,NaN,NaN, 0.5)"%string
       else exists c, (0 <= r c <= 255 /\ 0 <= g c <= 255 /\ 0 <= b c <= 255)
                      /\ v = rgbaString c.
Proof.
  intros Hparse Hmiss. rewrite (getGradientColor_miss _ _ _ _ Hmiss).
  destruct (is_nan (lerp y sp (ToNumber (prop p "verticalBias")))) eqn:Hx.
  - destruct (colors_parse_ToString p "startColor" Hparse ltac:(cbn; tauto)) as [s Hs].
    destruct (colors_parse_ToString p "midColor" Hparse ltac:(cbn; tauto)) as [m Hm].
    destruct (colors_parse_ToString p "endColor" Hparse ltac:(cbn; tauto)) as [e He].
    unfold freshColor, biasedPosition.
    destruct (clamp_unit_interval (lerp y sp (ToNumber (prop p "verticalBias"))))
      as [_ Hnan].
    rewrite (Hnan Hx).
    rewrite (mapToColor_branches nan _ _ _ s m e Hs Hm He).
    change (PrimFloat.leb nan 0.5) with false. cbv iota.
    change ((nan - 0.5) * 2)%float with nan.
    rewrite !(lerp_nan _ _ nan) by tauto.
    change (Math_floor nan) with nan.
    cbn [bind]. eexists. split; reflexivity.
  - destruct (fresh_colour_bytes p y sp Hparse Hx) as (c & Hc & ->).
    cbn [bind]. eexists. split; [reflexivity|]. now exists c.
Qed.

Lemma gradient_colour_is_bytes_or_nan_witness :
  exists v,
    @getGradientColor integerHost grayParams 0.5 0.25 ∅
    = Ret (v, <[cacheKey grayParams 0.5 0.25 := v]> ∅)
    /\ if is_nan (lerp 0.5 0.25 (@ToNumber integerHost (prop grayParams "verticalBias")))
       then v = "rgba(NaN,NaN,NaN, 0.5)"%string
       else exists c, (0 <= r c <= 255 /\ 0 <= g c <= 255 /\ 0 <= b c <= 255)
                      /\ v = rgbaString c.
Proof.
  apply (@gradient_colour_is_bytes_or_nan integerHost grayParams 0.5 0.25 ∅).
  - exact grayParams_parse.
  - reflexivity.
Defined.

(** A Number from 0 to 1, in units of 1/256. *)
Lemma unit_nonneg v :
  PrimFloat.leb 0 v = true -> PrimFloat.leb v 1 = true ->
  nonneg_le 8 (Prim2SF v) 256.
Proof.
  intros H0 H1. rewrite FloatAxioms.leb_spec in H0, H1.
  change (Prim2SF 0) with (S754_zero false) in H0.
  change (Prim2SF 1) with (S754_finite false 4503599627370496 (-52)) in H1.
  destruct (Prim2SF v) as [s|s| |s m e] eqn:Hv; cbn [nonneg_le].
  - exact I.
  - destruct s; [discriminate H0|discriminate H1].
  - discriminate H0.
  - destruct (canonical_bounds v s m e Hv) as (Hm & He & _).
    destruct s; [discriminate H0|]. change (Z.opp 8) with (-8).
    apply SFleb_finite in H1 as [Hlt|[-> Hle]].
    + split; [lia|].
      assert (2 ^ 45 <= 2 ^ (-8 - e)) by (apply Z.pow_le_mono_r; lia).
      change (2 ^ 53) with 9007199254740992 in Hm.
      change (2 ^ 45) with 35184372088832 in *. lia.
    + split; [lia|]. change (2 ^ (-8 - -52)) with 17592186044416. lia.
Qed.

Lemma nonneg_not_nan x N : nonneg_le 8 (Prim2SF x) N -> is_nan x = false.
Proof.
  intros Hx. destruct (Prim2SF x) as [s|s| |s m e] eqn:Ex; cbn [nonneg_le] in Hx;
    try contradiction.
  - assert (Hz : x = (if s then (-0)%float else 0%float)).
    { apply Prim2SF_inj. rewrite Ex. now destruct s. }
    rewrite Hz. now destruct s.
  - now apply (is_nan_finite x s m e).
Qed.

(** Interpolating between two Numbers from 0 to 1 with a parameter from
    0 to 1 does not give NaN. *)
Lemma lerp_unit_not_nan y sp t :
  nonneg_le 8 (Prim2SF y) 256 -> nonneg_le 8 (Prim2SF sp) 256 ->
  nonneg_le 8 (Prim2SF t) 256 -> is_nan (lerp y sp t) = false.
Proof.
  intros Hy Hsp Ht. unfold lerp.
  destruct (one_minus_parameter t Ht) as (k & Hk & Htk & Hs).
  assert (Hp : nonneg_le 8 (Prim2SF (y * (1 - t))%float) (256 - k)).
  { apply (mul_small 8 grid8 _ _ 256 (256 - k));
      try (apply nonneg_le_mag); try assumption; try lia.
    all: try exact grid8.
    all: try (change (2 ^ (8 + 8)) with 65536; lia). }
  assert (Hq : nonneg_le 8 (Prim2SF (sp * t)%float) (k + 1)).
  { apply (mul_small 8 grid8 _ _ 256 (k + 1));
      try (apply nonneg_le_mag); try assumption; try lia.
    all: try exact grid8.
    all: try (change (2 ^ (8 + 8)) with 65536; lia). }
  apply (nonneg_not_nan _ (256 - k + (k + 1))).
  apply add_nonneg; try assumption; lia.
Qed.

Lemma render_query_table :
  forallb (fun n => forallb (fun i =>
      implb (i <? n)%nat
        (PrimFloat.leb 0 (stripPosition (of_Z (Z.of_nat i)) (of_Z (Z.of_nat n)))
         && PrimFloat.leb (stripPosition (of_Z (Z.of_nat i)) (of_Z (Z.of_nat n))) 1))
    (seq 0 51)) (seq 2 49) = true.
Proof. vm_compute. reflexivity. Qed.

Lemma stop_position_unit y :
  In y stopPositions -> PrimFloat.leb 0 y = true /\ PrimFloat.leb y 1 = true.
Proof.
  intros Hy. cbn [In stopPositions] in Hy.
  destruct Hy as [<-|[<-|[<-|[<-|[<-|[<-|[]]]]]]]; split; reflexivity.
Qed.

(** X23: with 2 to 50 strips, colours that parse and a vertical bias from
    0 to 1 (the range of its slider), every query a render makes, a stop
    offset and the position of a strip, is answered with [rgba(r,g,b, 0.5)]
    for three integers from 0 to 255: no stop of the gradient gets the NaN
    colour, which a single strip does get. *)
Theorem render_queries_give_byte_colours `{Host} p n i y cache :
  colors_parse p ->
  (2 <= n <= 50) -> (0 <= i < n) -> In y stopPositions ->
  PrimFloat.leb 0 (ToNumber (prop p "verticalBias")) = true ->
  PrimFloat.leb (ToNumber (prop p "verticalBias")) 1 = true ->
  cachedColor cache (cacheKey p y (stripPosition (of_Z i) (of_Z n))) = None ->
  exists c, (0 <= r c <= 255 /\ 0 <= g c <= 255 /\ 0 <= b c <= 255)
            /\ getGradientColor p y (stripPosition (of_Z i) (of_Z n)) cache
               = Ret (rgbaString c,
                      <[cacheKey p y (stripPosition (of_Z i) (of_Z n))
                          := rgbaString c]> cache).
Proof.
  intros Hparse Hn Hi Hy Hb0 Hb1 Hmiss.
  assert (Hsp : PrimFloat.leb 0 (stripPosition (of_Z i) (of_Z n)) = true
                /\ PrimFloat.leb (stripPosition (of_Z i) (of_Z n)) 1 = true).
  { pose proof render_query_table as Ht. rewrite forallb_forall in Ht.
    assert (Hn' : In (Z.to_nat n) (seq 2 49)) by (apply in_seq; lia).
    specialize (Ht _ Hn'). cbv beta in Ht. rewrite forallb_forall in Ht.
    assert (Hi' : In (Z.to_nat i) (seq 0 51)) by (apply in_seq; lia).
    specialize (Ht _ Hi'). cbv beta in Ht.
    assert (Hlt : (Z.to_nat i <? Z.to_nat n)%nat = true) by (apply Nat.ltb_lt; lia).
    rewrite Hlt in Ht. cbn [implb] in Ht. rewrite !Z2Nat.id in Ht by lia.
    now apply andb_prop in Ht. }
  destruct (stop_position_unit y Hy) as [Hy0 Hy1].
  assert (Hx : is_nan (lerp y (stripPosition (of_Z i) (of_Z n))
                         (ToNumber (prop p "verticalBias"))) = false).
  { apply lerp_unit_not_nan; apply unit_nonneg; tauto. }
  destruct (fresh_colour_bytes p y _ Hparse Hx) as (c & Hc & Hfresh).
  exists c. split; [exact Hc|].
  rewrite (getGradientColor_miss _ _ _ _ Hmiss), Hfresh. reflexivity.
Qed.

Lemma render_queries_give_byte_colours_witness :
  exists c, (0 <= r c <= 255 /\ 0 <= g c <= 255 /\ 0 <= b c <= 255)
            /\ @getGradientColor integerHost grayParams 0.4
                 (stripPosition (of_Z 3) (of_Z 10)) ∅
               = Ret (rgbaString c,
                      <[cacheKey grayParams 0.4 (stripPosition (of_Z 3) (of_Z 10))
                          := rgbaString c]> ∅).
Proof.
  apply (@render_queries_give_byte_colours integerHost grayParams 10 3 0.4%float ∅).
  - exact grayParams_parse.
  - lia.
  - lia.
  - cbn. tauto.
  - reflexivity.
  - reflexivity.
  - reflexivity.
Defined.

End Channels.

(** *** The stops the canvas is given (lines 129-161) *)

Lemma strip_position_unit n i :
  (2 <= n <= 50)%Z -> (0 <= i < n)%Z ->
  PrimFloat.leb 0 (stripPosition (of_Z i) (of_Z n)) = true
  /\ PrimFloat.leb (stripPosition (of_Z i) (of_Z n)) 1 = true.
Proof.
  intros Hn Hi. pose proof render_query_table as Ht. rewrite forallb_forall in Ht.
  assert (Hn' : In (Z.to_nat n) (seq 2 49)) by (apply in_seq; lia).
  specialize (Ht _ Hn'). cbv beta in Ht. rewrite forallb_forall in Ht.
  assert (Hi' : In (Z.to_nat i) (seq 0 51)) by (apply in_seq; lia).
  specialize (Ht _ Hi'). cbv beta in Ht.
  assert (Hlt : (Z.to_nat i <? Z.to_nat n)%nat = true) by (apply Nat.ltb_lt; lia).
  rewrite Hlt in Ht. cbn [implb] in Ht. rewrite !Z2Nat.id in Ht by lia.
  now apply andb_prop in Ht.
Qed.

Section Gradients.
Local Open Scope Z_scope.
Context `{Host}.

Lemma addColorStop_bytes y c :
  In y stopPositions ->
  0 <= r c <= 255 /\ 0 <= g c <= 255 /\ 0 <= b c <= 255 ->
  addColorStop y (rgbaString c) = Ret tt.
Proof.
  intros Hy (Hr & Hg & Hb). rewrite (addColorStop_stop _ _ Hy).
  unfold rgbaString. now rewrite parsesAsColor_rgba.
Qed.

Lemma addColorStop_NaN y :
  In y stopPositions ->
  addColorStop y "rgba(NaN,NaN,NaN, 0.5)" = Throw SyntaxError.
Proof.
  intros Hy. rewrite (addColorStop_stop _ _ Hy). now rewrite parsesAsColor_NaN.
Qed.

Variable p : gmap string jsval.
Hypothesis Hparse : colors_parse p.

(** A query with a NaN in it that the cache does not hold. *)
Lemma freshColor_NaN y sp :
  y = nan \/ sp = nan \/ ToNumber (prop p "verticalBias") = nan ->
  freshColor p y sp = Ret "rgba(NaN,NaN,NaN, 0.5)"%string.
Proof.
  intros Hnan.
  destruct (colors_parse_ToString p "midColor" Hparse ltac:(cbn; tauto)) as [m Hm].
  destruct (colors_parse_ToString p "endColor" Hparse ltac:(cbn; tauto)) as [e He].
  unfold freshColor, biasedPosition. rewrite (lerp_nan _ _ _ Hnan).
  change (Math_max 0 (Math_min 1 nan)) with nan.
  unfold mapToColor. rewrite Hm, He.
  change (PrimFloat.leb nan 0.5) with false. cbv iota.
  change ((nan - 0.5) * 2)%float with nan.
  unfold interpolate, channel. cbn [bind].
  rewrite !(lerp_nan _ _ nan) by tauto.
  change (Math_floor nan) with nan.
  reflexivity.
Qed.

Hypothesis Hb0 : PrimFloat.leb 0 (ToNumber (prop p "verticalBias")) = true.
Hypothesis Hb1 : PrimFloat.leb (ToNumber (prop p "verticalBias")) 1 = true.

(** A stop offset and a strip position from 0 to 1 give a byte colour. *)
Lemma unit_query_bytes y sp :
  In y stopPositions ->
  PrimFloat.leb 0 sp = true -> PrimFloat.leb sp 1 = true ->
  exists c, (0 <= r c <= 255 /\ 0 <= g c <= 255 /\ 0 <= b c <= 255)
            /\ freshColor p y sp = Ret (rgbaString c).
Proof.
  intros Hy Hs0 Hs1. destruct (stop_position_unit y Hy) as [Hy0 Hy1].
  apply fresh_colour_bytes; [exact Hparse|].
  apply lerp_unit_not_nan; apply unit_nonneg; assumption.
Qed.

(** Sampling for a strip position from 0 to 1 when the canvas accepts the
    colours the cache holds: every stop is added. *)
Lemma sampleAt_accepted sp :
  PrimFloat.leb 0 sp = true -> PrimFloat.leb sp 1 = true ->
  forall ys cache,
    (forall y, In y ys -> In y stopPositions) ->
    (forall key v, cachedColor cache key = Some v -> parsesAsColor v = true) ->
    exists stops cache',
      sampleAt p sp ys cache = Ret (stops, cache') /\ map fst stops = ys.
Proof.
  intros Hs0 Hs1. induction ys as [|y ys IH]; intros cache Hys Hcache.
  - exists [], cache. now split.
  - cbn [sampleAt].
    assert (Hy : In y stopPositions) by (apply Hys; now left).
    destruct (cachedColor cache (cacheKey p y sp)) as [v|] eqn:Hc.
    + rewrite (getGradientColor_hit _ _ _ _ _ Hc). cbn [bind].
      rewrite (addColorStop_stop _ _ Hy), (Hcache _ _ Hc). cbn [bind].
      destruct (IH cache) as (stops & cache' & -> & Hfst);
        [intros y' Hy'; apply Hys; now right|exact Hcache|].
      cbn [bind]. eexists _, _. split; [reflexivity|]. cbn [map fst].
      now rewrite Hfst.
    + rewrite (getGradientColor_miss _ _ _ _ Hc).
      destruct (unit_query_bytes y sp Hy Hs0 Hs1) as (c & Hc' & ->). cbn [bind].
      rewrite (addColorStop_bytes y c Hy Hc'). cbn [bind].
      destruct (IH (<[cacheKey p y sp := rgbaString c]> cache))
        as (stops & cache' & -> & Hfst).
      * intros y' Hy'. apply Hys. now right.
      * intros key v Hv. rewrite cachedColor_insert in Hv by discriminate.
        destruct (decide (cacheKey p y sp = key)) as [_|_]; [|now apply (Hcache key)].
        injection Hv as <-. unfold rgbaString. apply parsesAsColor_rgba; tauto.
      * cbn [bind]. eexists _, _. split; [reflexivity|]. cbn [map fst].
        now rewrite Hfst.
Qed.

(** A row of queries none of which is in the cache: each is computed,
    stored, and added to the gradient as a byte colour. *)
Lemma sampleAt_misses sp :
  PrimFloat.leb 0 sp = true -> PrimFloat.leb sp 1 = true ->
  forall ys cache,
    (forall y, In y ys -> In y stopPositions) ->
    NoDup (map (fun y => cacheKey p y sp) ys) ->
    (forall y, In y ys -> cacheKey p y sp ∉ dom cache) ->
    exists stops cache',
      sampleAt p sp ys cache = Ret (stops, cache')
      /\ dom cache' = dom cache ∪ list_to_set (map (fun y => cacheKey p y sp) ys)
      /\ map fst stops = ys
      /\ Forall (fun stop =>
           exists c, (0 <= r c <= 255 /\ 0 <= g c <= 255 /\ 0 <= b c <= 255)
                     /\ snd stop = rgbaString c) stops.
Proof.
  intros Hs0 Hs1. induction ys as [|y ys IH]; intros cache Hys Hnd Hout.
  - exists [], cache. split; [reflexivity|]. split; [|split; [reflexivity|constructor]].
    cbn [map list_to_set]. now rewrite (right_id_L ∅ (∪)).
  - cbn [map] in Hnd. apply NoDup_cons in Hnd as [Hy Hnd].
    assert (Hpos : In y stopPositions) by (apply Hys; now left).
    cbn [sampleAt].
    assert (Hmiss : cachedColor cache (cacheKey p y sp) = None).
    { unfold cachedColor.
      now rewrite (proj1 (not_elem_of_dom cache _) (Hout y (or_introl eq_refl))). }
    rewrite (getGradientColor_miss _ _ _ _ Hmiss).
    destruct (unit_query_bytes y sp Hpos Hs0 Hs1) as (c & Hc & ->). cbn [bind].
    rewrite (addColorStop_bytes y c Hpos Hc). cbn [bind].
    destruct (IH (<[cacheKey p y sp := rgbaString c]> cache))
      as (stops & cache' & -> & Hdom & Hfst & Hall).
    { intros y' Hy'. apply Hys. now right. }
    { exact Hnd. }
    { intros y' Hy'. rewrite dom_insert_L. apply not_elem_of_union. split.
      - apply not_elem_of_singleton. intros Heq. apply Hy. rewrite <- Heq.
        apply list_elem_of_In, in_map_iff. now exists y'.
      - apply Hout. now right. }
    cbn [bind]. eexists _, cache'. split; [reflexivity|]. split; [|split].
    + rewrite Hdom, dom_insert_L. cbn [map list_to_set].
      rewrite (comm_L (∪) {[cacheKey p y sp]} (dom cache)).
      now rewrite <- (assoc_L (∪)).
    + cbn [map fst]. now rewrite Hfst.
    + constructor; [now exists c|exact Hall].
Qed.

Variable n : Z.
Hypothesis Hn : 2 <= n <= 50.
Hypothesis Hstrips : ToNumber (prop p "strips") = of_Z n.

(** The strip loop from strip [i] on, when none of the queries still to be
    made is in the cache. *)
Lemma drawStrips_misses stripHeight : forall (k : nat) i fuel cache drawn,
  0 <= i -> i + Z.of_nat k = n -> (k + 7 <= fuel)%nat ->
  (forall q, q ∈ queriesFrom n i k -> queryKey p q ∉ dom cache) ->
  exists strips cache',
    drawStrips fuel p stripHeight i cache drawn = Some (Ret (drawn ++ strips, cache'))
    /\ dom cache' = dom cache ∪ list_to_set (map (queryKey p) (queriesFrom n i k))
    /\ length strips = k
    /\ forall (j : nat) s, strips !! j = Some s ->
         position s = stripPosition (of_Z (i + Z.of_nat j)) (of_Z n)
         /\ gradientFrom s = (of_Z (i + Z.of_nat j) * stripHeight)%float
         /\ gradientTo s = (of_Z (i + Z.of_nat j) * stripHeight + stripHeight)%float
         /\ map fst (gradientStops s) = stopPositions
         /\ Forall (fun stop =>
              exists c, (0 <= r c <= 255 /\ 0 <= g c <= 255 /\ 0 <= b c <= 255)
                        /\ snd stop = rgbaString c) (gradientStops s).
Proof.
  assert (Hn1 : 1 <= n <= 50) by lia.
  induction k as [|k IH]; intros i fuel cache drawn Hi Hik Hfuel Hout.
  - destruct fuel as [|fuel]; [lia|]. cbn [drawStrips]. rewrite Hstrips.
    rewrite (of_Z_ltb i n) by lia.
    destruct (Z.ltb_spec i n) as [Hlt|_]; [lia|].
    exists [], cache. rewrite app_nil_r. split; [reflexivity|]. split; [|split].
    + cbn [queriesFrom map list_to_set]. now rewrite (right_id_L ∅ (∪)).
    + reflexivity.
    + intros j s Hj. discriminate Hj.
  - destruct fuel as [|fuel]; [lia|]. cbn [drawStrips]. rewrite Hstrips.
    rewrite (of_Z_ltb i n) by lia.
    destruct (Z.ltb_spec i n) as [_|Hge]; [|lia].
    rewrite (colorStops_sampleAt (S fuel)) by lia.
    destruct (strip_position_unit n i Hn ltac:(lia)) as [Hs0 Hs1].
    destruct (sampleAt_misses (stripPosition (of_Z i) (of_Z n)) Hs0 Hs1 stopPositions cache)
      as (stops & cache1 & -> & Hdom1 & Hfst & Hstops).
    { tauto. }
    { pose proof (strip_keys_NoDup p n i) as Hnd. unfold stripQueries in Hnd.
      now rewrite map_map in Hnd. }
    { intros y Hy. apply (Hout (y, stripPosition (of_Z i) (of_Z n))).
      cbn [queriesFrom]. apply elem_of_app. left. unfold stripQueries.
      apply list_elem_of_In, in_map_iff. now exists y. }
    cbn [bind app].
    destruct (IH (i + 1) fuel cache1
                (drawn ++ [ {| position := stripPosition (of_Z i) (of_Z n);
                               gradientFrom := (of_Z i * stripHeight)%float;
                               gradientTo := (of_Z i * stripHeight + stripHeight)%float;
                               gradientStops := stops |} ]))
      as (strips & cache2 & Hrun & Hdom2 & Hlen & Hall); [lia|lia|lia| |].
    { intros q Hq. rewrite Hdom1. apply not_elem_of_union. split.
      - apply Hout. cbn [queriesFrom]. apply elem_of_app. now right.
      - rewrite elem_of_list_to_set. intros Hin.
        apply list_elem_of_In, in_map_iff in Hin as (y & Heq & Hy).
        apply (strip_keys_apart p n Hn1 i k (y, stripPosition (of_Z i) (of_Z n)) q);
          [lia|lia| |exact Hq|exact Heq].
        unfold stripQueries. apply list_elem_of_In, in_map_iff. now exists y. }
    rewrite Hrun. eexists (_ :: strips), cache2. split; [now rewrite <- app_assoc|].
    split; [|split].
    + rewrite Hdom2, Hdom1. cbn [queriesFrom]. rewrite map_app, list_to_set_app_L.
      unfold stripQueries. rewrite map_map. cbn [queryKey fst snd].
      now rewrite <- (assoc_L (∪)).
    + cbn [length]. now rewrite Hlen.
    + intros [|j] s Hj.
      * cbn in Hj. injection Hj as <-.
        cbn [position gradientFrom gradientTo gradientStops].
        rewrite Z.add_0_r. now repeat split.
      * cbn in Hj. destruct (Hall j s Hj) as (Hp & Hf & Ht & Hs & Hb).
        replace (i + Z.of_nat (S j)) with (i + 1 + Z.of_nat j) by lia.
        now repeat split.
Qed.

(** A whole render: the cache test, then every strip. *)
Lemma renderStrips_misses canvasHeight cache fuel :
  (Z.to_nat n + 7 <= fuel)%nat ->
  exists strips cache',
    renderStrips fuel p canvasHeight cache = Some (Ret (strips, cache'))
    /\ dom cache' =@{gset string} list_to_set (map (queryKey p) (renderQueries n))
    /\ Z.of_nat (length strips) = n
    /\ forall (j : nat) s, strips !! j = Some s ->
         position s = stripPosition (of_Z (Z.of_nat j)) (of_Z n)
         /\ gradientFrom s = (of_Z (Z.of_nat j) * (canvasHeight / of_Z n))%float
         /\ gradientTo s = (gradientFrom s + canvasHeight / of_Z n)%float
         /\ map fst (gradientStops s) = stopPositions
         /\ Forall (fun stop =>
              exists c, (0 <= r c <= 255 /\ 0 <= g c <= 255 /\ 0 <= b c <= 255)
                        /\ snd stop = rgbaString c) (gradientStops s).
Proof.
  intros Hfuel. unfold renderStrips.
  rewrite (colors_parse_clears p cache Hparse), Hstrips.
  destruct (drawStrips_misses (canvasHeight / of_Z n)%float (Z.to_nat n) 0 fuel ∅ [])
    as (strips & cache' & Hrun & Hdom & Hlen & Hall); [lia|lia|lia| |].
  { intros q _. rewrite dom_empty_L. apply not_elem_of_empty. }
  rewrite dom_empty_L, (left_id_L ∅ (∪)) in Hdom.
  exists strips, cache'. split; [exact Hrun|]. split; [exact Hdom|]. split; [lia|].
  intros j s Hj. destruct (Hall j s Hj) as (Hp & Hf & Ht & Hs & Hb).
  rewrite Z.add_0_l in Hp, Hf, Ht. rewrite Hf. now repeat split.
Qed.

End Gradients.

(** X13: when the colours parse, the vertical bias lies between 0 and 1
    and [params.strips] converts to an integer [n] from 2 to 50, a render
    with enough fuel ends without an exception having drawn exactly [n]
    strips, top to bottom: strip [j] has position [j / (n - 1)], its
    gradient line runs from [j * stripHeight] to
    [j * stripHeight + stripHeight] with [stripHeight = canvasHeight / n],
    and it was given a stop at each of the six stop positions. *)
Theorem render_draws_every_strip `{Host} p canvasHeight cache n fuel :
  colors_parse p ->
  ToNumber (prop p "strips") = of_Z n ->
  (2 <= n <= 50)%Z ->
  PrimFloat.leb 0 (ToNumber (prop p "verticalBias")) = true ->
  PrimFloat.leb (ToNumber (prop p "verticalBias")) 1 = true ->
  (Z.to_nat n + 7 <= fuel)%nat ->
  exists strips cache',
    renderStrips fuel p canvasHeight cache = Some (Ret (strips, cache'))
    /\ Z.of_nat (length strips) = n
    /\ forall (j : nat) s, strips !! j = Some s ->
         position s = stripPosition (of_Z (Z.of_nat j)) (of_Z n)
         /\ gradientFrom s = (of_Z (Z.of_nat j) * (canvasHeight / of_Z n))%float
         /\ gradientTo s = (gradientFrom s + canvasHeight / of_Z n)%float
         /\ map fst (gradientStops s) = stopPositions.
Proof.
  intros Hparse Hstrips Hn Hb0 Hb1 Hfuel.
  destruct (renderStrips_misses p Hparse Hb0 Hb1 n Hn Hstrips canvasHeight cache fuel Hfuel)
    as (strips & cache' & Hrun & _ & Hlen & Hall).
  exists strips, cache'. split; [exact Hrun|]. split; [exact Hlen|].
  intros j s Hj. destruct (Hall j s Hj) as (Hp & Hf & Ht & Hs & _). now repeat split.
Qed.

Lemma render_draws_every_strip_witness :
  exists strips cache',
    @renderStrips integerHost 17 grayParams 600 ∅ = Some (Ret (strips, cache'))
    /\ Z.of_nat (length strips) = 10%Z
    /\ forall (j : nat) s, strips !! j = Some s ->
         position s = stripPosition (of_Z (Z.of_nat j)) (of_Z 10)
         /\ gradientFrom s = (of_Z (Z.of_nat j) * (600 / of_Z 10))%float
         /\ gradientTo s = (gradientFrom s + 600 / of_Z 10)%float
         /\ map fst (gradientStops s) = stopPositions.
Proof.
  apply (@render_draws_every_strip integerHost grayParams 600%float ∅ 10%Z 17%nat).
  - exact grayParams_parse.
  - reflexivity.
  - lia.
  - reflexivity.
  - reflexivity.
  - vm_compute. lia.
Defined.

(** X19: in a render with parsing colours, a vertical bias between 0 and
    1 and [n] strips, [n] from 2 to 50, no two of the [6 * n] queries have
    the same cache key, and the cache, emptied at the start of the render,
    ends with exactly one entry for each of them: every query of a render
    is computed, none is answered from the cache. *)
Theorem render_never_hits_cache `{Host} p canvasHeight cache n fuel :
  colors_parse p ->
  ToNumber (prop p "strips") = of_Z n ->
  (2 <= n <= 50)%Z ->
  PrimFloat.leb 0 (ToNumber (prop p "verticalBias")) = true ->
  PrimFloat.leb (ToNumber (prop p "verticalBias")) 1 = true ->
  (Z.to_nat n + 7 <= fuel)%nat ->
  exists strips cache',
    renderStrips fuel p canvasHeight cache = Some (Ret (strips, cache'))
    /\ NoDup (map (queryKey p) (renderQueries n))
    /\ dom cache' =@{gset string} list_to_set (map (queryKey p) (renderQueries n))
    /\ size cache' = (6 * Z.to_nat n)%nat.
Proof.
  intros Hparse Hstrips Hn Hb0 Hb1 Hfuel.
  assert (Hnd : NoDup (map (queryKey p) (renderQueries n)))
    by (apply (render_keys_NoDup p n ltac:(lia)); lia).
  destruct (renderStrips_misses p Hparse Hb0 Hb1 n Hn Hstrips canvasHeight cache fuel Hfuel)
    as (strips & cache' & Hrun & Hdom & _).
  exists strips, cache'. split; [exact Hrun|]. split; [exact Hnd|]. split; [exact Hdom|].
  rewrite <- size_dom, Hdom, (size_list_to_set _ Hnd), length_map.
  apply length_queriesFrom.
Qed.

Lemma render_never_hits_cache_witness :
  exists strips cache',
    @renderStrips integerHost 17 grayParams 600 ∅ = Some (Ret (strips, cache'))
    /\ NoDup (map (queryKey grayParams) (renderQueries 10))
    /\ dom cache' =@{gset string} list_to_set (map (queryKey grayParams) (renderQueries 10))
    /\ size cache' = (6 * Z.to_nat 10)%nat.
Proof.
  apply (@render_never_hits_cache integerHost grayParams 600%float ∅ 10%Z 17%nat).
  - exact grayParams_parse.
  - reflexivity.
  - lia.
  - reflexivity.
  - reflexivity.
  - vm_compute. lia.
Defined.

(** X24: a render with 2 to 50 strips, colours that parse and a vertical
    bias from 0 to 1 ends without an exception, and every stop of every
    strip it draws carries [rgba(r,g,b, 0.5)] for three integers from 0 to
    255. *)
Theorem render_gives_byte_colours `{Host} p canvasHeight cache n fuel :
  colors_parse p ->
  ToNumber (prop p "strips") = of_Z n ->
  (2 <= n <= 50)%Z ->
  PrimFloat.leb 0 (ToNumber (prop p "verticalBias")) = true ->
  PrimFloat.leb (ToNumber (prop p "verticalBias")) 1 = true ->
  (Z.to_nat n + 7 <= fuel)%nat ->
  exists strips cache',
    renderStrips fuel p canvasHeight cache = Some (Ret (strips, cache'))
    /\ Forall (fun s =>
          Forall (fun stop =>
            exists c, (0 <= r c <= 255 /\ 0 <= g c <= 255 /\ 0 <= b c <= 255)%Z
                      /\ snd stop = rgbaString c) (gradientStops s)) strips.
Proof.
  intros Hparse Hstrips Hn Hb0 Hb1 Hfuel.
  destruct (renderStrips_misses p Hparse Hb0 Hb1 n Hn Hstrips canvasHeight cache fuel Hfuel)
    as (strips & cache' & Hrun & _ & _ & Hall).
  exists strips, cache'. split; [exact Hrun|].
  apply Forall_lookup_2. intros j s Hj.
  now destruct (Hall j s Hj) as (_ & _ & _ & _ & Hb).
Qed.

Lemma render_gives_byte_colours_witness :
  exists strips cache',
    @renderStrips integerHost 17 grayParams 600 ∅ = Some (Ret (strips, cache'))
    /\ Forall (fun s =>
          Forall (fun stop =>
            exists c, (0 <= r c <= 255 /\ 0 <= g c <= 255 /\ 0 <= b c <= 255)%Z
                      /\ snd stop = rgbaString c) (gradientStops s)) strips.
Proof.
  apply (@render_gives_byte_colours integerHost grayParams 600%float ∅ 10%Z 17%nat).
  - exact grayParams_parse.
  - reflexivity.
  - lia.
  - reflexivity.
  - reflexivity.
  - vm_compute. lia.
Defined.

(** *** The stop loop of a strip *)

(** C8 (as amended): with enough fuel the stop loop samples the cache for
    the strip and adds a stop at the positions 0, 0.2, 0.4,
    0.6000000000000001, 0.8 and 1, in this order, and ends after the
    sixth; the fourth is the sum 0.4 + 0.2 in binary64, which is not the
    double nearest to 0.6.  A loop that ends without an exception has
    added exactly these six stops, and it does end so for every strip
    position from 0 to 1 when the colours parse, the vertical bias lies
    between 0 and 1 and the canvas accepts the colours the cache holds. *)
Theorem colorStops_six_stops `{Host} fuel p sp cache :
  (7 <= fuel)%nat ->
  colorStops fuel p sp 0 cache [] = Some (sampleAt p sp stopPositions cache)
  /\ (forall stops cache',
        colorStops fuel p sp 0 cache [] = Some (Ret (stops, cache')) ->
        map fst stops = stopPositions)
  /\ (colors_parse p ->
      PrimFloat.leb 0 (ToNumber (prop p "verticalBias")) = true ->
      PrimFloat.leb (ToNumber (prop p "verticalBias")) 1 = true ->
      PrimFloat.leb 0 sp = true -> PrimFloat.leb sp 1 = true ->
      (forall key v, cachedColor cache key = Some v -> parsesAsColor v = true) ->
      exists stops cache',
        colorStops fuel p sp 0 cache [] = Some (Ret (stops, cache'))
        /\ map fst stops = stopPositions)
  /\ length stopPositions = 6%nat
  /\ List.last stopPositions 0 = 1
  /\ PrimFloat.eqb 0.6000000000000001 0.6 = false.
Proof.
  intros Hfuel.
  assert (Hrun : colorStops fuel p sp 0 cache []
                 = Some (sampleAt p sp stopPositions cache)).
  { rewrite (colorStops_sampleAt _ _ _ _ _ Hfuel).
    destruct (sampleAt p sp stopPositions cache) as [[stops cache']|e]; reflexivity. }
  split; [exact Hrun|]. split; [|split; [|repeat split]].
  - intros stops cache' Hret.
    apply (sampleAt_offsets p sp stopPositions cache stops cache'). congruence.
  - intros Hparse Hb0 Hb1 Hs0 Hs1 Hcache. rewrite Hrun.
    destruct (sampleAt_accepted p Hparse Hb0 Hb1 sp Hs0 Hs1 stopPositions cache
                ltac:(tauto) Hcache) as (stops & cache' & -> & Hfst).
    now exists stops, cache'.
Qed.

Lemma colorStops_six_stops_witness :
  exists stops cache',
    @colorStops integerHost 7 grayParams 0.5 0 ∅ [] = Some (Ret (stops, cache'))
    /\ map fst stops = stopPositions.
Proof.
  apply (@colorStops_six_stops integerHost 7 grayParams 0.5 ∅ (le_n 7)).
  - exact grayParams_parse.
  - reflexivity.
  - reflexivity.
  - reflexivity.
  - reflexivity.
  - intros key v Hv. rewrite cachedColor_empty in Hv. discriminate Hv.
Defined.

(** *** A single strip *)

(** C4: with one strip the position of the strip is 0 / 0, which is NaN
    and not 0; the NaN is printed into the cache key and goes through the
    bias and the clamp into the mapper, the first stop of the strip is
    given the string [rgba(NaN,NaN,NaN, 0.5)], and [addColorStop] rejects
    it: the effect ends with a [SyntaxError] in the first strip. *)
Theorem single_strip_position_is_nan `{Host} p canvasHeight cache fuel :
  colors_parse p ->
  ToNumber (prop p "strips") = 1 ->
  is_nan (stripPosition 0 (ToNumber (prop p "strips"))) = true
  /\ (exists rest,
        cacheKey p 0 (stripPosition 0 (ToNumber (prop p "strips")))
        = ("0-NaN-" +:+ rest)%string)
  /\ getGradientColor p 0 (stripPosition 0 (ToNumber (prop p "strips"))) ∅
     = Ret ("rgba(NaN,NaN,NaN, 0.5)"%string,
            {[ cacheKey p 0 nan := "rgba(NaN,NaN,NaN, 0.5)"%string ]})
  /\ renderStrips (S fuel) p canvasHeight cache = Some (Throw SyntaxError).
Proof.
  intros Hparse Hstrips. rewrite Hstrips.
  change (stripPosition 0 1) with nan.
  assert (Hget : getGradientColor p 0 nan ∅
                 = Ret ("rgba(NaN,NaN,NaN, 0.5)"%string,
                        {[ cacheKey p 0 nan := "rgba(NaN,NaN,NaN, 0.5)"%string ]})).
  { rewrite (getGradientColor_miss _ _ _ _ (cachedColor_empty _)).
    rewrite (freshColor_NaN p Hparse 0 nan) by tauto. reflexivity. }
  split; [reflexivity|]. split; [|split; [exact Hget|]].
  - eexists. unfold cacheKey. reflexivity.
  - unfold renderStrips. rewrite (colors_parse_clears p cache Hparse).
    cbn [drawStrips]. rewrite Hstrips.
    change (PrimFloat.ltb (of_Z 0) 1) with true. cbv iota.
    change (stripPosition (of_Z 0) 1) with nan.
    cbn [colorStops]. change (PrimFloat.leb 0 1) with true. cbv iota.
    rewrite Hget.
    now rewrite (addColorStop_NaN 0) by (cbn; tauto).
Qed.

Lemma singleStripParams_parse : colors_parse singleStripParams.
Proof.
  intros f Hf. cbn [In] in Hf.
  destruct Hf as [<-|[<-|[<-|[]]]]; exists "#808080"%string;
    (split; [reflexivity|apply gray_parses]).
Qed.

Lemma single_strip_position_is_nan_witness :
  prop singleStripParams "strips" = VStr "1"
  /\ @renderStrips integerHost 1 singleStripParams 600 ∅ = Some (Throw SyntaxError).
Proof.
  split; [reflexivity|].
  apply (@single_strip_position_is_nan integerHost singleStripParams 600%float ∅ 0%nat).
  - exact singleStripParams_parse.
  - reflexivity.
Defined.
